(** * mcp-claude-node: the Claude CLI wrapper and its MCP dispatcher

    A shallow embedding of [src/claude-cli.ts] (model mapping, argument
    construction, the subprocess runner, the two retry controllers and the
    JSON extraction helpers), of [src/tools.ts] (the tool catalogue) and of
    [src/server.ts] (the request loop and the tool-call path).

    Conventions of the embedding.
    - A JavaScript string is the list of its UTF-16 code units.
    - A JavaScript number that the code uses as a count, a duration or an
      exit code is an integer of [Z].
    - Effects (spawning the CLI, sleeping, queueing a line for stdout) are
      recorded in a trace carried by a state monad; the external program is
      an oracle giving the run of every spawned process.
    - Diagnostics written by [log] go to stderr only and are not part of
      the trace. *)

From Stdlib Require Import ZArith NArith Bool Lia.
From Stdlib Require Import String Ascii DecimalString DecimalPos DecimalZ.
From Stdlib Require Import List.
Import ListNotations.
Open Scope Z_scope.

(** ** JavaScript strings *)

Module JsString.

Definition code_unit := N.
Definition jsstring := list code_unit.

(** The code units of an ASCII literal. *)
Fixpoint lit (s : string) : jsstring :=
  match s with
  | EmptyString => []
  | String a rest => N_of_ascii a :: lit rest
  end.

(** U+0022, the double quote. *)
Definition dquote : code_unit := 34%N.

(** A literal in which the apostrophe stands for the double quote, for
    writing JSON texts. *)
Definition litq (s : string) : jsstring :=
  map (fun c => if N.eqb c 39 then dquote else c) (lit s).

Fixpoint eqb (a b : jsstring) : bool :=
  match a, b with
  | [], [] => true
  | x :: a', y :: b' => N.eqb x y && eqb a' b'
  | _, _ => false
  end.

(** [xs.includes(x)] on an array of strings, [set.has(x)] on a Set. *)
Definition mem (x : jsstring) (xs : list jsstring) : bool :=
  existsb (eqb x) xs.

(** [String(n)] and template interpolation of an integer-valued number. *)
Definition Number_toString (n : Z) : jsstring :=
  lit (NilZero.string_of_int (Z.to_int n)).

(** A string is falsy exactly when it is empty. *)
Definition truthy (s : jsstring) : bool :=
  match s with [] => false | _ :: _ => true end.

End JsString.
Import JsString.
Arguments lit s%_string.
Arguments litq s%_string.

(** ** Data model ([src/types.ts]) *)

Record ClaudeExecutionResult := mkResult {
  success : bool;
  output : jsstring;
  exitCode : Z
}.

Record ClaudeCliOptions := mkOptions {
  model : jsstring;
  timeout : Z;
  maxRetries : Z;
  maxTurns : option Z;
  outputFormat : jsstring;
  jsonSchema : option jsstring;
  systemPrompt : option jsstring;
  appendSystemPrompt : option jsstring;
  allowedTools : option (list jsstring);
  disallowedTools : option (list jsstring);
  addDirs : option (list jsstring);
  verbose : bool;
  enableMcp : option bool;
  mcpConfigPath : option jsstring
}.

Record ClaudeToolArguments := mkArguments {
  arg_prompt : jsstring;
  arg_model : option jsstring;
  arg_timeout : option Z;
  arg_maxRetries : option Z;
  arg_maxTurns : option Z;
  arg_outputFormat : option jsstring;
  arg_jsonSchema : option jsstring;
  arg_systemPrompt : option jsstring;
  arg_appendSystemPrompt : option jsstring;
  arg_allowedTools : option (list jsstring);
  arg_disallowedTools : option (list jsstring);
  arg_addDirs : option (list jsstring);
  arg_verbose : option bool;
  arg_enableMcp : option bool;
  arg_mcpConfigPath : option jsstring
}.

Record McpToolCallParams := mkParams {
  name : jsstring;
  arguments : ClaudeToolArguments
}.

(** ** Model names ([MODEL_MAP], [mapModelName]) *)

(** What a property read on a plain object literal can give: one of the
    strings the literal stores, or a member inherited from
    [Object.prototype] (a function, or the prototype object itself for
    [__proto__]).  [undefined] is [None] at the use site. *)
Inductive jsval :=
| JsStr (s : jsstring)
| JsInherited (key : jsstring).

Coercion JsStr : jsstring >-> jsval.

Definition haiku_id : jsstring := lit "claude-haiku-4-5-20251001".
Definition sonnet_id : jsstring := lit "claude-sonnet-4-5-20250929".
Definition opus_id : jsstring := lit "claude-opus-4-5-20251101".

Definition MODEL_MAP : list (jsstring * jsstring) :=
  [ (lit "haiku", haiku_id);
    (lit "Haiku", haiku_id);
    (lit "sonnet", sonnet_id);
    (lit "Sonnet", sonnet_id);
    (lit "opus", opus_id);
    (lit "Opus", opus_id);
    (lit "Opus 4.5", opus_id) ].

(** The string-keyed properties of [Object.prototype]. *)
Definition Object_prototype_keys : list jsstring :=
  [ lit "constructor"; lit "__defineGetter__"; lit "__defineSetter__";
    lit "hasOwnProperty"; lit "__lookupGetter__"; lit "__lookupSetter__";
    lit "isPrototypeOf"; lit "propertyIsEnumerable"; lit "toString";
    lit "valueOf"; lit "__proto__"; lit "toLocaleString" ].

Fixpoint own_property (o : list (jsstring * jsstring)) (key : jsstring)
  : option jsstring :=
  match o with
  | [] => None
  | (k, v) :: rest => if eqb key k then Some v else own_property rest key
  end.

(** [o[key]]: own properties first, then the prototype. *)
Definition get_property (o : list (jsstring * jsstring)) (key : jsstring)
  : option jsval :=
  match own_property o key with
  | Some v => Some (JsStr v)
  | None => if mem key Object_prototype_keys then Some (JsInherited key) else None
  end.

Definition jsval_truthy (v : jsval) : bool :=
  match v with
  | JsStr s => truthy s
  | JsInherited _ => true
  end.

(** [MODEL_MAP.haiku] is what the function falls back to when the lookup
    gives [undefined] (or any other falsy value). *)
Definition mapModelName (model : jsstring) : jsval :=
  match get_property MODEL_MAP model with
  | Some mapped => if jsval_truthy mapped then mapped else JsStr haiku_id
  | None => JsStr haiku_id
  end.

(** ** Argument construction ([buildClaudeArgs]) *)

Definition DEFAULT_DISALLOWED_TOOLS : list jsstring :=
  [ lit "Bash(npm run build:*)";
    lit "Bash(npm run dev:*)";
    lit "Bash(npm test:*)";
    lit "Bash(npm run test:run:*)";
    lit "Bash(npm run lint:*)";
    lit "Bash(npx tsc -b:*)";
    lit "Bash(npx eslint .:*)" ].

(** [new Set(xs)] keeps the first occurrence of every element, in insertion
    order; [acc] is the set built so far. *)
Fixpoint Set_add_all (acc xs : list jsstring) : list jsstring :=
  match xs with
  | [] => acc
  | x :: rest => Set_add_all (if mem x acc then acc else acc ++ [x]) rest
  end.

Definition new_Set (xs : list jsstring) : list jsstring := Set_add_all [] xs.

(** [x || d] on an optional array: arrays are truthy, even when empty. *)
Definition or_empty (xs : option (list jsstring)) : list jsstring :=
  match xs with Some l => l | None => [] end.

(** [if (s) args.push(flag, s)] on an optional string: an absent and an
    empty string are both falsy. *)
Definition push_if_set (flag : jsstring) (s : option jsstring) : list jsval :=
  match s with
  | Some v => if truthy v then [JsStr flag; JsStr v] else []
  | None => []
  end.

(** [for (const x of xs) args.push(flag, x)]; on an absent or empty array
    the guard [xs?.length] skips a loop that would push nothing. *)
Definition push_each (flag : jsstring) (xs : list jsstring) : list jsval :=
  flat_map (fun x => [JsStr flag; JsStr x]) xs.

Definition args_head (options : ClaudeCliOptions) : list jsval :=
  [ JsStr (lit "--model"); mapModelName (model options);
    JsStr (lit "--dangerously-skip-permissions"); JsStr (lit "-p") ]
  ++ [ JsStr (lit "--output-format");
       JsStr (if truthy (outputFormat options) then outputFormat options
              else lit "json") ]
  ++ match maxTurns options with
     | Some n => [ JsStr (lit "--max-turns"); JsStr (Number_toString n) ]
     | None => []
     end
  ++ push_if_set (lit "--json-schema") (jsonSchema options)
  ++ push_if_set (lit "--system-prompt") (systemPrompt options)
  ++ push_if_set (lit "--append-system-prompt") (appendSystemPrompt options)
  ++ push_each (lit "--allowedTools") (or_empty (allowedTools options)).

Definition allDisallowedTools (options : ClaudeCliOptions) : list jsstring :=
  new_Set (DEFAULT_DISALLOWED_TOOLS ++ or_empty (disallowedTools options)).

Definition args_tail (options : ClaudeCliOptions) : list jsval :=
  push_each (lit "--add-dir") (or_empty (addDirs options))
  ++ (if verbose options then [ JsStr (lit "--verbose") ] else []).

Definition buildClaudeArgs (options : ClaudeCliOptions) : list jsval :=
  args_head options
  ++ push_each (lit "--disallowedTools") (allDisallowedTools options)
  ++ args_tail options.

(** ** The subprocess runner ([executeClaudeCli]) *)

(** What the child process does between [spawn] and the settling of the
    promise: data arrives on its two output pipes and the timeout timer may
    fire; then either ['close'] is emitted with the exit code ([null] when a
    signal ended the process) or ['error'] is emitted because the process
    could not be started.  The promise is settled by the first of the two,
    so nothing after it is observable. *)
Inductive ProcEvent :=
| StdoutData (chunk : jsstring)
| StderrData (chunk : jsstring)
| TimerFired.

Inductive ProcEnd :=
| OnClose (code : option Z)
| OnError (message : jsstring).

Record ProcRun := mkRun {
  events : list ProcEvent;
  ending : ProcEnd
}.

(** The closure variables of the promise executor. *)
Record ProcState := mkProc {
  chunks : list jsstring;
  errorChunks : list jsstring;
  killed : bool
}.

Definition proc_init : ProcState := mkProc [] [] false.

Definition on_event (st : ProcState) (ev : ProcEvent) : ProcState :=
  match ev with
  | StdoutData chunk => mkProc (chunks st ++ [chunk]) (errorChunks st) (killed st)
  | StderrData chunk => mkProc (chunks st) (errorChunks st ++ [chunk]) (killed st)
  | TimerFired => mkProc (chunks st) (errorChunks st) true
  end.

(** [Buffer.concat(chunks).toString('utf-8')]. *)
Definition Buffer_concat (bufs : list jsstring) : jsstring := concat bufs.

Definition on_close (st : ProcState) (code : option Z) : ClaudeExecutionResult :=
  let output := Buffer_concat (chunks st) in
  let errorOutput := Buffer_concat (errorChunks st) in
  if killed st then mkResult false (lit "Command timeout") 124
  else match code with
       | Some 0 => mkResult true output 0
       | _ =>
         mkResult false
           (if truthy errorOutput then errorOutput
            else if truthy output then output
            else lit "Exit code: " ++
                 match code with
                 | Some n => Number_toString n
                 | None => lit "null"
                 end)
           (match code with Some n => n | None => 1 end)
       end.

Definition on_error (st : ProcState) (message : jsstring) : ClaudeExecutionResult :=
  mkResult false (lit "Spawn error: " ++ message) 1.

Definition settle (run : ProcRun) : ClaudeExecutionResult :=
  let st := fold_left on_event (events run) proc_init in
  match ending run with
  | OnClose code => on_close st code
  | OnError message => on_error st message
  end.

(** ** Effects *)

Inductive Effect :=
| Spawn (prompt : jsstring) (args : list jsval) (timeoutMs : Z)
| Sleep (ms : Z)
| Output (data : jsstring).

(** The external program: the run of the [k]-th process spawned, given what
    it was started with. *)
Definition Program := nat -> jsstring -> list jsval -> Z -> ProcRun.

Record World := mkWorld {
  claude : Program;
  spawned : nat;
  trace : list Effect
}.

Definition M (A : Type) : Type := World -> A * World.

Definition ret {A} (a : A) : M A := fun w => (a, w).

Definition bind {A B} (m : M A) (k : A -> M B) : M B :=
  fun w => let (a, w') := m w in k a w'.

Declare Scope io_scope.
Delimit Scope io_scope with io.
Notation "x <- m ;; k" := (bind m (fun x => k))
  (at level 61, m at next level, right associativity) : io_scope.
Notation "m ;; k" := (bind m (fun _ => k))
  (at level 61, right associativity) : io_scope.
Open Scope io_scope.

Definition emit (e : Effect) : M unit :=
  fun w => (tt, mkWorld (claude w) (spawned w) (trace w ++ [e])).

Definition sleep (ms : Z) : M unit := emit (Sleep ms).

Definition executeClaudeCli (prompt : jsstring) (args : list jsval) (timeoutMs : Z)
  : M ClaudeExecutionResult :=
  fun w =>
    (settle (claude w (spawned w) prompt args timeoutMs),
     mkWorld (claude w) (S (spawned w)) (trace w ++ [Spawn prompt args timeoutMs])).

(** ** Plain retry ([runWithRetry]) *)

(** The values [attempt] takes in [for (attempt = 1; attempt <= maxRetries;
    attempt++)]. *)
Definition attempts_of (maxRetries : Z) : list Z :=
  map Z.of_nat (seq 1 (Z.to_nat maxRetries)).

Definition max_retries_result (maxRetries : Z) : ClaudeExecutionResult :=
  mkResult false
    (lit "Max retries reached after " ++ Number_toString maxRetries ++ lit " attempts")
    1.

Definition is_timeout_code (code : Z) : bool :=
  (code =? 124) || (code =? 137).

Fixpoint retry_loop (prompt : jsstring) (args : list jsval) (timeoutMs maxRetries : Z)
    (attempts : list Z) : M ClaudeExecutionResult :=
  match attempts with
  | [] => ret (max_retries_result maxRetries)
  | attempt :: rest =>
    result <- executeClaudeCli prompt args timeoutMs ;;
    if success result then ret result
    else if is_timeout_code (exitCode result) then
      (if attempt <? maxRetries then sleep 5000 else ret tt) ;;
      retry_loop prompt args timeoutMs maxRetries rest
    else
      if attempt <? maxRetries then
        sleep 2000 ;;
        retry_loop prompt args timeoutMs maxRetries rest
      else ret result
  end.

Definition runWithRetry (prompt : jsstring) (options : ClaudeCliOptions)
  : M ClaudeExecutionResult :=
  let args := buildClaudeArgs options in
  let timeoutMs := timeout options * 1000 in
  retry_loop prompt args timeoutMs (maxRetries options)
    (attempts_of (maxRetries options)).

(** ** JSON texts ([JSON.parse], [JSON.stringify])

    The two built-ins the source relies on, after ECMA-262 (sections
    JSON.parse and QuoteJSONString).  A number is kept as its lexeme: the
    code under study never computes with a parsed number. *)

Module Json.

#[local] Set Warnings "-register-all".
Inductive JsonValue :=
| JNull
| JBool (b : bool)
| JNumber (lexeme : jsstring)
| JString (s : jsstring)
| JArray (items : list JsonValue)
| JObject (members : list (jsstring * JsonValue)).

Definition ch (a : ascii) : code_unit := N_of_ascii a.
Arguments ch a%_char.

Open Scope N_scope.

Definition is_ws (c : code_unit) : bool :=
  (c =? 9) || (c =? 10) || (c =? 13) || (c =? 32).

Definition is_digit (c : code_unit) : bool := (48 <=? c) && (c <=? 57).

Definition hex_value (c : code_unit) : option N :=
  if (48 <=? c) && (c <=? 57) then Some (c - 48)
  else if (97 <=? c) && (c <=? 102) then Some (c - 87)
  else if (65 <=? c) && (c <=? 70) then Some (c - 55)
  else None.

Fixpoint skip_ws (s : jsstring) : jsstring :=
  match s with
  | c :: rest => if is_ws c then skip_ws rest else s
  | [] => []
  end.

(** The characters a backslash may introduce, [u] apart. *)
Definition simple_escape (c : code_unit) : option code_unit :=
  if c =? dquote then Some dquote
  else if c =? ch "\" then Some (ch "\")
  else if c =? ch "/" then Some (ch "/")
  else if c =? ch "b" then Some 8
  else if c =? ch "f" then Some 12
  else if c =? ch "n" then Some 10
  else if c =? ch "r" then Some 13
  else if c =? ch "t" then Some 9
  else None.

Definition hex4 (a b c d : code_unit) : option code_unit :=
  match hex_value a, hex_value b, hex_value c, hex_value d with
  | Some x, Some y, Some z, Some w => Some (((x * 16 + y) * 16 + z) * 16 + w)
  | _, _, _, _ => None
  end.

(** The rest of a string literal after its opening quote: the decoded
    value and what follows the closing quote. *)
Fixpoint lex_string (s : jsstring) : option (jsstring * jsstring) :=
  match s with
  | [] => None
  | c :: rest =>
    if c =? dquote then Some ([], rest)
    else if c =? ch "\" then
      match rest with
      | [] => None
      | e :: rest1 =>
        if e =? ch "u" then
          match rest1 with
          | h1 :: h2 :: h3 :: h4 :: rest2 =>
            match hex4 h1 h2 h3 h4, lex_string rest2 with
            | Some u, Some (v, r) => Some (u :: v, r)
            | _, _ => None
            end
          | _ => None
          end
        else
          match simple_escape e, lex_string rest1 with
          | Some u, Some (v, r) => Some (u :: v, r)
          | _, _ => None
          end
      end
    else if c <? 32 then None
    else
      match lex_string rest with
      | Some (v, r) => Some (c :: v, r)
      | None => None
      end
  end.

Fixpoint span_digits (s : jsstring) : jsstring * jsstring :=
  match s with
  | c :: rest =>
    if is_digit c then let (ds, r) := span_digits rest in (c :: ds, r)
    else ([], s)
  | [] => ([], [])
  end.

Definition lex_sign (s : jsstring) : jsstring * jsstring :=
  match s with
  | c :: rest => if c =? ch "-" then ([c], rest) else ([], s)
  | [] => ([], [])
  end.

Definition lex_int (s : jsstring) : option (jsstring * jsstring) :=
  match s with
  | c :: rest =>
    if c =? ch "0" then Some ([c], rest)
    else if is_digit c then let (ds, r) := span_digits rest in Some (c :: ds, r)
    else None
  | [] => None
  end.

Definition lex_frac (s : jsstring) : option (jsstring * jsstring) :=
  match s with
  | c :: rest =>
    if c =? ch "." then
      match span_digits rest with
      | ([], _) => None
      | (ds, r) => Some (c :: ds, r)
      end
    else Some ([], s)
  | [] => Some ([], [])
  end.

Definition lex_exp_sign (s : jsstring) : jsstring * jsstring :=
  match s with
  | c :: rest => if (c =? ch "+") || (c =? ch "-") then ([c], rest) else ([], s)
  | [] => ([], [])
  end.

Definition lex_exp (s : jsstring) : option (jsstring * jsstring) :=
  match s with
  | c :: rest =>
    if (c =? ch "e") || (c =? ch "E") then
      let (sg, rest1) := lex_exp_sign rest in
      match span_digits rest1 with
      | ([], _) => None
      | (ds, r) => Some (c :: sg ++ ds, r)
      end
    else Some ([], s)
  | [] => Some ([], [])
  end.

Definition lex_number (s : jsstring) : option (jsstring * jsstring) :=
  let (sg, s1) := lex_sign s in
  match lex_int s1 with
  | None => None
  | Some (i, s2) =>
    match lex_frac s2 with
    | None => None
    | Some (f, s3) =>
      match lex_exp s3 with
      | None => None
      | Some (e, s4) => Some (sg ++ i ++ f ++ e, s4)
      end
    end
  end.

(** [strip_prefix p s] is what follows [p] in [s], when [s] starts with it. *)
Fixpoint strip_prefix (p s : jsstring) : option jsstring :=
  match p, s with
  | [], _ => Some s
  | a :: p', b :: s' => if a =? b then strip_prefix p' s' else None
  | _ :: _, [] => None
  end.

Inductive parse_result (A : Type) :=
| Parsed (a : A) (rest : jsstring)
| SyntaxError
| OutOfFuel.
Arguments Parsed {A} a rest.
Arguments SyntaxError {A}.
Arguments OutOfFuel {A}.

(** Recursive descent on the value grammar.  [parse_elements] and
    [parse_members] are entered after the opening bracket, with the
    elements read so far in [acc]. *)
Fixpoint parse_value (fuel : nat) (s : jsstring) : parse_result JsonValue :=
  match fuel with
  | O => OutOfFuel
  | S fuel' =>
    match s with
    | [] => SyntaxError
    | c :: rest =>
      if c =? ch "{" then
        match skip_ws rest with
        | d :: rest1 =>
          if d =? ch "}" then Parsed (JObject []) rest1
          else parse_members fuel' (d :: rest1) []
        | [] => SyntaxError
        end
      else if c =? ch "[" then
        match skip_ws rest with
        | d :: rest1 =>
          if d =? ch "]" then Parsed (JArray []) rest1
          else parse_elements fuel' (d :: rest1) []
        | [] => SyntaxError
        end
      else if c =? dquote then
        match lex_string rest with
        | Some (v, r) => Parsed (JString v) r
        | None => SyntaxError
        end
      else if (c =? ch "-") || is_digit c then
        match lex_number s with
        | Some (l, r) => Parsed (JNumber l) r
        | None => SyntaxError
        end
      else
        match strip_prefix (lit "true") s with
        | Some r => Parsed (JBool true) r
        | None =>
          match strip_prefix (lit "false") s with
          | Some r => Parsed (JBool false) r
          | None =>
            match strip_prefix (lit "null") s with
            | Some r => Parsed JNull r
            | None => SyntaxError
            end
          end
        end
    end
  end

with parse_elements (fuel : nat) (s : jsstring) (acc : list JsonValue)
  : parse_result JsonValue :=
  match fuel with
  | O => OutOfFuel
  | S fuel' =>
    match parse_value fuel' s with
    | Parsed v rest =>
      match skip_ws rest with
      | d :: rest1 =>
        if d =? ch "," then parse_elements fuel' (skip_ws rest1) (acc ++ [v])
        else if d =? ch "]" then Parsed (JArray (acc ++ [v])) rest1
        else SyntaxError
      | [] => SyntaxError
      end
    | SyntaxError => SyntaxError
    | OutOfFuel => OutOfFuel
    end
  end

with parse_members (fuel : nat) (s : jsstring) (acc : list (jsstring * JsonValue))
  : parse_result JsonValue :=
  match fuel with
  | O => OutOfFuel
  | S fuel' =>
    match s with
    | [] => SyntaxError
    | q :: rest =>
      if q =? dquote then
        match lex_string rest with
        | None => SyntaxError
        | Some (key, rest1) =>
          match skip_ws rest1 with
          | [] => SyntaxError
          | d :: rest2 =>
            if d =? ch ":" then
              match parse_value fuel' (skip_ws rest2) with
              | Parsed v rest3 =>
                match skip_ws rest3 with
                | e :: rest4 =>
                  if e =? ch "," then
                    parse_members fuel' (skip_ws rest4) (acc ++ [(key, v)])
                  else if e =? ch "}" then Parsed (JObject (acc ++ [(key, v)])) rest4
                  else SyntaxError
                | [] => SyntaxError
                end
              | SyntaxError => SyntaxError
              | OutOfFuel => OutOfFuel
              end
            else SyntaxError
          end
        end
      else SyntaxError
    end
  end.

Close Scope N_scope.

(** Enough fuel for any text: every recursive call but the one from
    [parse_elements] to [parse_value] comes after a consumed character. *)
Definition fuel_for (text : jsstring) : nat := (2 * length text + 2)%nat.

(** [JSON.parse(text)]: [None] is the SyntaxError the call throws. *)
Definition JSON_parse (text : jsstring) : option JsonValue :=
  match parse_value (fuel_for text) (skip_ws text) with
  | Parsed v rest =>
    match skip_ws rest with
    | [] => Some v
    | _ :: _ => None
    end
  | SyntaxError => None
  | OutOfFuel => None
  end.

End Json.
Import Json.

Module JsonText.

Open Scope N_scope.

Definition hex_digit (n : N) : code_unit :=
  if n <? 10 then 48 + n else 87 + n.

(** The six-character escape of a code unit, in lower-case hexadecimal. *)
Definition unicode_escape (c : code_unit) : jsstring :=
  [ ch "\"; ch "u";
    hex_digit (c / 4096 mod 16); hex_digit (c / 256 mod 16);
    hex_digit (c / 16 mod 16); hex_digit (c mod 16) ].

Definition is_high_surrogate (c : code_unit) : bool :=
  (55296 <=? c) && (c <=? 56319).

Definition is_low_surrogate (c : code_unit) : bool :=
  (56320 <=? c) && (c <=? 57343).

Definition short_escape (c : code_unit) : option code_unit :=
  if c =? 8 then Some (ch "b")
  else if c =? 9 then Some (ch "t")
  else if c =? 10 then Some (ch "n")
  else if c =? 12 then Some (ch "f")
  else if c =? 13 then Some (ch "r")
  else if c =? dquote then Some dquote
  else if c =? ch "\" then Some (ch "\")
  else None.

Fixpoint quote_body (s : jsstring) : jsstring :=
  match s with
  | [] => []
  | c :: rest =>
    match short_escape c with
    | Some e => ch "\" :: e :: quote_body rest
    | None =>
      if c <? 32 then unicode_escape c ++ quote_body rest
      else if is_high_surrogate c then
        match rest with
        | d :: rest1 =>
          if is_low_surrogate d then c :: d :: quote_body rest1
          else unicode_escape c ++ quote_body rest
        | [] => unicode_escape c
        end
      else if is_low_surrogate c then unicode_escape c ++ quote_body rest
      else c :: quote_body rest
    end
  end.

Close Scope N_scope.

(** [JSON.stringify(s)] on a string. *)
Definition JSON_quote (s : jsstring) : jsstring :=
  dquote :: quote_body s ++ [dquote].

(** [xs.join(sep)]. *)
Fixpoint join (sep : jsstring) (xs : list jsstring) : jsstring :=
  match xs with
  | [] => []
  | [x] => x
  | x :: rest => x ++ sep ++ join sep rest
  end.

(** [JSON.stringify(v)] without indentation. *)
Fixpoint JSON_stringify (v : JsonValue) : jsstring :=
  match v with
  | JNull => lit "null"
  | JBool true => lit "true"
  | JBool false => lit "false"
  | JNumber lexeme => lexeme
  | JString s => JSON_quote s
  | JArray items => lit "[" ++ join (lit ",") (map JSON_stringify items) ++ lit "]"
  | JObject members =>
    lit "{"
    ++ join (lit ",")
         (map (fun kv => match kv with
                         | (k, x) => JSON_quote k ++ lit ":" ++ JSON_stringify x
                         end) members)
    ++ lit "}"
  end.

(** An integer-valued number as a JSON value. *)
Definition JInt (n : Z) : JsonValue := JNumber (Number_toString n).

End JsonText.
Import JsonText.

(** ** Extraction helpers ([extractResultText], [extractJsonContent]) *)

(** [v[key]] on the outcome of [JSON.parse]: the outer [None] is the
    TypeError of a read on [null]; [Some None] is [undefined].  On an
    object the last member of that name is the one [JSON.parse] kept;
    arrays, strings, numbers and booleans have no property named
    [result]. *)
Fixpoint last_member (key : jsstring) (members : list (jsstring * JsonValue))
  : option JsonValue :=
  match members with
  | [] => None
  | (k, v) :: rest =>
    match last_member key rest with
    | Some v' => Some v'
    | None => if eqb key k then Some v else None
    end
  end.

Definition read_result (parsed : JsonValue) : option (option JsonValue) :=
  match parsed with
  | JNull => None
  | JObject members => Some (last_member (lit "result") members)
  | _ => Some None
  end.

(** [v && typeof v === 'string'] holds of the non-empty strings and of
    nothing else. *)
Definition truthy_string (v : option JsonValue) : option jsstring :=
  match v with
  | Some (JString s) => if truthy s then Some s else None
  | _ => None
  end.

Definition extractResultText (jsonOutput : jsstring) : jsstring :=
  match JSON_parse jsonOutput with
  | Some parsed =>
    match read_result parsed with
    | Some field =>
      match truthy_string field with
      | Some result => result
      | None => jsonOutput
      end
    | None => jsonOutput
    end
  | None => jsonOutput
  end.

(** [s.indexOf(c)] and [s.lastIndexOf(c)] for a one-character [c]; -1 when
    [c] does not occur. *)
Fixpoint indexOf (s : jsstring) (c : code_unit) : Z :=
  match s with
  | [] => -1
  | x :: rest =>
    if N.eqb x c then 0
    else let i := indexOf rest c in if i =? -1 then -1 else i + 1
  end.

Fixpoint lastIndexOf (s : jsstring) (c : code_unit) : Z :=
  match s with
  | [] => -1
  | x :: rest =>
    let i := lastIndexOf rest c in
    if i =? -1 then (if N.eqb x c then 0 else -1) else i + 1
  end.

(** [s.substring(from, to)] for [0 <= from <= to]. *)
Definition substring (s : jsstring) (from to : Z) : jsstring :=
  firstn (Z.to_nat (to - from)) (skipn (Z.to_nat from) s).

Definition extractJsonContent (text : jsstring) : option jsstring :=
  let firstBrace := indexOf text (ch "{") in
  let lastBrace := lastIndexOf text (ch "}") in
  if (firstBrace =? -1) || (lastBrace =? -1) || (firstBrace >=? lastBrace) then None
  else
    let jsonCandidate := substring text firstBrace (lastBrace + 1) in
    match JSON_parse jsonCandidate with
    | Some _ => Some jsonCandidate
    | None => None
    end.

(** ** JSON-validating retry ([runJsonWithRetry]) *)

Definition with_json_single (options : ClaudeCliOptions) : ClaudeCliOptions :=
  mkOptions (model options) (timeout options) 1 (maxTurns options) (lit "json")
    (jsonSchema options) (systemPrompt options) (appendSystemPrompt options)
    (allowedTools options) (disallowedTools options) (addDirs options)
    (verbose options) (enableMcp options) (mcpConfigPath options).

(** [if (!jsonContent)] on [string | null]. *)
Definition content_truthy (c : option jsstring) : bool :=
  match c with Some s => truthy s | None => false end.

Definition attempt_tag (attempt : Z) (errorMsg : jsstring) : jsstring :=
  lit "[" ++ Number_toString attempt ++ lit "] " ++ errorMsg.

Definition json_retries_result (maxRetries : Z) (errors : list jsstring)
  : ClaudeExecutionResult :=
  mkResult false
    (JSON_stringify
       (JObject [ (lit "error", JString (lit "Max retries reached"));
                  (lit "attempts", JInt maxRetries);
                  (lit "errors", JString (join [10%N] errors)) ]))
    1.

Fixpoint json_retry_loop (prompt : jsstring) (options : ClaudeCliOptions)
    (attempts : list Z) (errors : list jsstring) : M ClaudeExecutionResult :=
  match attempts with
  | [] => ret (json_retries_result (maxRetries options) errors)
  | attempt :: rest =>
    let jsonOptions := with_json_single options in
    result <- runWithRetry prompt jsonOptions ;;
    if negb (success result) then
      let errorMsg := lit "AI execution failed: " ++ output result in
      json_retry_loop prompt options rest (errors ++ [attempt_tag attempt errorMsg])
    else
      let resultText := extractResultText (output result) in
      let jsonContent := extractJsonContent resultText in
      let jsonContent :=
        if negb (content_truthy jsonContent) then extractJsonContent (output result)
        else jsonContent in
      match (if content_truthy jsonContent then jsonContent else None) with
      | Some content => ret (mkResult true content 0)
      | None =>
        let errorMsg := lit "JSON parsing failed" in
        (if attempt <? maxRetries options then sleep 2000 else ret tt) ;;
        json_retry_loop prompt options rest (errors ++ [attempt_tag attempt errorMsg])
      end
  end.

Definition runJsonWithRetry (prompt : jsstring) (options : ClaudeCliOptions)
  : M ClaudeExecutionResult :=
  json_retry_loop prompt options (attempts_of (maxRetries options)) [].

(** ** The tool catalogue ([src/tools.ts]) *)

(** The input schema of a tool is descriptive metadata that no code path
    below reads; a definition is its name and description. *)
Record McpToolDefinition := mkTool {
  tool_name : jsstring;
  tool_description : jsstring
}.

Definition TOOLS : list McpToolDefinition :=
  [ mkTool (lit "claude_generate")
      (lit "Generate code or text via Claude Code CLI with retry and model selection");
    mkTool (lit "claude_edit")
      (lit "Edit files via Claude Code CLI with retry and model selection");
    mkTool (lit "claude_refactor")
      (lit "Refactor code via Claude Code CLI with retry and model selection");
    mkTool (lit "claude_generate_json")
      (lit "Generate JSON response with validation and retry");
    mkTool (lit "claude_edit_json")
      (lit "Edit with JSON response validation and retry") ].

Definition VALID_TOOL_NAMES : list jsstring := new_Set (map tool_name TOOLS).

(** ** The dispatcher's tool-call path ([src/server.ts]) *)

Inductive RpcId :=
| IdNumber (n : Z)
| IdString (s : jsstring)
| IdNull.

Definition id_value (id : RpcId) : JsonValue :=
  match id with
  | IdNumber n => JInt n
  | IdString s => JString s
  | IdNull => JNull
  end.

(** [atomicOutput] appends one write to the promise chain. *)
Definition atomicOutput (data : jsstring) : M unit := emit (Output data).

Definition sendResponse (response : JsonValue) : M unit :=
  atomicOutput (JSON_stringify response).

(** A property whose value is [undefined] is left out by [JSON.stringify]. *)
Definition optional_member (key : jsstring) (v : option JsonValue)
  : list (jsstring * JsonValue) :=
  match v with Some x => [(key, x)] | None => [] end.

Definition error_response (id : RpcId) (code : Z) (message : jsstring)
    (data : option JsonValue) : JsonValue :=
  JObject [ (lit "jsonrpc", JString (lit "2.0"));
            (lit "id", id_value id);
            (lit "error",
             JObject ([ (lit "code", JInt code); (lit "message", JString message) ]
                      ++ optional_member (lit "data") data)) ].

Definition result_response (id : RpcId) (result : JsonValue) : JsonValue :=
  JObject [ (lit "jsonrpc", JString (lit "2.0"));
            (lit "id", id_value id);
            (lit "result", result) ].

Definition sendError (id : RpcId) (code : Z) (message : jsstring)
    (data : option JsonValue) : M unit :=
  sendResponse (error_response id code message data).

Definition sendResult (id : RpcId) (result : JsonValue) : M unit :=
  sendResponse (result_response id result).

Definition text_content (text : jsstring) : JsonValue :=
  JObject [ (lit "content",
             JArray [ JObject [ (lit "type", JString (lit "text"));
                                (lit "text", JString text) ] ]) ].

(** [a || d] on an optional string and [a ?? d] on any optional value. *)
Definition or_default (a : option jsstring) (d : jsstring) : jsstring :=
  match a with Some s => if truthy s then s else d | None => d end.

Definition nullish {A} (a : option A) (d : A) : A :=
  match a with Some x => x | None => d end.

Definition parseToolArguments (args : ClaudeToolArguments) : ClaudeCliOptions :=
  mkOptions
    (or_default (arg_model args) (lit "haiku"))
    (nullish (arg_timeout args) 660)
    (nullish (arg_maxRetries args) 3)
    (arg_maxTurns args)
    (or_default (arg_outputFormat args) (lit "json"))
    (arg_jsonSchema args)
    (arg_systemPrompt args)
    (arg_appendSystemPrompt args)
    (arg_allowedTools args)
    (arg_disallowedTools args)
    (arg_addDirs args)
    (nullish (arg_verbose args) false)
    (Some (nullish (arg_enableMcp args) false))
    (arg_mcpConfigPath args).

(** Nothing in the embedding throws between [try] and [catch], so the
    handler's [catch] arm has no counterpart here. *)
Definition handleToolCall (id : RpcId) (params : McpToolCallParams) : M unit :=
  let toolName := name params in
  let args := arguments params in
  if negb (mem toolName VALID_TOOL_NAMES) then
    sendError id (-32601) (lit "Unknown tool: " ++ toolName) None
  else
    let options := parseToolArguments args in
    if mem toolName [lit "claude_generate"; lit "claude_edit"; lit "claude_refactor"]
    then
      result <- runWithRetry (arg_prompt args) options ;;
      if negb (success result) then
        sendError id (-32603) (lit "Claude CLI error") (Some (JString (output result)))
      else
        let resultText := extractResultText (output result) in
        sendResult id (text_content resultText)
    else if mem toolName [lit "claude_generate_json"; lit "claude_edit_json"]
    then
      result <- runJsonWithRetry (arg_prompt args) options ;;
      if negb (success result) then
        sendError id (-32603) (lit "JSON validation error")
          (Some (JString (output result)))
      else
        sendResult id (text_content (output result))
    else ret tt.

(** ** The output serializer ([outputQueue], [atomicOutput])

    The promise chain as a machine.  [pending] holds the data of the links
    whose callback has not run yet, oldest first; [writing] is the part of
    the line handed to [process.stdout.write] that the stream has not
    flushed yet, when a write is in flight; [stdout] is what has reached
    the stream. *)

Record OutputState := mkOut {
  pending : list jsstring;
  writing : option jsstring;
  stdout : jsstring
}.

Definition out_init : OutputState := mkOut [] None [].

(** What can happen to the chain: a handler calls [atomicOutput]; the
    callback of the oldest pending link runs, which needs the link before
    it to have resolved; the stream flushes some of the bytes in flight;
    the write callback resolves the link in flight, once all its bytes are
    flushed.  An event that is not enabled leaves the state as it is. *)
Inductive OutEvent :=
| Call (data : jsstring)
| Resume
| Flush (n : nat)
| Written.

Definition newline : code_unit := 10%N.

Definition out_step (st : OutputState) (ev : OutEvent) : OutputState :=
  match ev with
  | Call data => mkOut (pending st ++ [data]) (writing st) (stdout st)
  | Resume =>
    match writing st, pending st with
    | None, data :: rest => mkOut rest (Some (data ++ [newline])) (stdout st)
    | _, _ => st
    end
  | Flush n =>
    match writing st with
    | Some bytes => mkOut (pending st) (Some (skipn n bytes)) (stdout st ++ firstn n bytes)
    | None => st
    end
  | Written =>
    match writing st with
    | Some [] => mkOut (pending st) None (stdout st)
    | _ => st
    end
  end.

Definition out_run (evs : list OutEvent) : OutputState :=
  fold_left out_step evs out_init.

(** The data passed to [atomicOutput], in call order. *)
Fixpoint calls_of (evs : list OutEvent) : list jsstring :=
  match evs with
  | [] => []
  | Call data :: rest => data :: calls_of rest
  | _ :: rest => calls_of rest
  end.

Definition line_of (data : jsstring) : jsstring := data ++ [newline].

(** A call of [sendResponse], as an event of the chain. *)
Definition Send (response : JsonValue) : OutEvent := Call (JSON_stringify response).

(** ** Vocabulary of the statements *)

(** ASCII lower-casing, to speak of the casings of a family name. *)
Definition toLowerCase (s : jsstring) : jsstring :=
  map (fun c => if (65 <=? c)%N && (c <=? 90)%N then (c + 32)%N else c) s.

(** The options with another list of caller-supplied disallowed tools. *)
Definition with_disallowedTools (options : ClaudeCliOptions)
    (tools : option (list jsstring)) : ClaudeCliOptions :=
  mkOptions (model options) (timeout options) (maxRetries options)
    (maxTurns options) (outputFormat options) (jsonSchema options)
    (systemPrompt options) (appendSystemPrompt options) (allowedTools options)
    tools (addDirs options) (verbose options) (enableMcp options)
    (mcpConfigPath options).

(** What the process wrote on its standard output and standard error. *)
Definition chunks_of (evs : list ProcEvent) : list jsstring :=
  flat_map (fun ev => match ev with StdoutData c => [c] | _ => [] end) evs.

Definition errorChunks_of (evs : list ProcEvent) : list jsstring :=
  flat_map (fun ev => match ev with StderrData c => [c] | _ => [] end) evs.

Definition stdout_text (run : ProcRun) : jsstring := concat (chunks_of (events run)).

Definition stderr_text (run : ProcRun) : jsstring :=
  concat (errorChunks_of (events run)).

(** The outcome of the [k]-th attempt (from 1) of a [runWithRetry] call that
    starts in the world [w]. *)
Definition attempt_outcome (w : World) (prompt : jsstring)
    (options : ClaudeCliOptions) (k : nat) : ClaudeExecutionResult :=
  settle (claude w (spawned w + (k - 1))%nat prompt (buildClaudeArgs options)
            (timeout options * 1000)).

(** Sample inputs: a call with every optional argument left out, and
    external programs given by the list of their first runs. *)
Definition arguments_of (prompt : jsstring) (maxRetries : option Z)
  : ClaudeToolArguments :=
  mkArguments prompt None None maxRetries None None None None None None None
    None None None None.

Definition scripted (runs : list ProcRun) (otherwise : ProcRun) : Program :=
  fun k _ _ _ => nth k runs otherwise.

Definition fresh_world (program : Program) : World := mkWorld program 0 [].

Definition run_timed_out : ProcRun :=
  mkRun [StdoutData (lit "partial"); TimerFired] (OnClose None).

Definition run_exit (code : Z) (out err : jsstring) : ProcRun :=
  mkRun [StdoutData out; StderrData err] (OnClose (Some code)).

Definition run_not_started : ProcRun :=
  mkRun [] (OnError (lit "spawn claude ENOENT")).

(** The lexeme is a JSON number and nothing more. *)
Definition number_lexeme (l : jsstring) : bool :=
  match lex_number l with
  | Some (l', []) => eqb l' l
  | _ => false
  end.

(** A JSON value whose number lexemes are JSON numbers, as are the values
    built from [JInt], strings, booleans and [null]. *)
Fixpoint numbers_valid (v : JsonValue) : bool :=
  match v with
  | JNumber lexeme => number_lexeme lexeme
  | JArray items => forallb numbers_valid items
  | JObject members =>
    forallb (fun kv => match kv with (_, x) => numbers_valid x end) members
  | _ => true
  end.

(** What may follow a number in a text: not something that continues it. *)
Definition ends_number (rest : jsstring) : Prop :=
  match rest with
  | [] => True
  | c :: _ =>
    is_digit c = false /\ (c =? ch ".")%N = false /\
    ((c =? ch "e") || (c =? ch "E"))%N = false
  end.

(** The characters of number lexemes. *)
Definition number_char (c : code_unit) : bool :=
  is_digit c || (c =? ch "-")%N || (c =? ch "+")%N || (c =? ch ".")%N
  || (c =? ch "e")%N || (c =? ch "E")%N.

(** The text of one member of an object. *)
Definition member_text (kv : jsstring * JsonValue) : jsstring :=
  match kv with (k, x) => JSON_quote k ++ lit ":" ++ JSON_stringify x end.

(** The complete lines of a text, without their terminators; what follows
    the last line feed is dropped.  [cur] is the line being read. *)
Fixpoint lines_from (cur s : jsstring) : list jsstring :=
  match s with
  | [] => []
  | c :: rest =>
    if N.eqb c newline then cur :: lines_from [] rest
    else lines_from (cur ++ [c]) rest
  end.

Definition complete_lines (s : jsstring) : list jsstring := lines_from [] s.

(** The stream events that empty the chain: flush and resolve the write in
    flight, then resume, flush and resolve every pending link in turn. *)
Definition drain_one (data : jsstring) : list OutEvent :=
  [Resume; Flush (length (line_of data)); Written].

Definition drain (st : OutputState) : list OutEvent :=
  match writing st with
  | Some bytes => [Flush (length bytes); Written]
  | None => []
  end
  ++ flat_map drain_one (pending st).

(** A result that is not a fuel exhaustion and, when a value was read,
    leaves less than the input. *)
Definition settled_on (s : jsstring) (r : parse_result JsonValue) : Prop :=
  match r with
  | Parsed _ rest => (length rest < length s)%nat
  | SyntaxError => True
  | OutOfFuel => False
  end.

(** The state of the chain after the calls [calls]: the lines of the first
    calls are on stdout whole, the line of the next one is split between
    stdout and the write in flight (if there is one), and the others are
    pending, all in call order. *)
Definition serialized (calls : list jsstring) (st : OutputState) : Prop :=
  exists done,
    match writing st with
    | None =>
      calls = done ++ pending st /\ stdout st = concat (map line_of done)
    | Some unflushed =>
      exists data flushed,
        calls = done ++ data :: pending st /\
        line_of data = flushed ++ unflushed /\
        stdout st = concat (map line_of done) ++ flushed
    end.

(** Induction on JSON values, through the lists of elements and members. *)
Section JsonValue_induction.

Variable P : JsonValue -> Prop.
Hypothesis Hnull : P JNull.
Hypothesis Hbool : forall b, P (JBool b).
Hypothesis Hnumber : forall lexeme, P (JNumber lexeme).
Hypothesis Hstring : forall s, P (JString s).
Hypothesis Harray : forall items, Forall P items -> P (JArray items).
Hypothesis Hobject :
  forall members, Forall (fun kv => P (snd kv)) members -> P (JObject members).

Fixpoint JsonValue_induction (v : JsonValue) : P v :=
  match v with
  | JNull => Hnull
  | JBool b => Hbool b
  | JNumber lexeme => Hnumber lexeme
  | JString s => Hstring s
  | JArray items =>
    Harray items
      ((fix all (l : list JsonValue) : Forall P l :=
          match l with
          | [] => Forall_nil P
          | x :: rest => Forall_cons x (JsonValue_induction x) (all rest)
          end) items)
  | JObject members =>
    Hobject members
      ((fix all (l : list (jsstring * JsonValue))
          : Forall (fun kv => P (snd kv)) l :=
          match l with
          | [] => Forall_nil _
          | kv :: rest =>
            Forall_cons kv (JsonValue_induction (snd kv)) (all rest)
          end) members)
  end.

End JsonValue_induction.

(** ** Vocabulary of the further properties *)

(** The wait that follows a failed attempt when another one remains. *)
Definition backoff (r : ClaudeExecutionResult) : Z :=
  if is_timeout_code (exitCode r) then 5000 else 2000.

(** How many of [n] attempts are made, the first being attempt [first]:
    up to and including the first success, or all of them. *)
Fixpoint attempts_made (outcome : nat -> ClaudeExecutionResult) (first n : nat)
  : nat :=
  match n with
  | O => O
  | S n' =>
    if success (outcome first) then 1%nat
    else S (attempts_made outcome (S first) n')
  end.

(** The effects of [k] attempts in a row: a spawn each, and between two
    spawns the wait that the outcome of the earlier one calls for. *)
Fixpoint attempts_trace (spawn : Effect) (outcome : nat -> ClaudeExecutionResult)
    (first k : nat) : list Effect :=
  match k with
  | O => []
  | S k' =>
    spawn ::
    match k' with
    | O => []
    | S _ => Sleep (backoff (outcome first))
             :: attempts_trace spawn outcome (S first) k'
    end
  end.

(** The world [w] after [k] more spawns and the effects [effs]. *)
Definition after (w : World) (k : nat) (effs : list Effect) : World :=
  mkWorld (claude w) (spawned w + k) (trace w ++ effs).

(** What every outcome satisfies: success goes with exit code 0 and nothing
    else does, and a failure carries a message. *)
Definition coherent (r : ClaudeExecutionResult) : Prop :=
  (success r = true <-> exitCode r = 0) /\ (success r = false -> output r <> []).

(** An effect other than a line queued for stdout. *)
Definition silent (e : Effect) : Prop :=
  match e with Output _ => False | _ => True end.

(** The JSON content [runJsonWithRetry] finds in a successful output: in
    the result text first, in the raw output otherwise. *)
Definition json_content (out : jsstring) : option jsstring :=
  let jsonContent := extractJsonContent (extractResultText out) in
  let jsonContent :=
    if negb (content_truthy jsonContent) then extractJsonContent out
    else jsonContent in
  if content_truthy jsonContent then jsonContent else None.

(** The effect of the one process an attempt of [runJsonWithRetry] spawns. *)
Definition json_spawn (prompt : jsstring) (options : ClaudeCliOptions) : Effect :=
  Spawn prompt (buildClaudeArgs (with_json_single options)) (timeout options * 1000).

(** An error line that carries the number of its attempt. *)
Definition tagged (attempt : Z) (line : jsstring) : Prop :=
  exists msg, line = attempt_tag attempt msg.

(** The report of [runJsonWithRetry] when every attempt failed. *)
Definition json_report (maxRetries : Z) (errors : list jsstring) : JsonValue :=
  JObject [ (lit "error", JString (lit "Max retries reached"));
            (lit "attempts", JInt maxRetries);
            (lit "errors", JString (join [newline] errors)) ].

(** ** The request loop ([processRequest], [src/server.ts])

    The dispatcher reads the request as whatever [JSON.parse] gives and
    casts it to the declared types without a check.  The embedding follows
    the code on every line and every JSON value up to the point where a
    value is used at a declared type; there it goes on when the value has
    that type and stops with [Untyped] when it has not. *)

(** A value read at a declared type. *)
Inductive typed (A : Type) :=
| Typed (a : A)
| IllTyped.
Arguments Typed {A} a.
Arguments IllTyped {A}.

Definition typed_bind {A B} (m : typed A) (k : A -> typed B) : typed B :=
  match m with Typed a => k a | IllTyped => IllTyped end.

Declare Scope typed_scope.
Delimit Scope typed_scope with typed.
Notation "'let?' x := m 'in' k" := (typed_bind m (fun x => k))
  (at level 10, x name, m at level 100, k at level 200) : typed_scope.

(** The code units [String.prototype.trim] strips: the WhiteSpace and
    LineTerminator code points of ECMA-262, all of one code unit. *)
Definition is_js_whitespace (c : code_unit) : bool :=
  (((9 <=? c) && (c <=? 13)) || (c =? 32) || (c =? 160) || (c =? 5760)
   || ((8192 <=? c) && (c <=? 8202)) || (c =? 8232) || (c =? 8233)
   || (c =? 8239) || (c =? 8287) || (c =? 12288) || (c =? 65279))%N.

Fixpoint trimStart (s : jsstring) : jsstring :=
  match s with
  | c :: rest => if is_js_whitespace c then trimStart rest else s
  | [] => []
  end.

Definition trimEnd (s : jsstring) : jsstring := rev (trimStart (rev s)).

Definition trim (s : jsstring) : jsstring := trimEnd (trimStart s).

(** The numbers of the typed part: a lexeme that is the decimal notation
    of an integer in the safe range.  [JSON.parse] reads it as that integer
    and [String] and [JSON.stringify] write the integer back as the same
    lexeme. *)
Definition unlit (s : jsstring) : string :=
  fold_right (fun c acc => String (ascii_of_N c) acc) EmptyString s.

Definition MAX_SAFE_INTEGER : Z := 9007199254740991.

Definition safe_integer (lexeme : jsstring) : option Z :=
  match NilZero.int_of_string (unlit lexeme) with
  | Some d =>
    let n := Z.of_int d in
    if eqb (Number_toString n) lexeme && (Z.abs n <=? MAX_SAFE_INTEGER)
    then Some n else None
  | None => None
  end.

(** [const { id, method, params } = request]: the TypeError on [null] is
    [None]; a string, a number, a boolean and an array have none of the
    three properties. *)
Definition destructure_request (request : JsonValue)
  : option (option JsonValue * option JsonValue * option JsonValue) :=
  match request with
  | JNull => None
  | JObject members =>
    Some (last_member (lit "id") members,
          last_member (lit "method") members,
          last_member (lit "params") members)
  | _ => Some (None, None, None)
  end.

(** The identifier at its declared type, [undefined] for a request that
    has none. *)
Definition decode_id (id : option JsonValue) : typed (option RpcId) :=
  match id with
  | None => Typed None
  | Some JNull => Typed (Some IdNull)
  | Some (JString s) => Typed (Some (IdString s))
  | Some (JNumber lexeme) =>
    match safe_integer lexeme with
    | Some n => Typed (Some (IdNumber n))
    | None => IllTyped
    end
  | Some _ => IllTyped
  end.

(** The interpolation of the method in a template literal. *)
Definition ToString (v : option JsonValue) : typed jsstring :=
  match v with
  | None => Typed (lit "undefined")
  | Some JNull => Typed (lit "null")
  | Some (JBool true) => Typed (lit "true")
  | Some (JBool false) => Typed (lit "false")
  | Some (JString s) => Typed s
  | Some (JNumber lexeme) =>
    match safe_integer lexeme with
    | Some n => Typed (Number_toString n)
    | None => IllTyped
    end
  | Some _ => IllTyped
  end.

(** Responses to an identifier that may be [undefined]: [JSON.stringify]
    leaves the [id] member out then. *)
Definition id_member (id : option RpcId) : list (jsstring * JsonValue) :=
  optional_member (lit "id") (option_map id_value id).

Definition error_response_raw (id : option RpcId) (code : Z) (message : jsstring)
    (data : option JsonValue) : JsonValue :=
  JObject ([ (lit "jsonrpc", JString (lit "2.0")) ]
           ++ id_member id
           ++ [ (lit "error",
                 JObject ([ (lit "code", JInt code); (lit "message", JString message) ]
                          ++ optional_member (lit "data") data)) ]).

Definition result_response_raw (id : option RpcId) (result : JsonValue) : JsonValue :=
  JObject ([ (lit "jsonrpc", JString (lit "2.0")) ]
           ++ id_member id
           ++ [ (lit "result", result) ]).

Definition sendError_raw (id : option RpcId) (code : Z) (message : jsstring)
    (data : option JsonValue) : M unit :=
  sendResponse (error_response_raw id code message data).

Definition sendResult_raw (id : option RpcId) (result : JsonValue) : M unit :=
  sendResponse (result_response_raw id result).

Definition handleInitialize (id : option RpcId) : M unit :=
  sendResult_raw id
    (JObject [ (lit "protocolVersion", JString (lit "2024-11-05"));
               (lit "capabilities", JObject [ (lit "tools", JObject []) ]);
               (lit "serverInfo",
                JObject [ (lit "name", JString (lit "claude-shell"));
                          (lit "version", JString (lit "2.0.0")) ]) ]).

(** The input schemas of [src/tools.ts], member for member. *)
Definition strings (xs : list jsstring) : JsonValue := JArray (map JString xs).

Definition modelEnum : list jsstring :=
  [ lit "haiku"; lit "sonnet"; lit "opus"; lit "Haiku"; lit "Sonnet"; lit "Opus";
    lit "Opus 4.5" ].

Definition outputFormatEnum : list jsstring :=
  [ lit "text"; lit "json"; lit "stream-json" ].

Definition described (type description : jsstring) : JsonValue :=
  JObject [ (lit "type", JString type); (lit "description", JString description) ].

Definition described_enum (type description : jsstring) (enum : list jsstring)
  : JsonValue :=
  JObject [ (lit "type", JString type); (lit "description", JString description);
            (lit "enum", strings enum) ].

Definition described_array (description : jsstring) : JsonValue :=
  JObject [ (lit "type", JString (lit "array"));
            (lit "items", JObject [ (lit "type", JString (lit "string")) ]);
            (lit "description", JString description) ].

Definition property_prompt : JsonValue :=
  described (lit "string") (lit "Prompt to pass to Claude CLI").

Definition property_model : JsonValue :=
  described_enum (lit "string")
    (lit "Model to use (haiku, sonnet, opus). Default: haiku") modelEnum.

Definition property_systemPrompt : JsonValue :=
  described (lit "string") (lit "Replace default system prompt").

Definition property_appendSystemPrompt : JsonValue :=
  described (lit "string") (lit "Append to default system prompt").

Definition commonProperties : list (jsstring * JsonValue) :=
  [ (lit "prompt", property_prompt);
    (lit "model", property_model);
    (lit "timeout", described (lit "number") (lit "Timeout in seconds. Default: 660"));
    (lit "maxRetries",
     described (lit "number") (lit "Maximum retry attempts. Default: 3"));
    (lit "maxTurns",
     described (lit "number")
       (lit "Maximum agent turns (iterations). Default: unlimited"));
    (lit "outputFormat",
     described_enum (lit "string")
       (lit "Output format: text, json, stream-json. Default: json")
       outputFormatEnum);
    (lit "systemPrompt", property_systemPrompt);
    (lit "appendSystemPrompt", property_appendSystemPrompt);
    (lit "allowedTools",
     described_array (lit "Additional tools to allow without asking"));
    (lit "disallowedTools", described_array (lit "Tools to disallow"));
    (lit "addDirs", described_array (lit "Additional directories to access"));
    (lit "verbose",
     described (lit "boolean") (lit "Enable verbose logging. Default: false")) ].

Definition jsonToolProperties : list (jsstring * JsonValue) :=
  [ (lit "prompt", property_prompt);
    (lit "model", property_model);
    (lit "maxRetries",
     described (lit "number")
       (lit "Maximum retry attempts for JSON validation. Default: 3"));
    (lit "jsonSchema",
     described (lit "string") (lit "JSON Schema to validate output against"));
    (lit "systemPrompt", property_systemPrompt);
    (lit "appendSystemPrompt", property_appendSystemPrompt) ].

(** The [properties] of each entry of [TOOLS], in the order of the array. *)
Definition TOOLS_properties : list (list (jsstring * JsonValue)) :=
  [ commonProperties; commonProperties; commonProperties;
    jsonToolProperties; jsonToolProperties ].

Definition tool_value (tool : McpToolDefinition)
    (properties : list (jsstring * JsonValue)) : JsonValue :=
  JObject [ (lit "name", JString (tool_name tool));
            (lit "description", JString (tool_description tool));
            (lit "inputSchema",
             JObject [ (lit "type", JString (lit "object"));
                       (lit "properties", JObject properties);
                       (lit "required", strings [ lit "prompt" ]) ]) ].

Definition TOOLS_value : JsonValue :=
  JArray (map (fun tp => tool_value (fst tp) (snd tp)) (combine TOOLS TOOLS_properties)).

Definition handleToolsList (id : option RpcId) : M unit :=
  sendResult_raw id (JObject [ (lit "tools", TOOLS_value) ]).

(** The members of [params.arguments] at the types of
    [ClaudeToolArguments]; a member that is absent is [undefined]. *)
Definition field_string (v : option JsonValue) : typed (option jsstring) :=
  match v with
  | None => Typed None
  | Some (JString s) => Typed (Some s)
  | Some _ => IllTyped
  end.

Definition field_number (v : option JsonValue) : typed (option Z) :=
  match v with
  | None => Typed None
  | Some (JNumber lexeme) =>
    match safe_integer lexeme with
    | Some n => Typed (Some n)
    | None => IllTyped
    end
  | Some _ => IllTyped
  end.

Definition field_boolean (v : option JsonValue) : typed (option bool) :=
  match v with
  | None => Typed None
  | Some (JBool b) => Typed (Some b)
  | Some _ => IllTyped
  end.

Fixpoint strings_of (items : list JsonValue) : typed (list jsstring) :=
  match items with
  | [] => Typed []
  | JString s :: rest =>
    match strings_of rest with
    | Typed l => Typed (s :: l)
    | IllTyped => IllTyped
    end
  | _ :: _ => IllTyped
  end.

Definition field_strings (v : option JsonValue) : typed (option (list jsstring)) :=
  match v with
  | None => Typed None
  | Some (JArray items) =>
    match strings_of items with
    | Typed l => Typed (Some l)
    | IllTyped => IllTyped
    end
  | Some _ => IllTyped
  end.

Open Scope typed_scope.

Definition decode_arguments (fields : list (jsstring * JsonValue))
  : typed ClaudeToolArguments :=
  let field key := last_member (lit key) fields in
  match field "prompt"%string with
  | Some (JString prompt) =>
    let? model := field_string (field "model"%string) in
    let? timeout := field_number (field "timeout"%string) in
    let? maxRetries := field_number (field "maxRetries"%string) in
    let? maxTurns := field_number (field "maxTurns"%string) in
    let? outputFormat := field_string (field "outputFormat"%string) in
    let? jsonSchema := field_string (field "jsonSchema"%string) in
    let? systemPrompt := field_string (field "systemPrompt"%string) in
    let? appendSystemPrompt := field_string (field "appendSystemPrompt"%string) in
    let? allowedTools := field_strings (field "allowedTools"%string) in
    let? disallowedTools := field_strings (field "disallowedTools"%string) in
    let? addDirs := field_strings (field "addDirs"%string) in
    let? verbose := field_boolean (field "verbose"%string) in
    let? enableMcp := field_boolean (field "enableMcp"%string) in
    let? mcpConfigPath := field_string (field "mcpConfigPath"%string) in
    Typed (mkArguments prompt model timeout maxRetries maxTurns outputFormat
             jsonSchema systemPrompt appendSystemPrompt allowedTools
             disallowedTools addDirs verbose enableMcp mcpConfigPath)
  | _ => IllTyped
  end.

Close Scope typed_scope.

(** What [processRequest] leaves behind. *)
Inductive Outcome :=
| Returned
| Spawned (id : RpcId) (params : McpToolCallParams)
| Rejected
| Threw
| Untyped.

(** [handleToolCall(id, params)] on the [params] of the request, up to the
    validation of the tool name.  The destructuring of line 102 throws on
    [undefined] and [null]; the read of [args.model] on line 105 throws when
    [params] has no [arguments], as is the case of every value that is not
    an object.  The function being [async], the exception rejects its
    promise, which the [catch] of the caller logs: nothing has been sent. *)
Definition start_tool_call (id : typed (option RpcId)) (params : option JsonValue)
  : Outcome :=
  match params with
  | None | Some JNull => Rejected
  | Some (JObject members) =>
    match last_member (lit "arguments") members with
    | None | Some JNull => Rejected
    | Some (JObject fields) =>
      match last_member (lit "name") members, id, decode_arguments fields with
      | Some (JString toolName), Typed (Some id), Typed args =>
        Spawned id (mkParams toolName args)
      | _, _, _ => Untyped
      end
    | Some _ => Untyped
    end
  | Some _ => Rejected
  end.

Definition with_id (id : typed (option RpcId)) (k : option RpcId -> M unit)
  : M Outcome :=
  match id with
  | Typed id => k id ;; ret Returned
  | IllTyped => ret Untyped
  end.

Definition method_not_found (id : typed (option RpcId)) (method : typed jsstring)
  : M Outcome :=
  match method with
  | Typed text =>
    with_id id (fun id =>
      sendError_raw id (-32601) (lit "Method not found: " ++ text) None)
  | IllTyped => ret Untyped
  end.

(** The [switch] on the method.  A [case] is taken by the string it names
    and by nothing else. *)
Definition switch_method (id : typed (option RpcId)) (method params : option JsonValue)
  : M Outcome :=
  match method with
  | Some (JString m) =>
    if eqb m (lit "initialize") then with_id id handleInitialize
    else if eqb m (lit "initialized") then ret Returned
    else if eqb m (lit "tools/list") then with_id id handleToolsList
    else if eqb m (lit "tools/call") then ret (start_tool_call id params)
    else method_not_found id (Typed m)
  | other => method_not_found id (ToString other)
  end.

Definition processRequest (line : jsstring) : M Outcome :=
  if negb (truthy (trim line)) then ret Returned
  else
    match JSON_parse line with
    | None => sendError IdNull (-32700) (lit "Parse error") None ;; ret Returned
    | Some request =>
      match destructure_request request with
      | None => ret Threw
      | Some (id, method, params) => switch_method (decode_id id) method params
      end
    end.

(** The whole reaction of the server to one line when no other call is in
    flight: the dispatch, then the tool call it started, to its end. *)
Definition react (line : jsstring) : M Outcome :=
  d <- processRequest line ;;
  match d with
  | Spawned id params => handleToolCall id params ;; ret d
  | _ => ret d
  end.

(** ** Requests as a client writes them

    [McpClient.send] of the test client writes
    [JSON.stringify({ jsonrpc, id, method, params })]; a member whose value
    is [undefined] is left out. *)

Definition present (members : list (jsstring * option JsonValue))
  : list (jsstring * JsonValue) :=
  flat_map (fun kv => optional_member (fst kv) (snd kv)) members.

Definition rpc_request (id : option RpcId) (method : jsstring)
    (params : option JsonValue) : JsonValue :=
  JObject (present [ (lit "jsonrpc", Some (JString (lit "2.0")));
                     (lit "id", option_map id_value id);
                     (lit "method", Some (JString method));
                     (lit "params", params) ]).

(** The arguments of a tool call as an object literal of the declared
    type [ClaudeToolArguments]. *)
Definition arguments_value (args : ClaudeToolArguments) : JsonValue :=
  JObject
    (present
       [ (lit "prompt", Some (JString (arg_prompt args)));
         (lit "model", option_map JString (arg_model args));
         (lit "timeout", option_map JInt (arg_timeout args));
         (lit "maxRetries", option_map JInt (arg_maxRetries args));
         (lit "maxTurns", option_map JInt (arg_maxTurns args));
         (lit "outputFormat", option_map JString (arg_outputFormat args));
         (lit "jsonSchema", option_map JString (arg_jsonSchema args));
         (lit "systemPrompt", option_map JString (arg_systemPrompt args));
         (lit "appendSystemPrompt", option_map JString (arg_appendSystemPrompt args));
         (lit "allowedTools", option_map strings (arg_allowedTools args));
         (lit "disallowedTools", option_map strings (arg_disallowedTools args));
         (lit "addDirs", option_map strings (arg_addDirs args));
         (lit "verbose", option_map JBool (arg_verbose args));
         (lit "enableMcp", option_map JBool (arg_enableMcp args));
         (lit "mcpConfigPath", option_map JString (arg_mcpConfigPath args)) ]).

Definition params_value (params : McpToolCallParams) : JsonValue :=
  JObject [ (lit "name", JString (name params));
            (lit "arguments", arguments_value (arguments params)) ].

(** The integers a JavaScript number holds exactly. *)
Definition safe (n : Z) : Prop := Z.abs n <= MAX_SAFE_INTEGER.

Definition safe_option (n : option Z) : Prop :=
  match n with Some n => safe n | None => True end.

Definition safe_id (id : option RpcId) : Prop :=
  match id with Some (IdNumber n) => safe n | _ => True end.

Definition safe_arguments (args : ClaudeToolArguments) : Prop :=
  safe_option (arg_timeout args) /\ safe_option (arg_maxRetries args)
  /\ safe_option (arg_maxTurns args).

(** The member of that name the reader of the object finds. *)
Fixpoint last_present (key : jsstring) (members : list (jsstring * option JsonValue))
  : option JsonValue :=
  match members with
  | [] => None
  | (k, v) :: rest =>
    match last_present key rest with
    | Some x => Some x
    | None => if eqb key k then v else None
    end
  end.

(** The arguments [args] with other values for the two MCP options. *)
Definition with_mcp (args : ClaudeToolArguments) (enableMcp : option bool)
    (mcpConfigPath : option jsstring) : ClaudeToolArguments :=
  mkArguments (arg_prompt args) (arg_model args) (arg_timeout args)
    (arg_maxRetries args) (arg_maxTurns args) (arg_outputFormat args)
    (arg_jsonSchema args) (arg_systemPrompt args) (arg_appendSystemPrompt args)
    (arg_allowedTools args) (arg_disallowedTools args) (arg_addDirs args)
    (arg_verbose args) enableMcp mcpConfigPath.

(** Options that run the CLI alike: same arguments, timeout and number of
    attempts. *)
Definition same_run (a b : ClaudeCliOptions) : Prop :=
  buildClaudeArgs a = buildClaudeArgs b /\ timeout a = timeout b
  /\ maxRetries a = maxRetries b.

(** * Properties *)

(** ** String equality and membership *)

Lemma jsstring_eqb_spec (a b : jsstring) : reflect (a = b) (eqb a b).
Proof.
  revert b; induction a as [|x a IH]; intros [|y b]; simpl;
    try (constructor; congruence).
  destruct (N.eqb_spec x y) as [->|Hxy]; simpl.
  - destruct (IH b) as [->|Hab]; constructor; congruence.
  - constructor; congruence.
Qed.

Lemma jsstring_eqb_refl (a : jsstring) : eqb a a = true.
Proof. destruct (jsstring_eqb_spec a a); congruence. Qed.

Lemma jsstring_eqb_eq (a b : jsstring) : eqb a b = true <-> a = b.
Proof. destruct (jsstring_eqb_spec a b); split; congruence. Qed.

Lemma jsstring_eqb_neq (a b : jsstring) : eqb a b = false <-> a <> b.
Proof. destruct (jsstring_eqb_spec a b); split; congruence. Qed.

Lemma mem_In (x : jsstring) (xs : list jsstring) : mem x xs = true <-> In x xs.
Proof.
  unfold mem. rewrite existsb_exists. split.
  - intros (y & Hy & E). apply jsstring_eqb_eq in E. now subst.
  - intros H. exists x. split; [assumption | apply jsstring_eqb_refl].
Qed.

Lemma mem_not_In (x : jsstring) (xs : list jsstring) :
  mem x xs = false <-> ~ In x xs.
Proof.
  rewrite <- mem_In. destruct (mem x xs); split; congruence.
Qed.

(** ** Model names *)

Lemma mapModelName_own (m id : jsstring) :
  own_property MODEL_MAP m = Some id -> truthy id = true ->
  mapModelName m = JsStr id.
Proof.
  intros Hown Ht. unfold mapModelName, get_property. rewrite Hown. simpl.
  now rewrite Ht.
Qed.

Lemma own_property_None (o : list (jsstring * jsstring)) (m : jsstring) :
  ~ In m (map fst o) -> own_property o m = None.
Proof.
  induction o as [|[k v] o IH]; simpl; intros H; [reflexivity|].
  destruct (jsstring_eqb_spec m k) as [->|Hne].
  - exfalso. apply H. now left.
  - apply IH. intros Hin. apply H. now right.
Qed.

(** C7, as the code has it: the seven aliases of [MODEL_MAP], and no other
    casing, map to their identifiers; a name that is neither an alias nor a
    property name of [Object.prototype] gets the default (haiku)
    identifier. *)
Theorem mapModelName_aliases_and_default (m : jsstring) :
  (In m [lit "haiku"; lit "Haiku"] -> mapModelName m = JsStr haiku_id) /\
  (In m [lit "sonnet"; lit "Sonnet"] -> mapModelName m = JsStr sonnet_id) /\
  (In m [lit "opus"; lit "Opus"; lit "Opus 4.5"] -> mapModelName m = JsStr opus_id) /\
  (~ In m (map fst MODEL_MAP) -> ~ In m Object_prototype_keys ->
   mapModelName m = JsStr haiku_id).
Proof.
  repeat split.
  - simpl. intros [<-|[<-|[]]]; reflexivity.
  - simpl. intros [<-|[<-|[]]]; reflexivity.
  - simpl. intros [<-|[<-|[<-|[]]]]; reflexivity.
  - intros Hown Hproto. unfold mapModelName, get_property.
    rewrite (own_property_None _ _ Hown).
    apply mem_not_In in Hproto. now rewrite Hproto.
Qed.

Lemma mapModelName_aliases_and_default_witness :
  mapModelName (lit "Sonnet") = JsStr sonnet_id /\
  mapModelName (lit "Opus 4.5") = JsStr opus_id /\
  mapModelName (lit "gpt-4") = JsStr haiku_id.
Proof.
  split; [|split].
  - apply (mapModelName_aliases_and_default (lit "Sonnet")). simpl. tauto.
  - apply (mapModelName_aliases_and_default (lit "Opus 4.5")). simpl. tauto.
  - apply (mapModelName_aliases_and_default (lit "gpt-4")).
    + apply mem_not_In. reflexivity.
    + apply mem_not_In. reflexivity.
Defined.

(** C7 as stated fails: the upper-case spelling of a family name is a
    casing of it and yet gets the default identifier, not the family's;
    and a name outside the aliases that [Object.prototype] defines does not
    get the default identifier. *)
Lemma mapModelName_not_case_insensitive :
  toLowerCase (lit "SONNET") = lit "sonnet" /\
  mapModelName (lit "sonnet") = JsStr sonnet_id /\
  mapModelName (lit "SONNET") <> JsStr sonnet_id /\
  ~ In (lit "constructor") (map fst MODEL_MAP) /\
  mapModelName (lit "constructor") <> JsStr haiku_id.
Proof.
  repeat split; try reflexivity; try discriminate.
  apply mem_not_In. reflexivity.
Qed.

(** ** Argument construction *)

Lemma Set_add_all_In (xs acc : list jsstring) (t : jsstring) :
  In t (Set_add_all acc xs) <-> In t acc \/ In t xs.
Proof.
  revert acc; induction xs as [|x xs IH]; intros acc; simpl.
  - tauto.
  - rewrite IH. destruct (mem x acc) eqn:E.
    + apply mem_In in E. split; [tauto|].
      intros [H|[<-|H]]; auto.
    + rewrite in_app_iff. simpl. tauto.
Qed.

Lemma Set_add_all_NoDup (xs acc : list jsstring) :
  NoDup acc -> NoDup (Set_add_all acc xs).
Proof.
  revert acc; induction xs as [|x xs IH]; intros acc Hacc; simpl.
  - assumption.
  - apply IH. destruct (mem x acc) eqn:E; [assumption|].
    apply mem_not_In in E.
    apply NoDup_app; [assumption | repeat constructor; intros [] |].
    intros y Hy [<-|[]]. contradiction.
Qed.

Lemma new_Set_In (xs : list jsstring) (t : jsstring) :
  In t (new_Set xs) <-> In t xs.
Proof. unfold new_Set. rewrite Set_add_all_In. simpl. tauto. Qed.

Lemma new_Set_NoDup (xs : list jsstring) : NoDup (new_Set xs).
Proof. apply Set_add_all_NoDup. constructor. Qed.



(** The arguments of a call that leaves every option to its default. *)
Example buildClaudeArgs_defaults :
  buildClaudeArgs (parseToolArguments (arguments_of (lit "x") None)) =
    map JsStr
      [ lit "--model"; lit "claude-haiku-4-5-20251001";
        lit "--dangerously-skip-permissions"; lit "-p";
        lit "--output-format"; lit "json";
        lit "--disallowedTools"; lit "Bash(npm run build:*)";
        lit "--disallowedTools"; lit "Bash(npm run dev:*)";
        lit "--disallowedTools"; lit "Bash(npm test:*)";
        lit "--disallowedTools"; lit "Bash(npm run test:run:*)";
        lit "--disallowedTools"; lit "Bash(npm run lint:*)";
        lit "--disallowedTools"; lit "Bash(npx tsc -b:*)";
        lit "--disallowedTools"; lit "Bash(npx eslint .:*)" ].
Proof. reflexivity. Qed.

(** ** The subprocess runner *)

Lemma fold_on_event (evs : list ProcEvent) (st : ProcState) :
  fold_left on_event evs st =
    mkProc (chunks st ++ chunks_of evs) (errorChunks st ++ errorChunks_of evs)
      (killed st || existsb (fun ev => match ev with TimerFired => true | _ => false end) evs).
Proof.
  revert st; induction evs as [|ev evs IH]; intros [cs es k]; simpl.
  - now rewrite !app_nil_r, orb_false_r.
  - rewrite IH. destruct ev; simpl; rewrite <- ?app_assoc; simpl;
      rewrite ?orb_true_r, ?orb_false_r; reflexivity.
Qed.

Lemma timer_fired_iff (evs : list ProcEvent) :
  existsb (fun ev => match ev with TimerFired => true | _ => false end) evs = true
  <-> In TimerFired evs.
Proof.
  rewrite existsb_exists. split.
  - intros ([] & Hin & E); congruence.
  - intros H. exists TimerFired. now split.
Qed.

Lemma settle_close (run : ProcRun) (code : option Z) :
  ending run = OnClose code ->
  settle run =
    on_close (mkProc (chunks_of (events run)) (errorChunks_of (events run))
                (existsb (fun ev => match ev with TimerFired => true | _ => false end)
                   (events run))) code.
Proof.
  intros E. unfold settle. rewrite E, fold_on_event. reflexivity.
Qed.



(** ** Plain retry *)

Section RetryLoop.

Variables (prompt : jsstring) (args : list jsval) (timeoutMs maxR : Z).

Let spawn_effect : Effect := Spawn prompt args timeoutMs.

(** The outcome of the [i]-th process spawned from the world [w] on. *)
Let outc (w : World) (i : nat) : ClaudeExecutionResult :=
  settle (claude w (spawned w + i)%nat prompt args timeoutMs).

Lemma retry_loop_step (attempt : Z) (rest : list Z) (w : World) :
  let r := outc w 0 in
  let w1 := mkWorld (claude w) (S (spawned w)) (trace w ++ [spawn_effect]) in
  retry_loop prompt args timeoutMs maxR (attempt :: rest) w =
    if success r then (r, w1)
    else if is_timeout_code (exitCode r) then
      retry_loop prompt args timeoutMs maxR rest
        (if attempt <? maxR
         then mkWorld (claude w) (S (spawned w)) (trace w1 ++ [Sleep 5000])
         else w1)
    else if attempt <? maxR then
      retry_loop prompt args timeoutMs maxR rest
        (mkWorld (claude w) (S (spawned w)) (trace w1 ++ [Sleep 2000]))
    else (r, w1).
Proof.
  unfold outc. simpl. unfold bind, executeClaudeCli. rewrite Nat.add_0_r.
  destruct (success _); [reflexivity|].
  destruct (is_timeout_code _); destruct (attempt <? maxR); reflexivity.
Qed.

Lemma outc_shift (w w' : World) (i : nat) :
  claude w' = claude w -> spawned w' = S (spawned w) ->
  outc w' i = outc w (S i).
Proof.
  intros Hc Hs. unfold outc. rewrite Hc, Hs.
  now rewrite Nat.add_succ_r.
Qed.

(** The first success ends the loop at once, with that outcome, its spawn
    being the last effect. *)
Lemma retry_loop_first_success (n : nat) : forall (a i : nat) (w : World),
  Z.of_nat (a + n) <= maxR + 1 ->
  (i < n)%nat ->
  success (outc w i) = true ->
  (forall j, (j < i)%nat -> success (outc w j) = false) ->
  let res := retry_loop prompt args timeoutMs maxR (map Z.of_nat (seq a n)) w in
  fst res = outc w i /\
  claude (snd res) = claude w /\
  spawned (snd res) = (spawned w + S i)%nat /\
  exists tr, trace (snd res) = trace w ++ tr ++ [spawn_effect].
Proof.
  induction n as [|n IH]; intros a i w Hmax Hi Hok Hfail; [lia|].
  cbn zeta. cbn [seq map]. rewrite retry_loop_step. cbn zeta.
  destruct i as [|i].
  - rewrite Hok. simpl. repeat split; try lia.
    exists []. reflexivity.
  - rewrite (Hfail 0%nat) by lia.
    assert (Hgo : forall w2, claude w2 = claude w -> spawned w2 = S (spawned w) ->
              (exists tr, trace w2 = trace w ++ tr) ->
              let res := retry_loop prompt args timeoutMs maxR
                           (map Z.of_nat (seq (S a) n)) w2 in
              fst res = outc w (S i) /\ claude (snd res) = claude w /\
              spawned (snd res) = (spawned w + S (S i))%nat /\
              exists tr, trace (snd res) = trace w ++ tr ++ [spawn_effect]).
    { intros w2 Hc Hs (tr0 & Ht). cbn zeta.
      destruct (IH (S a) i w2) as (E1 & E2 & E3 & tr & E4).
      - lia.
      - lia.
      - rewrite (outc_shift w w2) by assumption. exact Hok.
      - intros j Hj. rewrite (outc_shift w w2) by assumption. apply Hfail. lia.
      - rewrite (outc_shift w w2) in E1 by assumption.
        repeat split; try congruence.
        + rewrite E3, Hs. lia.
        + exists (tr0 ++ tr). rewrite E4, Ht. now rewrite <- !app_assoc. }
    assert (Hlt : (Z.of_nat a <? maxR) = true) by (apply Z.ltb_lt; lia).
    rewrite Hlt.
    destruct (is_timeout_code _); apply Hgo; simpl; try reflexivity;
      eexists; rewrite <- ?app_assoc; reflexivity.
Qed.

(** When every attempt fails, the loop ends with the last attempt: its
    outcome when that was not a timeout, the synthesized one otherwise (and
    when there was no attempt at all). *)
Lemma retry_loop_all_fail (n : nat) : forall (a : nat) (w : World),
  Z.of_nat (a + n) = maxR + 1 ->
  (forall i, (i < n)%nat -> success (outc w i) = false) ->
  let res := retry_loop prompt args timeoutMs maxR (map Z.of_nat (seq a n)) w in
  fst res =
    match n with
    | O => max_retries_result maxR
    | S m => if is_timeout_code (exitCode (outc w m)) then max_retries_result maxR
             else outc w m
    end.
Proof.
  induction n as [|n IH]; intros a w Hmax Hfail; [reflexivity|].
  cbn zeta. cbn [seq map]. rewrite retry_loop_step. cbn zeta.
  rewrite (Hfail 0%nat) by lia.
  assert (Hgo : forall w2, claude w2 = claude w -> spawned w2 = S (spawned w) ->
            (n > 0)%nat ->
            fst (retry_loop prompt args timeoutMs maxR (map Z.of_nat (seq (S a) n)) w2) =
            if is_timeout_code (exitCode (outc w n)) then max_retries_result maxR
            else outc w n).
  { intros w2 Hc Hs Hn. rewrite (IH (S a) w2).
    - destruct n as [|m]; [lia|]. now rewrite (outc_shift w w2).
    - lia.
    - intros i Hi. rewrite (outc_shift w w2) by assumption. apply Hfail. lia. }
  destruct n as [|m].
  - (* the last attempt *)
    assert (Hlt : (Z.of_nat a <? maxR) = false) by (apply Z.ltb_ge; lia).
    rewrite Hlt. destruct (is_timeout_code _); reflexivity.
  - assert (Hlt : (Z.of_nat a <? maxR) = true) by (apply Z.ltb_lt; lia).
    rewrite Hlt.
    destruct (is_timeout_code (exitCode (outc w 0))); apply Hgo;
      simpl; try reflexivity; lia.
Qed.

End RetryLoop.

Lemma attempts_of_seq (maxR : Z) :
  attempts_of maxR = map Z.of_nat (seq 1 (Z.to_nat maxR)).
Proof. reflexivity. Qed.

(** The loop variable ranges over the integers from 1 to [maxRetries]. *)
Lemma attempts_of_In (maxR attempt : Z) :
  In attempt (attempts_of maxR) <-> 1 <= attempt <= maxR.
Proof.
  unfold attempts_of. rewrite in_map_iff. split.
  - intros (k & <- & Hk). apply in_seq in Hk. lia.
  - intros H. exists (Z.to_nat attempt). split; [lia|]. apply in_seq. lia.
Qed.

Lemma is_timeout_code_false (code : Z) :
  is_timeout_code code = false <-> code <> 124 /\ code <> 137.
Proof.
  unfold is_timeout_code. rewrite orb_false_iff, !Z.eqb_neq. tauto.
Qed.

Lemma is_timeout_code_true (code : Z) :
  is_timeout_code code = true <-> code = 124 \/ code = 137.
Proof.
  unfold is_timeout_code. rewrite orb_true_iff, !Z.eqb_eq. tauto.
Qed.

(** C1: with [maxRetries = N >= 1], the first successful attempt's outcome
    is returned at once (that attempt's spawn is the last effect of the
    call); when all [N] attempts fail, the last attempt's outcome is
    returned if its exit code is neither 124 nor 137, and the synthesized
    outcome otherwise. *)
Theorem runWithRetry_outcome (prompt : jsstring) (options : ClaudeCliOptions)
    (w : World) :
  1 <= maxRetries options ->
  let N := Z.to_nat (maxRetries options) in
  let outcome := attempt_outcome w prompt options in
  let res := runWithRetry prompt options w in
  (forall k, (1 <= k <= N)%nat ->
     success (outcome k) = true ->
     (forall j, (1 <= j < k)%nat -> success (outcome j) = false) ->
     fst res = outcome k /\
     spawned (snd res) = (spawned w + k)%nat /\
     exists tr, trace (snd res) =
                trace w ++ tr ++ [Spawn prompt (buildClaudeArgs options)
                                    (timeout options * 1000)]) /\
  ((forall k, (1 <= k <= N)%nat -> success (outcome k) = false) ->
   exitCode (outcome N) <> 124 -> exitCode (outcome N) <> 137 ->
   fst res = outcome N) /\
  ((forall k, (1 <= k <= N)%nat -> success (outcome k) = false) ->
   exitCode (outcome N) = 124 \/ exitCode (outcome N) = 137 ->
   fst res =
     mkResult false
       (lit "Max retries reached after " ++ Number_toString (maxRetries options)
        ++ lit " attempts") 1).
Proof.
  intros HN N outcome res. subst res. unfold runWithRetry.
  rewrite attempts_of_seq. fold N.
  assert (Hmax : Z.of_nat (1 + N) = maxRetries options + 1) by lia.
  split; [|split].
  - intros k Hk Hok Hfail.
    destruct (retry_loop_first_success prompt (buildClaudeArgs options)
                (timeout options * 1000) (maxRetries options) N 1 (k - 1) w)
      as (E1 & _ & E3 & E4).
    + lia.
    + lia.
    + exact Hok.
    + intros j Hj. specialize (Hfail (S j)).
      unfold outcome, attempt_outcome in Hfail.
      replace (S j - 1)%nat with j in Hfail by lia. apply Hfail. lia.
    + split; [exact E1|]. split; [|exact E4]. rewrite E3. lia.
  - intros Hfail H124 H137.
    rewrite (retry_loop_all_fail prompt (buildClaudeArgs options)
               (timeout options * 1000) (maxRetries options) N 1 w Hmax).
    + destruct N as [|m] eqn:EN; [lia|].
      assert (Hc : is_timeout_code (exitCode (outcome (S m))) = false)
        by (apply is_timeout_code_false; split; assumption).
      unfold outcome, attempt_outcome in Hc.
      replace (S m - 1)%nat with m in Hc by lia. rewrite Hc.
      unfold outcome, attempt_outcome. now replace (S m - 1)%nat with m by lia.
    + intros i Hi. specialize (Hfail (S i)).
      unfold outcome, attempt_outcome in Hfail.
      replace (S i - 1)%nat with i in Hfail by lia. apply Hfail. lia.
  - intros Hfail Hcode.
    rewrite (retry_loop_all_fail prompt (buildClaudeArgs options)
               (timeout options * 1000) (maxRetries options) N 1 w Hmax).
    + destruct N as [|m] eqn:EN; [lia|].
      apply is_timeout_code_true in Hcode.
      unfold outcome, attempt_outcome in Hcode.
      replace (S m - 1)%nat with m in Hcode by lia. now rewrite Hcode.
    + intros i Hi. specialize (Hfail (S i)).
      unfold outcome, attempt_outcome in Hfail.
      replace (S i - 1)%nat with i in Hfail by lia. apply Hfail. lia.
Qed.

Lemma runWithRetry_outcome_witness :
  fst (runWithRetry (lit "x") (parseToolArguments (arguments_of (lit "x") None))
         (fresh_world (scripted [run_timed_out; run_exit 0 (lit "ok") []]
                         run_not_started)))
  = mkResult true (lit "ok") 0.
Proof.
  pose proof (runWithRetry_outcome (lit "x")
                (parseToolArguments (arguments_of (lit "x") None))
                (fresh_world (scripted [run_timed_out; run_exit 0 (lit "ok") []]
                                run_not_started))) as H.
  cbv zeta in H. destruct H as (H & _); [simpl; lia|].
  destruct (H 2%nat) as (E & _).
  - simpl. lia.
  - reflexivity.
  - intros j Hj. assert (j = 1%nat) as -> by lia. reflexivity.
  - exact E.
Defined.



(** ** JSON-validating retry *)

(** The inner call of an attempt, with [maxRetries] forced to 1: one spawn
    and no wait, whatever the outcome. *)
Lemma runWithRetry_single (prompt : jsstring) (options : ClaudeCliOptions)
    (w : World) :
  let args := buildClaudeArgs (with_json_single options) in
  let timeoutMs := timeout options * 1000 in
  let r := settle (claude w (spawned w) prompt args timeoutMs) in
  runWithRetry prompt (with_json_single options) w =
    (if success r then r
     else if is_timeout_code (exitCode r) then max_retries_result 1 else r,
     mkWorld (claude w) (S (spawned w)) (trace w ++ [Spawn prompt args timeoutMs])).
Proof.
  cbn zeta. unfold runWithRetry, attempts_of. cbn [with_json_single maxRetries timeout].
  change (map Z.of_nat (seq 1 (Z.to_nat 1))) with [1].
  cbn [retry_loop]. unfold bind, executeClaudeCli.
  destruct (success _); [reflexivity|].
  destruct (is_timeout_code _); reflexivity.
Qed.

(** When the inner call of attempt [attempt] fails, the message tagged with
    the attempt is recorded and the loop goes on to the next attempt in a
    world that differs by the inner spawn only: no wait is made. *)
Lemma json_retry_loop_inner_failure (prompt : jsstring) (options : ClaudeCliOptions)
    (attempt : Z) (rest : list Z) (errors : list jsstring) (w : World) :
  let inner := runWithRetry prompt (with_json_single options) w in
  success (fst inner) = false ->
  json_retry_loop prompt options (attempt :: rest) errors w =
    json_retry_loop prompt options rest
      (errors ++ [lit "[" ++ Number_toString attempt ++ lit "] AI execution failed: "
                  ++ output (fst inner)])
      (mkWorld (claude w) (S (spawned w))
         (trace w ++ [Spawn prompt (buildClaudeArgs (with_json_single options))
                        (timeout options * 1000)])).
Proof.
  cbn zeta. intros Hfail. cbn [json_retry_loop]. unfold bind at 1.
  destruct (runWithRetry prompt (with_json_single options) w) as [r w1] eqn:E.
  rewrite runWithRetry_single in E. cbn zeta in E.
  injection E as Er Ew. simpl in Hfail. rewrite Hfail. simpl.
  rewrite <- Ew. reflexivity.
Qed.

(** C2 at a failing input: [maxRetries = 2], both processes exit with code
    2 after writing [boom] on stderr.  Both failures are recorded with their
    attempt numbers, and the second attempt is spawned right after the
    first: the trace holds no [Sleep 2000] between the two spawns. *)
Theorem runJsonWithRetry_retries_without_wait :
  let options := parseToolArguments (arguments_of (lit "x") (Some 2)) in
  let inner_args := buildClaudeArgs (with_json_single options) in
  let res := runJsonWithRetry (lit "x") options
               (fresh_world (scripted [] (run_exit 2 [] (lit "boom")))) in
  trace (snd res) =
    [ Spawn (lit "x") inner_args 660000; Spawn (lit "x") inner_args 660000 ] /\
  fst res =
    mkResult false
      (litq "{'error':'Max retries reached','attempts':2,'errors':'[1] AI execution failed: boom\n[2] AI execution failed: boom'}")
      1.
Proof. split; reflexivity. Qed.

(** The sibling path: a successful inner call whose output holds no JSON
    object is followed by the 2000 ms wait before the next attempt. *)
Example runJsonWithRetry_waits_after_parse_failure :
  let options := parseToolArguments (arguments_of (lit "x") (Some 2)) in
  let inner_args := buildClaudeArgs (with_json_single options) in
  trace (snd (runJsonWithRetry (lit "x") options
                (fresh_world (scripted [] (run_exit 0 (lit "no json") []))))) =
    [ Spawn (lit "x") inner_args 660000; Sleep 2000;
      Spawn (lit "x") inner_args 660000 ].
Proof. reflexivity. Qed.

(** ** The dispatcher *)

Lemma VALID_TOOL_NAMES_eq :
  VALID_TOOL_NAMES =
    [ lit "claude_generate"; lit "claude_edit"; lit "claude_refactor";
      lit "claude_generate_json"; lit "claude_edit_json" ].
Proof. reflexivity. Qed.



(** A known tool does reach the retry controller: the same request with a
    catalogue name spawns the CLI and answers with its result text. *)
Example handleToolCall_known_tool :
  trace (snd (handleToolCall (IdNumber 7)
                (mkParams (lit "claude_generate") (arguments_of (lit "x") None))
                (fresh_world (scripted [] (run_exit 0 (litq "{'result':'ok'}") [])))))
  = [ Spawn (lit "x") (buildClaudeArgs (parseToolArguments (arguments_of (lit "x") None)))
        660000;
      Output (litq "{'jsonrpc':'2.0','id':7,'result':{'content':[{'type':'text','text':'ok'}]}}") ].
Proof. reflexivity. Qed.

(** ** Extraction of the JSON candidate *)

Lemma indexOf_absent (s : jsstring) (c : code_unit) :
  ~ In c s -> indexOf s c = -1.
Proof.
  induction s as [|x s IH]; simpl; intros H; [reflexivity|].
  destruct (N.eqb_spec x c) as [->|Hne]; [exfalso; auto|].
  rewrite IH by auto. reflexivity.
Qed.

Lemma indexOf_first (pre rest : jsstring) (c : code_unit) :
  ~ In c pre -> indexOf (pre ++ c :: rest) c = Z.of_nat (length pre).
Proof.
  induction pre as [|x pre IH]; intros H.
  - simpl. now rewrite N.eqb_refl.
  - cbn [app indexOf length]. destruct (N.eqb_spec x c) as [->|Hne].
    + exfalso. apply H. now left.
    + rewrite IH by (intros Hin; apply H; now right).
      destruct (Z.eqb_spec (Z.of_nat (length pre)) (-1)); lia.
Qed.

Lemma lastIndexOf_absent (s : jsstring) (c : code_unit) :
  ~ In c s -> lastIndexOf s c = -1.
Proof.
  induction s as [|x s IH]; simpl; intros H; [reflexivity|].
  rewrite IH by auto. simpl.
  destruct (N.eqb_spec x c) as [->|Hne]; [exfalso; auto|reflexivity].
Qed.

Lemma lastIndexOf_last (pre post : jsstring) (c : code_unit) :
  ~ In c post -> lastIndexOf (pre ++ c :: post) c = Z.of_nat (length pre).
Proof.
  intros H. induction pre as [|x pre IH].
  - simpl. rewrite lastIndexOf_absent by assumption. simpl. now rewrite N.eqb_refl.
  - cbn [app lastIndexOf length]. rewrite IH.
    destruct (Z.eqb_spec (Z.of_nat (length pre)) (-1)); lia.
Qed.

Lemma substring_middle (pre mid post : jsstring) :
  substring (pre ++ mid ++ post) (Z.of_nat (length pre))
    (Z.of_nat (length pre) + Z.of_nat (length mid)) = mid.
Proof.
  unfold substring. rewrite Nat2Z.id.
  replace (Z.to_nat (Z.of_nat (length pre) + Z.of_nat (length mid) - Z.of_nat (length pre)))
    with (length mid) by lia.
  rewrite skipn_app, skipn_all, Nat.sub_diag. simpl.
  rewrite firstn_app, firstn_all, Nat.sub_diag. simpl. apply app_nil_r.
Qed.

(** The candidate of a text that has a [{] before its last [}]. *)
Lemma extractJsonContent_candidate (pre mid post : jsstring) :
  ~ In (ch "{") pre -> ~ In (ch "}") post ->
  let candidate := ch "{" :: mid ++ [ch "}"] in
  extractJsonContent (pre ++ candidate ++ post) =
    match JSON_parse candidate with
    | Some _ => Some candidate
    | None => None
    end.
Proof.
  intros Hpre Hpost candidate. unfold extractJsonContent.
  assert (E1 : indexOf (pre ++ candidate ++ post) (ch "{") = Z.of_nat (length pre)).
  { unfold candidate. cbn [app]. now apply indexOf_first. }
  assert (E2 : lastIndexOf (pre ++ candidate ++ post) (ch "}")
               = Z.of_nat (length pre) + Z.of_nat (length mid) + 1).
  { unfold candidate.
    replace (pre ++ (ch "{" :: mid ++ [ch "}"]) ++ post)
      with ((pre ++ ch "{" :: mid) ++ ch "}" :: post)
      by (rewrite <- !app_assoc; cbn [app]; now rewrite <- app_assoc).
    rewrite lastIndexOf_last by assumption.
    rewrite length_app. cbn [length]. lia. }
  rewrite E1, E2.
  replace (Z.of_nat (length pre) =? -1) with false by (symmetry; apply Z.eqb_neq; lia).
  replace (Z.of_nat (length pre) + Z.of_nat (length mid) + 1 =? -1) with false
    by (symmetry; apply Z.eqb_neq; lia).
  replace (Z.of_nat (length pre) >=? Z.of_nat (length pre) + Z.of_nat (length mid) + 1)
    with false by (symmetry; rewrite Z.geb_leb; apply Z.leb_gt; lia).
  cbn [orb].
  replace (Z.of_nat (length pre) + Z.of_nat (length mid) + 1 + 1)
    with (Z.of_nat (length pre) + Z.of_nat (length candidate))
    by (unfold candidate; cbn [length]; rewrite length_app; cbn [length]; lia).
  rewrite substring_middle. reflexivity.
Qed.

Lemma extractJsonContent_no_open (text : jsstring) :
  ~ In (ch "{") text -> extractJsonContent text = None.
Proof.
  intros H. unfold extractJsonContent. now rewrite indexOf_absent.
Qed.

Lemma extractJsonContent_no_close (text : jsstring) :
  ~ In (ch "}") text -> extractJsonContent text = None.
Proof.
  intros H. unfold extractJsonContent. rewrite (lastIndexOf_absent _ _ H).
  cbn [Z.eqb]. now rewrite orb_true_r.
Qed.

(** The first [{] comes after the last [}]. *)
Lemma extractJsonContent_close_before_open (a b c : jsstring) :
  ~ In (ch "{") a -> ~ In (ch "{") b -> ~ In (ch "}") b -> ~ In (ch "}") c ->
  extractJsonContent (a ++ ch "}" :: b ++ ch "{" :: c) = None.
Proof.
  intros Ha Hb Hb' Hc. unfold extractJsonContent.
  assert (E1 : indexOf (a ++ ch "}" :: b ++ ch "{" :: c) (ch "{")
               = Z.of_nat (length a) + 1 + Z.of_nat (length b)).
  { replace (a ++ ch "}" :: b ++ ch "{" :: c)
      with ((a ++ ch "}" :: b) ++ ch "{" :: c)
      by (rewrite <- app_assoc; reflexivity).
    rewrite indexOf_first.
    - rewrite length_app. cbn [length]. lia.
    - rewrite in_app_iff. cbn [In]. intros [H|[H|H]]; auto. discriminate H. }
  assert (E2 : lastIndexOf (a ++ ch "}" :: b ++ ch "{" :: c) (ch "}")
               = Z.of_nat (length a)).
  { apply lastIndexOf_last. rewrite in_app_iff. cbn [In].
    intros [H|[H|H]]; auto. discriminate H. }
  rewrite E1, E2.
  replace (Z.of_nat (length a) + 1 + Z.of_nat (length b) >=? Z.of_nat (length a))
    with true by (symmetry; rewrite Z.geb_leb; apply Z.leb_le; lia).
  now rewrite orb_true_r.
Qed.

Lemma first_split (c : code_unit) (s : jsstring) :
  In c s -> exists pre rest, s = pre ++ c :: rest /\ ~ In c pre.
Proof.
  induction s as [|x s IH]; intros H; [destruct H|].
  destruct (N.eq_dec x c) as [->|Hne].
  - exists [], s. split; [reflexivity | intros []].
  - destruct IH as (pre & rest & -> & Hpre); [destruct H; [contradiction|assumption]|].
    exists (x :: pre), rest. split; [reflexivity|].
    intros [E|Hin]; auto.
Qed.

Lemma last_split (c : code_unit) (s : jsstring) :
  In c s -> exists pre post, s = pre ++ c :: post /\ ~ In c post.
Proof.
  induction s as [|x s IH]; intros H; [destruct H|].
  destruct (in_dec N.eq_dec c s) as [Hin|Hnot].
  - destruct (IH Hin) as (pre & post & -> & Hpost).
    exists (x :: pre), post. split; [reflexivity | assumption].
  - destruct H as [->|H]; [|contradiction].
    exists [], s. split; [reflexivity | assumption].
Qed.

(** Two marked positions of one list, at different characters: one is
    before the other. *)
Lemma two_splits (x y : code_unit) : forall p r q t : jsstring,
  x <> y -> p ++ x :: r = q ++ y :: t ->
  (exists mid, q = p ++ x :: mid /\ r = mid ++ y :: t) \/
  (exists mid, p = q ++ y :: mid /\ t = mid ++ x :: r).
Proof.
  induction p as [|u p IH]; intros r q t Hxy E.
  - destruct q as [|v q]; simpl in E.
    + congruence.
    + injection E as -> ->. left. exists q. split; reflexivity.
  - destruct q as [|v q]; simpl in E.
    + injection E as -> <-. right. exists p. split; reflexivity.
    + injection E as -> E. destruct (IH r q t Hxy E) as [(mid & -> & ->)|(mid & -> & ->)].
      * left. exists mid. split; reflexivity.
      * right. exists mid. split; reflexivity.
Qed.

(** C5: the result is the substring from the first [{] to the last [}]
    exactly when there is such a substring and it parses as JSON, and
    [null] in every other case; with the instances the claim lists. *)
Theorem extractJsonContent_spec :
  (forall text candidate,
     extractJsonContent text = Some candidate <->
     exists pre mid post,
       text = pre ++ candidate ++ post /\ candidate = ch "{" :: mid ++ [ch "}"] /\
       ~ In (ch "{") pre /\ ~ In (ch "}") post /\
       exists v, JSON_parse candidate = Some v) /\
  (forall text, ~ In (ch "{") text -> extractJsonContent text = None) /\
  (forall text, ~ In (ch "}") text -> extractJsonContent text = None) /\
  (forall a b c,
     ~ In (ch "{") a -> ~ In (ch "{") b -> ~ In (ch "}") b -> ~ In (ch "}") c ->
     extractJsonContent (a ++ ch "}" :: b ++ ch "{" :: c) = None) /\
  (forall pre mid post,
     ~ In (ch "{") pre -> ~ In (ch "}") post ->
     JSON_parse (ch "{" :: mid ++ [ch "}"]) = None ->
     extractJsonContent (pre ++ (ch "{" :: mid ++ [ch "}"]) ++ post) = None) /\
  extractJsonContent (litq "prefix {'a':1} suffix") = Some (litq "{'a':1}") /\
  extractJsonContent (litq "{'a':{'b':1}") = None.
Proof.
  split; [|split; [|split; [|split; [|split; [|split]]]]].
  - intros text candidate. split.
    + intros E.
      destruct (in_dec N.eq_dec (ch "{") text) as [Ho|Ho];
        [|rewrite extractJsonContent_no_open in E by assumption; discriminate].
      destruct (in_dec N.eq_dec (ch "}") text) as [Hc|Hc];
        [|rewrite extractJsonContent_no_close in E by assumption; discriminate].
      destruct (first_split _ _ Ho) as (p & r & Ep & Hp).
      destruct (last_split _ _ Hc) as (q & t & Eq & Ht).
      assert (Hne : ch "{" <> ch "}") by discriminate.
      assert (E2 : p ++ ch "{" :: r = q ++ ch "}" :: t) by congruence.
      destruct (two_splits _ _ p r q t Hne E2) as [(mid & -> & ->)|(mid & -> & ->)].
      * assert (Et : text = p ++ (ch "{" :: mid ++ [ch "}"]) ++ t).
        { rewrite Ep. cbn [app]. now rewrite <- app_assoc. }
        rewrite Et, extractJsonContent_candidate in E by assumption.
        destruct (JSON_parse (ch "{" :: mid ++ [ch "}"])) as [v|] eqn:Ev;
          [|discriminate].
        injection E as <-. exists p, mid, t. repeat split; try assumption.
        exists v. exact Ev.
      * exfalso. rewrite Eq in E.
        rewrite extractJsonContent_close_before_open in E; try discriminate.
        -- intros H. apply Hp. apply in_or_app. now left.
        -- intros H. apply Hp. apply in_or_app. right. now right.
        -- intros H. apply Ht. apply in_or_app. now left.
        -- intros H. apply Ht. apply in_or_app. right. now right.
    + intros (pre & mid & post & -> & -> & Hpre & Hpost & v & Ev).
      rewrite extractJsonContent_candidate by assumption. now rewrite Ev.
  - exact extractJsonContent_no_open.
  - exact extractJsonContent_no_close.
  - exact extractJsonContent_close_before_open.
  - intros pre mid post Hpre Hpost Ev.
    rewrite extractJsonContent_candidate by assumption. now rewrite Ev.
  - reflexivity.
  - reflexivity.
Qed.

(** ** Extraction of the result field *)

(** C6, as the code has it: the [result] member is returned when the input
    parses to an object whose [result] is a non-empty string; in every
    other case (the input does not parse, it parses to something that is not
    an object, the object has no string [result], or that string is empty)
    the input comes back unchanged.  The function is total: the TypeError
    of reading a property of [null] is caught like the SyntaxError. *)
Theorem extractResultText_spec (jsonOutput : jsstring) :
  (forall members result,
     JSON_parse jsonOutput = Some (JObject members) ->
     last_member (lit "result") members = Some (JString result) ->
     result <> [] ->
     extractResultText jsonOutput = result) /\
  (JSON_parse jsonOutput = None -> extractResultText jsonOutput = jsonOutput) /\
  (forall v,
     JSON_parse jsonOutput = Some v -> (forall members, v <> JObject members) ->
     extractResultText jsonOutput = jsonOutput) /\
  (forall members,
     JSON_parse jsonOutput = Some (JObject members) ->
     (forall result, last_member (lit "result") members <> Some (JString result)) ->
     extractResultText jsonOutput = jsonOutput) /\
  (forall members,
     JSON_parse jsonOutput = Some (JObject members) ->
     last_member (lit "result") members = Some (JString []) ->
     extractResultText jsonOutput = jsonOutput).
Proof.
  unfold extractResultText. repeat split.
  - intros members result -> Hm Hne. cbn [read_result]. rewrite Hm.
    destruct result; [congruence | reflexivity].
  - intros ->. reflexivity.
  - intros v -> Hv. destruct v; try reflexivity. exfalso. now apply (Hv members).
  - intros members -> Hm. cbn [read_result].
    destruct (last_member (lit "result") members) as [[]|]; try reflexivity.
    exfalso. now apply (Hm s).
  - intros members -> Hm. cbn [read_result]. rewrite Hm. reflexivity.
Qed.

Lemma extractResultText_spec_witness :
  extractResultText (litq "{'result':'hello'}") = lit "hello" /\
  extractResultText (lit "not json") = lit "not json" /\
  extractResultText (lit "null") = lit "null" /\
  extractResultText (litq "{'result':42}") = litq "{'result':42}".
Proof.
  split; [|split; [|split]].
  - apply (proj1 (extractResultText_spec (litq "{'result':'hello'}"))
             [(lit "result", JString (lit "hello"))]);
      [reflexivity | reflexivity | discriminate].
  - apply (proj1 (proj2 (extractResultText_spec (lit "not json")))). reflexivity.
  - apply (proj1 (proj2 (proj2 (extractResultText_spec (lit "null")))) JNull);
      [reflexivity | discriminate].
  - apply (proj1 (proj2 (proj2 (proj2 (extractResultText_spec (litq "{'result':42}")))))
             [(lit "result", JNumber (lit "42"))]);
      [reflexivity | discriminate].
Defined.

(** C6 as stated fails on an empty [result]: the input parses as an object
    whose [result] is the string of length 0, and the function returns the
    input text, not that string. *)
Lemma extractResultText_empty_result :
  JSON_parse (litq "{'result':''}") = Some (JObject [(lit "result", JString [])]) /\
  extractResultText (litq "{'result':''}") = litq "{'result':''}" /\
  litq "{'result':''}" <> [].
Proof. repeat split. discriminate. Qed.

(** ** The fuel of the JSON parser is enough *)

Lemma skip_ws_length (s : jsstring) : (length (skip_ws s) <= length s)%nat.
Proof.
  induction s as [|c s IH]; simpl; [lia|].
  destruct (is_ws c); simpl; lia.
Qed.

Lemma lex_string_length (n : nat) : forall s v r,
  (length s <= n)%nat -> lex_string s = Some (v, r) -> (length r < length s)%nat.
Proof.
  induction n as [|n IH]; intros s v r Hn E.
  - destruct s; [discriminate E | simpl in Hn; lia].
  - destruct s as [|c rest]; [discriminate E|]. simpl in Hn. cbn [lex_string] in E.
    destruct (c =? dquote)%N.
    { injection E as _ <-. simpl. lia. }
    destruct (c =? ch "\")%N.
    + destruct rest as [|e rest1]; [discriminate E|].
      destruct (e =? ch "u")%N.
      * destruct rest1 as [|h1 [|h2 [|h3 [|h4 rest2]]]]; try discriminate E.
        destruct (hex4 h1 h2 h3 h4); [|discriminate E].
        destruct (lex_string rest2) as [[v' r']|] eqn:E'; [|discriminate E].
        injection E as _ <-. apply IH in E'; simpl in *; lia.
      * destruct (simple_escape e); [|discriminate E].
        destruct (lex_string rest1) as [[v' r']|] eqn:E'; [|discriminate E].
        injection E as _ <-. apply IH in E'; simpl in *; lia.
    + destruct (c <? 32)%N; [discriminate E|].
      destruct (lex_string rest) as [[v' r']|] eqn:E'; [|discriminate E].
      injection E as _ <-. apply IH in E'; simpl in *; lia.
Qed.

Lemma span_digits_length (s : jsstring) :
  (length (snd (span_digits s)) <= length s)%nat.
Proof.
  induction s as [|c s IH]; simpl; [lia|].
  destruct (is_digit c); [|simpl; lia].
  destruct (span_digits s). simpl in *. lia.
Qed.

Lemma lex_int_length (s l r : jsstring) :
  lex_int s = Some (l, r) -> (length r < length s)%nat.
Proof.
  destruct s as [|c rest]; [discriminate|]. cbn [lex_int].
  destruct (c =? ch "0")%N.
  - intros E. injection E as _ <-. simpl. lia.
  - destruct (is_digit c); [|discriminate].
    pose proof (span_digits_length rest) as H.
    destruct (span_digits rest). intros E. injection E as _ <-. simpl in *. lia.
Qed.

Lemma lex_frac_length (s l r : jsstring) :
  lex_frac s = Some (l, r) -> (length r <= length s)%nat.
Proof.
  destruct s as [|c rest]; cbn [lex_frac].
  - intros E. injection E as _ <-. simpl. lia.
  - destruct (c =? ch ".")%N.
    + pose proof (span_digits_length rest) as H.
      destruct (span_digits rest) as [[|d ds] r']; [discriminate|].
      intros E. injection E as _ <-. simpl in *. lia.
    + intros E. injection E as _ <-. simpl. lia.
Qed.

Lemma lex_exp_length (s l r : jsstring) :
  lex_exp s = Some (l, r) -> (length r <= length s)%nat.
Proof.
  destruct s as [|c rest]; cbn [lex_exp].
  - intros E. injection E as _ <-. simpl. lia.
  - destruct ((c =? ch "e") || (c =? ch "E"))%N.
    + assert (Hs : (length (snd (lex_exp_sign rest)) <= length rest)%nat).
      { destruct rest as [|d r0]; cbn [lex_exp_sign]; [simpl; lia|].
        destruct ((d =? ch "+") || (d =? ch "-"))%N; simpl; lia. }
      destruct (lex_exp_sign rest) as [sg rest1]. simpl in Hs.
      pose proof (span_digits_length rest1) as H.
      destruct (span_digits rest1) as [[|d ds] r']; [discriminate|].
      intros E. injection E as _ <-. simpl in *. lia.
    + intros E. injection E as _ <-. simpl. lia.
Qed.

Lemma lex_number_length (s l r : jsstring) :
  lex_number s = Some (l, r) -> (length r < length s)%nat.
Proof.
  unfold lex_number.
  assert (Hs : (length (snd (lex_sign s)) <= length s)%nat).
  { destruct s as [|c s0]; cbn [lex_sign]; [simpl; lia|].
    destruct (c =? ch "-")%N; simpl; lia. }
  destruct (lex_sign s) as [sg s1]. simpl in Hs.
  destruct (lex_int s1) as [[i s2]|] eqn:Ei; [|discriminate].
  destruct (lex_frac s2) as [[f s3]|] eqn:Ef; [|discriminate].
  destruct (lex_exp s3) as [[e s4]|] eqn:Ee; [|discriminate].
  intros E. injection E as _ <-.
  apply lex_int_length in Ei. apply lex_frac_length in Ef.
  apply lex_exp_length in Ee. lia.
Qed.

Lemma strip_prefix_length (p : jsstring) : forall s r,
  strip_prefix p s = Some r -> length s = (length p + length r)%nat.
Proof.
  induction p as [|a p IH]; intros s r; simpl.
  - intros E. now injection E as ->.
  - destruct s as [|b s]; [discriminate|].
    destruct (a =? b)%N; [|discriminate].
    intros E. apply IH in E. simpl. lia.
Qed.

Lemma settled_on_longer (s s' : jsstring) (r : parse_result JsonValue) :
  settled_on s' r -> (length s' <= length s)%nat -> settled_on s r.
Proof. destruct r; simpl; auto. lia. Qed.

Lemma parse_fuel_enough (fuel : nat) :
  (forall s, (2 * length s + 1 <= fuel)%nat -> settled_on s (parse_value fuel s)) /\
  (forall s acc, (2 * length s + 2 <= fuel)%nat ->
     settled_on s (parse_elements fuel s acc)) /\
  (forall s acc, (2 * length s + 2 <= fuel)%nat ->
     settled_on s (parse_members fuel s acc)).
Proof.
  induction fuel as [|fuel (IHv & IHe & IHm)].
  { repeat split; intros; lia. }
  split; [|split].
  - intros s Hf. cbn [parse_value].
    destruct s as [|c rest]; [exact I|]. cbn [length] in Hf.
    destruct (c =? ch "{")%N.
    { pose proof (skip_ws_length rest) as Hw.
      destruct (skip_ws rest) as [|d rest1]; [exact I|]. cbn [length] in Hw.
      destruct (d =? ch "}")%N; [simpl; lia|].
      apply (settled_on_longer _ (d :: rest1)); [apply IHm|]; simpl; lia. }
    destruct (c =? ch "[")%N.
    { pose proof (skip_ws_length rest) as Hw.
      destruct (skip_ws rest) as [|d rest1]; [exact I|]. cbn [length] in Hw.
      destruct (d =? ch "]")%N; [simpl; lia|].
      apply (settled_on_longer _ (d :: rest1)); [apply IHe|]; simpl; lia. }
    destruct (c =? dquote)%N.
    { destruct (lex_string rest) as [[v r]|] eqn:E; [|exact I].
      apply (lex_string_length (length rest)) in E; simpl; lia. }
    destruct ((c =? ch "-")%N || is_digit c).
    { destruct (lex_number (c :: rest)) as [[l r]|] eqn:E; [|exact I].
      apply lex_number_length in E. exact E. }
    destruct (strip_prefix (lit "true") (c :: rest)) as [r|] eqn:E1.
    { apply strip_prefix_length in E1. simpl in *. lia. }
    destruct (strip_prefix (lit "false") (c :: rest)) as [r|] eqn:E2.
    { apply strip_prefix_length in E2. simpl in *. lia. }
    destruct (strip_prefix (lit "null") (c :: rest)) as [r|] eqn:E3; [|exact I].
    apply strip_prefix_length in E3. simpl in *. lia.
  - intros s acc Hf. cbn [parse_elements].
    assert (Hv : settled_on s (parse_value fuel s)) by (apply IHv; lia).
    destruct (parse_value fuel s) as [v rest| |]; [|exact I|exact Hv].
    simpl in Hv. pose proof (skip_ws_length rest) as Hw.
    destruct (skip_ws rest) as [|d rest1]; [exact I|]. cbn [length] in Hw.
    destruct (d =? ch ",")%N.
    { pose proof (skip_ws_length rest1) as Hw1.
      apply (settled_on_longer _ (skip_ws rest1)); [apply IHe|]; lia. }
    destruct (d =? ch "]")%N; [simpl; lia | exact I].
  - intros s acc Hf. cbn [parse_members].
    destruct s as [|q rest]; [exact I|]. cbn [length] in Hf.
    destruct (q =? dquote)%N; [|exact I].
    destruct (lex_string rest) as [[key rest1]|] eqn:E; [|exact I].
    apply (lex_string_length (length rest)) in E; [|lia].
    pose proof (skip_ws_length rest1) as Hw1.
    destruct (skip_ws rest1) as [|d rest2]; [exact I|]. cbn [length] in Hw1.
    destruct (d =? ch ":")%N; [|exact I].
    pose proof (skip_ws_length rest2) as Hw2.
    assert (Hv : settled_on (skip_ws rest2) (parse_value fuel (skip_ws rest2)))
      by (apply IHv; lia).
    destruct (parse_value fuel (skip_ws rest2)) as [v rest3| |]; [|exact I|exact Hv].
    simpl in Hv. pose proof (skip_ws_length rest3) as Hw3.
    destruct (skip_ws rest3) as [|e rest4]; [exact I|]. cbn [length] in Hw3.
    destruct (e =? ch ",")%N.
    { pose proof (skip_ws_length rest4) as Hw4.
      apply (settled_on_longer _ (skip_ws rest4)); [apply IHm|]; simpl; lia. }
    destruct (e =? ch "}")%N; [simpl; lia | exact I].
Qed.

Lemma parse_fuel_more (fuel : nat) : forall more, (fuel <= more)%nat ->
  (forall s, parse_value fuel s <> OutOfFuel ->
     parse_value more s = parse_value fuel s) /\
  (forall s acc, parse_elements fuel s acc <> OutOfFuel ->
     parse_elements more s acc = parse_elements fuel s acc) /\
  (forall s acc, parse_members fuel s acc <> OutOfFuel ->
     parse_members more s acc = parse_members fuel s acc).
Proof.
  induction fuel as [|fuel IH]; intros more Hmore.
  { repeat split; intros; simpl in *; congruence. }
  destruct more as [|more]; [lia|].
  destruct (IH more) as (IHv & IHe & IHm); [lia|].
  split; [|split].
  - intros s. cbn [parse_value].
    destruct s as [|c rest]; [reflexivity|].
    destruct (c =? ch "{")%N.
    { destruct (skip_ws rest) as [|d rest1]; [reflexivity|].
      destruct (d =? ch "}")%N; [reflexivity|]. apply IHm. }
    destruct (c =? ch "[")%N.
    { destruct (skip_ws rest) as [|d rest1]; [reflexivity|].
      destruct (d =? ch "]")%N; [reflexivity|]. apply IHe. }
    reflexivity.
  - intros s acc. cbn [parse_elements]. intros H.
    assert (Hv : parse_value fuel s <> OutOfFuel).
    { intros E. rewrite E in H. congruence. }
    rewrite (IHv s Hv).
    destruct (parse_value fuel s) as [v rest| |]; try reflexivity.
    destruct (skip_ws rest) as [|d rest1]; [reflexivity|].
    destruct (d =? ch ",")%N; [|reflexivity]. apply IHe. exact H.
  - intros s acc. cbn [parse_members]. intros H.
    destruct s as [|q rest]; [reflexivity|].
    destruct (q =? dquote)%N; [|reflexivity].
    destruct (lex_string rest) as [[key rest1]|]; [|reflexivity].
    destruct (skip_ws rest1) as [|d rest2]; [reflexivity|].
    destruct (d =? ch ":")%N; [|reflexivity].
    assert (Hv : parse_value fuel (skip_ws rest2) <> OutOfFuel).
    { intros E. rewrite E in H. congruence. }
    rewrite (IHv _ Hv).
    destruct (parse_value fuel (skip_ws rest2)) as [v rest3| |]; try reflexivity.
    destruct (skip_ws rest3) as [|e rest4]; [reflexivity|].
    destruct (e =? ch ",")%N; [|reflexivity]. apply IHm. exact H.
Qed.

(** [JSON_parse] does not depend on its fuel: the parser never runs out
    of it, and any larger amount gives the same result. *)
Theorem JSON_parse_fuel (text : jsstring) (fuel : nat) :
  (fuel_for text <= fuel)%nat ->
  parse_value (fuel_for text) (skip_ws text) <> OutOfFuel /\
  parse_value fuel (skip_ws text) = parse_value (fuel_for text) (skip_ws text).
Proof.
  intros Hf.
  assert (Hs : settled_on (skip_ws text) (parse_value (fuel_for text) (skip_ws text))).
  { apply parse_fuel_enough. pose proof (skip_ws_length text). unfold fuel_for. lia. }
  assert (Hne : parse_value (fuel_for text) (skip_ws text) <> OutOfFuel).
  { intros E. rewrite E in Hs. exact Hs. }
  split; [exact Hne|].
  now apply (parse_fuel_more (fuel_for text) fuel Hf).
Qed.

(** ** [JSON.parse] reads back what [JSON.stringify] writes *)

Lemma hex_value_digit (n : N) : (n < 16)%N -> hex_value (hex_digit n) = Some n.
Proof.
  intros H. unfold hex_digit, hex_value.
  destruct (N.ltb_spec n 10).
  - replace ((48 <=? 48 + n)%N && (48 + n <=? 57)%N) with true.
    + f_equal. lia.
    + symmetry. apply andb_true_iff. split; apply N.leb_le; lia.
  - replace ((48 <=? 87 + n)%N && (87 + n <=? 57)%N) with false.
    + replace ((97 <=? 87 + n)%N && (87 + n <=? 102)%N) with true.
      * f_equal. lia.
      * symmetry. apply andb_true_iff. split; apply N.leb_le; lia.
    + symmetry. apply andb_false_iff. right. apply N.leb_gt. lia.
Qed.

Lemma hex4_escape (c : code_unit) :
  (c < 65536)%N ->
  hex4 (hex_digit (c / 4096 mod 16)) (hex_digit (c / 256 mod 16))
       (hex_digit (c / 16 mod 16)) (hex_digit (c mod 16)) = Some c.
Proof.
  intros H. unfold hex4.
  rewrite !hex_value_digit by (apply N.mod_lt; discriminate).
  f_equal.
  assert (E1 : (c / 16 / 16 = c / 256)%N) by (now rewrite N.Div0.div_div).
  assert (E2 : (c / 256 / 16 = c / 4096)%N) by (now rewrite N.Div0.div_div).
  pose proof (N.Div0.div_mod c 16) as D1.
  pose proof (N.Div0.div_mod (c / 16) 16) as D2.
  pose proof (N.Div0.div_mod (c / 256) 16) as D3.
  rewrite E1 in D2. rewrite E2 in D3.
  assert (c / 4096 < 16)%N by (apply N.Div0.div_lt_upper_bound; lia).
  rewrite (N.mod_small (c / 4096) 16) by assumption.
  lia.
Qed.

Lemma short_escape_Some (c e : code_unit) :
  short_escape c = Some e ->
  (e =? ch "u")%N = false /\ simple_escape e = Some c.
Proof.
  unfold short_escape.
  repeat match goal with
         | |- context [if (?x =? ?y)%N then _ else _] =>
           destruct (N.eqb_spec x y) as [->|?]
         end; intros E; try discriminate E; injection E as <-; split; reflexivity.
Qed.

Lemma short_escape_None (c : code_unit) :
  short_escape c = None ->
  (c =? dquote)%N = false /\ (c =? ch "\")%N = false.
Proof.
  unfold short_escape.
  repeat match goal with
         | |- context [if (?x =? ?y)%N then _ else _] =>
           destruct (N.eqb_spec x y) as [->|?]
         end; intros E; try discriminate E.
  split; first [reflexivity | apply N.eqb_neq; assumption].
Qed.

Lemma lex_string_escape (c : code_unit) (tail : jsstring) :
  (c < 65536)%N ->
  lex_string (unicode_escape c ++ tail) =
    match lex_string tail with
    | Some (v, r) => Some (c :: v, r)
    | None => None
    end.
Proof.
  intros H. unfold unicode_escape. cbn [app lex_string].
  change (ch "\" =? dquote)%N with false. change (ch "\" =? ch "\")%N with true.
  change (ch "u" =? ch "u")%N with true. cbn iota.
  now rewrite hex4_escape.
Qed.

Lemma lex_string_plain (c : code_unit) (tail : jsstring) :
  (c =? dquote)%N = false -> (c =? ch "\")%N = false -> (c <? 32)%N = false ->
  lex_string (c :: tail) =
    match lex_string tail with
    | Some (v, r) => Some (c :: v, r)
    | None => None
    end.
Proof.
  intros H1 H2 H3. cbn [lex_string]. now rewrite H1, H2, H3.
Qed.

(** Reading back a quoted string gives the string. *)
Lemma lex_string_quote (n : nat) : forall s rest,
  (length s <= n)%nat ->
  lex_string (quote_body s ++ dquote :: rest) = Some (s, rest).
Proof.
  induction n as [|n IH]; intros s rest Hn.
  - destruct s; [|simpl in Hn; lia]. cbn [quote_body app lex_string].
    now rewrite N.eqb_refl.
  - destruct s as [|c s]; [cbn [quote_body app lex_string]; now rewrite N.eqb_refl|].
    cbn [length] in Hn. cbn [quote_body].
    assert (Hs : lex_string (quote_body s ++ dquote :: rest) = Some (s, rest))
      by (apply IH; lia).
    destruct (short_escape c) as [e|] eqn:Ee.
    { apply short_escape_Some in Ee. destruct Ee as (Eu & Ese).
      cbn [app lex_string].
      change (ch "\" =? dquote)%N with false. change (ch "\" =? ch "\")%N with true.
      cbn iota. now rewrite Eu, Ese, Hs. }
    apply short_escape_None in Ee. destruct Ee as (Eq & Eb).
    destruct (c <? 32)%N eqn:E32.
    { rewrite <- app_assoc, lex_string_escape, Hs; [reflexivity|].
      apply N.ltb_lt in E32. lia. }
    destruct (is_high_surrogate c) eqn:Eh.
    + assert (Hc : (c < 65536)%N).
      { unfold is_high_surrogate in Eh. apply andb_true_iff in Eh.
        destruct Eh as (_ & Eh). apply N.leb_le in Eh. lia. }
      destruct s as [|d s1].
      * cbn [quote_body app] in *. rewrite lex_string_escape by assumption.
        cbn [lex_string]. now rewrite N.eqb_refl.
      * destruct (is_low_surrogate d) eqn:El.
        -- cbn [app]. rewrite lex_string_plain by assumption.
           assert (Hd : (56320 <= d)%N).
           { unfold is_low_surrogate in El. apply andb_true_iff in El.
             destruct El as (El & _). now apply N.leb_le in El. }
           rewrite lex_string_plain.
           ++ rewrite IH by (simpl in Hn; lia). reflexivity.
           ++ apply N.eqb_neq. unfold dquote. lia.
           ++ apply N.eqb_neq. unfold ch. simpl. lia.
           ++ apply N.ltb_ge. lia.
        -- rewrite <- app_assoc, lex_string_escape, Hs by assumption. reflexivity.
    + destruct (is_low_surrogate c) eqn:El.
      * assert (Hc : (c < 65536)%N).
        { unfold is_low_surrogate in El. apply andb_true_iff in El.
          destruct El as (_ & El). apply N.leb_le in El. lia. }
        rewrite <- app_assoc, lex_string_escape, Hs by assumption. reflexivity.
      * cbn [app]. rewrite lex_string_plain by assumption. now rewrite Hs.
Qed.

Lemma span_digits_app (l rest : jsstring) :
  match rest with [] => True | c :: _ => is_digit c = false end ->
  span_digits (l ++ rest) = (fst (span_digits l), snd (span_digits l) ++ rest).
Proof.
  intros Hrest. induction l as [|c l IH]; cbn [app span_digits].
  - destruct rest as [|d rest]; [reflexivity|]. cbn [span_digits]. now rewrite Hrest.
  - destruct (is_digit c); [|reflexivity].
    rewrite IH. now destruct (span_digits l).
Qed.

Lemma ends_number_digit (rest : jsstring) :
  ends_number rest -> match rest with [] => True | c :: _ => is_digit c = false end.
Proof. destruct rest; simpl; tauto. Qed.

Lemma lex_int_app (l rest i r : jsstring) :
  ends_number rest -> lex_int l = Some (i, r) ->
  lex_int (l ++ rest) = Some (i, r ++ rest).
Proof.
  intros Hrest. destruct l as [|c l]; [discriminate|]. cbn [app lex_int].
  destruct (c =? ch "0")%N.
  - intros E. now injection E as <- <-.
  - destruct (is_digit c); [|discriminate].
    rewrite span_digits_app by now apply ends_number_digit.
    destruct (span_digits l) as [ds r']. intros E. now injection E as <- <-.
Qed.

Lemma lex_frac_app (l rest f r : jsstring) :
  ends_number rest -> lex_frac l = Some (f, r) ->
  lex_frac (l ++ rest) = Some (f, r ++ rest).
Proof.
  intros Hrest. destruct l as [|c l]; cbn [app lex_frac].
  - intros E. injection E as <- <-. destruct rest as [|d rest]; [reflexivity|].
    cbn [lex_frac]. destruct Hrest as (_ & -> & _). reflexivity.
  - destruct (c =? ch ".")%N.
    + rewrite span_digits_app by now apply ends_number_digit.
      destruct (span_digits l) as [[|d ds] r']; [discriminate|].
      intros E. now injection E as <- <-.
    + intros E. now injection E as <- <-.
Qed.

Lemma lex_exp_app (l rest e r : jsstring) :
  ends_number rest -> lex_exp l = Some (e, r) ->
  lex_exp (l ++ rest) = Some (e, r ++ rest).
Proof.
  intros Hrest. destruct l as [|c l]; cbn [app lex_exp].
  - intros E. injection E as <- <-. destruct rest as [|d rest]; [reflexivity|].
    cbn [lex_exp]. destruct Hrest as (_ & _ & ->). reflexivity.
  - destruct ((c =? ch "e") || (c =? ch "E"))%N.
    + destruct l as [|d l].
      * simpl. discriminate.
      * cbn [app lex_exp_sign]. destruct ((d =? ch "+") || (d =? ch "-"))%N.
        -- rewrite span_digits_app by now apply ends_number_digit.
           destruct (span_digits l) as [[|x ds] r']; [discriminate|].
           intros E. now injection E as <- <-.
        -- change (d :: l ++ rest) with ((d :: l) ++ rest).
           rewrite span_digits_app by now apply ends_number_digit.
           destruct (span_digits (d :: l)) as [[|x ds] r']; [discriminate|].
           intros E. now injection E as <- <-.
    + intros E. now injection E as <- <-.
Qed.

Lemma lex_number_app (l rest l0 r : jsstring) :
  ends_number rest -> lex_number l = Some (l0, r) ->
  lex_number (l ++ rest) = Some (l0, r ++ rest).
Proof.
  intros Hrest. unfold lex_number.
  assert (Hs : l <> [] -> lex_sign (l ++ rest)
               = (fst (lex_sign l), snd (lex_sign l) ++ rest)).
  { destruct l as [|c l]; [congruence|]. intros _. cbn [app lex_sign].
    now destruct (c =? ch "-")%N. }
  destruct l as [|c l]; [discriminate|].
  rewrite Hs by discriminate. destruct (lex_sign (c :: l)) as [sg s1].
  cbn [fst snd].
  destruct (lex_int s1) as [[i s2]|] eqn:Ei; [|discriminate].
  rewrite (lex_int_app _ _ _ _ Hrest Ei).
  destruct (lex_frac s2) as [[f s3]|] eqn:Ef; [|discriminate].
  rewrite (lex_frac_app _ _ _ _ Hrest Ef).
  destruct (lex_exp s3) as [[e s4]|] eqn:Ee; [|discriminate].
  rewrite (lex_exp_app _ _ _ _ Hrest Ee).
  intros E. now injection E as <- <-.
Qed.

Lemma number_lexeme_app (l rest : jsstring) :
  number_lexeme l = true -> ends_number rest ->
  lex_number (l ++ rest) = Some (l, rest).
Proof.
  unfold number_lexeme. intros H Hrest.
  destruct (lex_number l) as [[l' [|x r]]|] eqn:E; try discriminate H.
  apply jsstring_eqb_eq in H. subst l'.
  now rewrite (lex_number_app _ _ _ _ Hrest E).
Qed.

Lemma number_lexeme_head (l : jsstring) :
  number_lexeme l = true ->
  exists c l', l = c :: l' /\ ((c =? ch "-")%N || is_digit c) = true.
Proof.
  unfold number_lexeme, lex_number. destruct l as [|c l]; [discriminate|].
  intros H. exists c, l. split; [reflexivity|].
  cbn [lex_sign] in H. destruct (c =? ch "-")%N eqn:Ec; [reflexivity|].
  cbn [lex_int] in H. destruct (N.eqb_spec c (ch "0")) as [->|Hc]; [reflexivity|].
  destruct (is_digit c); [reflexivity | discriminate H].
Qed.

Lemma span_digits_chars (s : jsstring) :
  Forall (fun c => is_digit c = true) (fst (span_digits s)).
Proof.
  induction s as [|c s IH]; cbn [span_digits]; [constructor|].
  destruct (is_digit c) eqn:E; [|constructor].
  destruct (span_digits s). cbn [fst] in *. now constructor.
Qed.

Lemma digits_number_chars (ds : jsstring) :
  Forall (fun c => is_digit c = true) ds ->
  Forall (fun c => number_char c = true) ds.
Proof.
  apply Forall_impl. intros c H. unfold number_char. now rewrite H.
Qed.

Lemma lex_number_chars (l l0 r : jsstring) :
  lex_number l = Some (l0, r) -> Forall (fun c => number_char c = true) l0.
Proof.
  unfold lex_number.
  assert (Hsg : Forall (fun c => number_char c = true) (fst (lex_sign l))).
  { destruct l as [|c l]; cbn [lex_sign]; [constructor|].
    destruct (N.eqb_spec c (ch "-")) as [->|]; repeat constructor. }
  destruct (lex_sign l) as [sg s1]. cbn [fst] in Hsg.
  destruct (lex_int s1) as [[i s2]|] eqn:Ei; [|discriminate].
  destruct (lex_frac s2) as [[f s3]|] eqn:Ef; [|discriminate].
  destruct (lex_exp s3) as [[e s4]|] eqn:Ee; [|discriminate].
  intros E. injection E as <- _. repeat (apply Forall_app; split); try assumption.
  - destruct s1 as [|c s1]; [discriminate|]. cbn [lex_int] in Ei.
    destruct (N.eqb_spec c (ch "0")) as [->|].
    + injection Ei as <- _. repeat constructor.
    + destruct (is_digit c) eqn:Ec; [|discriminate].
      pose proof (span_digits_chars s1) as Hd.
      destruct (span_digits s1) as [ds r']. injection Ei as <- _.
      apply digits_number_chars. now constructor.
  - destruct s2 as [|c s2]; cbn [lex_frac] in Ef.
    + injection Ef as <- _. constructor.
    + destruct (N.eqb_spec c (ch ".")) as [->|].
      * pose proof (span_digits_chars s2) as Hd.
        destruct (span_digits s2) as [[|d ds] r']; [discriminate|].
        injection Ef as <- _. constructor; [reflexivity|].
        now apply digits_number_chars.
      * injection Ef as <- _. constructor.
  - destruct s3 as [|c s3]; cbn [lex_exp] in Ee.
    + injection Ee as <- _. constructor.
    + destruct ((c =? ch "e") || (c =? ch "E"))%N eqn:Ec.
      * assert (Hc : number_char c = true).
        { unfold number_char. apply orb_true_iff in Ec.
          destruct Ec as [->| ->]; now rewrite ?orb_true_r. }
        assert (Hx : Forall (fun c => number_char c = true) (fst (lex_exp_sign s3))).
        { destruct s3 as [|d s3]; cbn [lex_exp_sign]; [constructor|].
          destruct ((d =? ch "+") || (d =? ch "-"))%N eqn:Ed; [|constructor].
          constructor; [|constructor]. unfold number_char.
          apply orb_true_iff in Ed. destruct Ed as [->| ->]; now rewrite ?orb_true_r. }
        destruct (lex_exp_sign s3) as [sg' rest1]. cbn [fst] in Hx.
        pose proof (span_digits_chars rest1) as Hd.
        destruct (span_digits rest1) as [[|d ds] r']; [discriminate|].
        injection Ee as <- _. constructor; [exact Hc|].
        apply Forall_app. split; [exact Hx|]. now apply digits_number_chars.
      * injection Ee as <- _. constructor.
Qed.

Lemma number_lexeme_no_newline (l : jsstring) :
  number_lexeme l = true -> ~ In newline l.
Proof.
  unfold number_lexeme. intros H Hin.
  destruct (lex_number l) as [[l' [|x r]]|] eqn:E; try discriminate H.
  apply jsstring_eqb_eq in H. subst l'.
  apply lex_number_chars in E. rewrite Forall_forall in E.
  specialize (E _ Hin). discriminate E.
Qed.

(** The decimal rendering of an integer is a number lexeme. *)
Lemma span_digits_uint (u : Decimal.uint) :
  span_digits (lit (NilEmpty.string_of_uint u)) = (lit (NilEmpty.string_of_uint u), []).
Proof.
  induction u; cbn [NilEmpty.string_of_uint lit span_digits]; try reflexivity;
    match goal with
    | |- context [is_digit ?c] => change (is_digit c) with true
    end; cbn iota; now rewrite IHu.
Qed.

Lemma nzhead_not_D0 (u u' : Decimal.uint) : Decimal.nzhead u <> Decimal.D0 u'.
Proof. induction u; cbn [Decimal.nzhead]; try discriminate. exact IHu. Qed.

Lemma to_uint_head (p : positive) :
  match Pos.to_uint p with
  | Decimal.Nil | Decimal.D0 _ => False
  | _ => True
  end.
Proof.
  pose proof (DecimalPos.Unsigned.to_of (Pos.to_uint p)) as H.
  rewrite DecimalPos.Unsigned.of_to in H. cbn [N.to_uint] in H.
  pose proof (DecimalPos.Unsigned.to_uint_nonzero p) as Hz.
  pose proof (DecimalPos.Unsigned.to_uint_nonnil p) as Hn.
  destruct (Pos.to_uint p) as [|u| | | | | | | | | ]; try exact I.
  - congruence.
  - unfold Decimal.unorm in H. cbn [Decimal.nzhead] in H.
    destruct (Decimal.nzhead u) eqn:E; try (symmetry in H; revert H; rewrite <- E; apply nzhead_not_D0).
    exfalso. apply Hz. exact H.
Qed.

Lemma lex_int_uint (p : positive) :
  lex_int (lit (NilEmpty.string_of_uint (Pos.to_uint p)))
  = Some (lit (NilEmpty.string_of_uint (Pos.to_uint p)), []).
Proof.
  pose proof (to_uint_head p) as H.
  destruct (Pos.to_uint p) as [|u|u|u|u|u|u|u|u|u|u]; try contradiction;
    cbn [NilEmpty.string_of_uint lit lex_int];
    match goal with
    | |- context [(?c =? ch "0")%N] => change (c =? ch "0")%N with false
    end;
    match goal with
    | |- context [is_digit ?c] => change (is_digit c) with true
    end; cbn iota; now rewrite span_digits_uint.
Qed.

Lemma Number_toString_lexeme (n : Z) : number_lexeme (Number_toString n) = true.
Proof.
  unfold number_lexeme, Number_toString, lex_number.
  destruct n as [|p|p]; cbn [Z.to_int NilZero.string_of_int].
  - reflexivity.
  - unfold NilZero.string_of_uint.
    pose proof (to_uint_head p) as Hh. pose proof (lex_int_uint p) as Hi.
    assert (Hs : lex_sign (lit (NilEmpty.string_of_uint (Pos.to_uint p)))
                 = ([], lit (NilEmpty.string_of_uint (Pos.to_uint p)))).
    { destruct (Pos.to_uint p); try contradiction; reflexivity. }
    destruct (Pos.to_uint p) eqn:Eu; try contradiction;
      rewrite Hs, Hi; cbn [lex_frac lex_exp app]; rewrite app_nil_r;
      now rewrite jsstring_eqb_refl.
  - unfold NilZero.string_of_uint.
    pose proof (to_uint_head p) as Hh. pose proof (lex_int_uint p) as Hi.
    destruct (Pos.to_uint p) eqn:Eu; try contradiction;
      cbn [lit lex_sign]; change (N_of_ascii "-" =? ch "-")%N with true; cbn iota;
      rewrite Hi; cbn [lex_frac lex_exp app]; rewrite app_nil_r;
      now rewrite jsstring_eqb_refl.
Qed.

Lemma number_head_class (c : code_unit) :
  ((c =? ch "-")%N || is_digit c) = true ->
  is_ws c = false /\ (c =? ch "]")%N = false /\ (c =? ch "{")%N = false /\
  (c =? ch "[")%N = false /\ (c =? dquote)%N = false.
Proof.
  intros H. apply orb_true_iff in H. unfold is_ws, is_digit, ch, dquote in *.
  simpl N_of_ascii in *.
  assert (Hc : (c = 45 \/ 48 <= c <= 57)%N).
  { destruct H as [H|H]; [left; now apply N.eqb_eq|right].
    apply andb_true_iff in H. destruct H as (H1 & H2).
    apply N.leb_le in H1, H2. lia. }
  repeat split; rewrite ?orb_false_iff; repeat split; apply N.eqb_neq; lia.
Qed.

Lemma stringify_head (v : JsonValue) :
  numbers_valid v = true ->
  exists c t, JSON_stringify v = c :: t /\ is_ws c = false /\ (c =? ch "]")%N = false.
Proof.
  destruct v as [|[]|l|s|items|members]; cbn [numbers_valid JSON_stringify]; intros H;
    try (eexists; eexists; split; [reflexivity | split; reflexivity]).
  destruct (number_lexeme_head l H) as (c & l' & -> & Hc).
  apply number_head_class in Hc. exists c, l'. tauto.
Qed.

Lemma skip_ws_head (c : code_unit) (t : jsstring) :
  is_ws c = false -> skip_ws (c :: t) = c :: t.
Proof. intros H. cbn [skip_ws]. now rewrite H. Qed.

Ltac solve_length :=
  repeat first [rewrite length_app in * | progress cbn [length] in *]; lia.

Section RoundTrip.

(** The claim of the round trip for one value, and the shape of what may
    follow it in a text. *)
Let reads_back (v : JsonValue) : Prop :=
  numbers_valid v = true ->
  forall rest fuel,
    ends_number rest ->
    (2 * length (JSON_stringify v ++ rest) + 1 <= fuel)%nat ->
    parse_value fuel (JSON_stringify v ++ rest) = Parsed v rest.

Lemma ends_number_comma (rest : jsstring) : ends_number (ch "," :: rest).
Proof. repeat split. Qed.

Lemma ends_number_bracket (rest : jsstring) : ends_number (ch "]" :: rest).
Proof. repeat split. Qed.

Lemma ends_number_brace (rest : jsstring) : ends_number (ch "}" :: rest).
Proof. repeat split. Qed.

Lemma parse_elements_join (items : list JsonValue) :
  Forall reads_back items ->
  forallb numbers_valid items = true ->
  forall x acc rest fuel,
    reads_back x -> numbers_valid x = true ->
    (2 * length (join (lit ",") (map JSON_stringify (x :: items)) ++ ch "]" :: rest) + 2
     <= fuel)%nat ->
    parse_elements fuel
      (join (lit ",") (map JSON_stringify (x :: items)) ++ ch "]" :: rest) acc
    = Parsed (JArray (acc ++ x :: items)) rest.
Proof.
  induction 1 as [|y items Hy Hitems IH]; intros Hv x acc rest fuel Hx Hvx Hf.
  - cbn [map join] in *. destruct fuel as [|fuel]; [lia|]. cbn [parse_elements].
    rewrite Hx; [|assumption|apply ends_number_bracket|lia].
    cbn [skip_ws]. reflexivity.
  - cbn [forallb] in Hv. apply andb_true_iff in Hv. destruct Hv as (Hvy & Hv).
    change (join (lit ",") (map JSON_stringify (x :: y :: items)))
      with (JSON_stringify x ++ lit "," ++ join (lit ",") (map JSON_stringify (y :: items)))
      in *.
    rewrite <- !app_assoc in *.
    change (lit "," ++ ?t) with (ch "," :: t) in *.
    destruct fuel as [|fuel]; [lia|]. cbn [parse_elements].
    rewrite Hx; [|assumption|apply ends_number_comma|lia].
    cbn [skip_ws]. change (is_ws (ch ",")) with false. cbn iota.
    change (ch "," =? ch ",")%N with true. cbn iota.
    assert (Hh : skip_ws (join (lit ",") (map JSON_stringify (y :: items)) ++ ch "]" :: rest)
                 = join (lit ",") (map JSON_stringify (y :: items)) ++ ch "]" :: rest).
    { destruct (stringify_head y Hvy) as (c & t & E & Hws & _).
      destruct items as [|z items]; cbn [map join]; rewrite E; cbn [app];
        now apply skip_ws_head. }
    rewrite Hh. rewrite IH; try assumption.
    + now rewrite <- app_assoc.
    + rewrite !length_app in Hf. cbn [length] in Hf. lia.
Qed.

Lemma parse_members_join (members : list (jsstring * JsonValue)) :
  Forall (fun kv => reads_back (snd kv)) members ->
  forallb (fun kv => match kv with (_, x) => numbers_valid x end) members = true ->
  forall k x acc rest fuel,
    reads_back x -> numbers_valid x = true ->
    (2 * length (join (lit ",") (map member_text ((k, x) :: members)) ++ ch "}" :: rest) + 2
     <= fuel)%nat ->
    parse_members fuel
      (join (lit ",") (map member_text ((k, x) :: members)) ++ ch "}" :: rest) acc
    = Parsed (JObject (acc ++ (k, x) :: members)) rest.
Proof.
  induction 1 as [|[k' y] members Hy Hmembers IH]; intros Hv k x acc rest fuel Hx Hvx Hf.
  - cbn [map join member_text] in *. unfold JSON_quote in *.
    rewrite <- !app_assoc in *. cbn [app] in *. rewrite <- !app_assoc in *.
    change (lit ":" ++ ?t) with (ch ":" :: t) in *. cbn [app] in *.
    destruct fuel as [|fuel]; [lia|]. cbn [parse_members].
    rewrite N.eqb_refl. rewrite (lex_string_quote (length k)) by lia.
    cbn [skip_ws]. change (is_ws (ch ":")) with false. cbn iota.
    change (ch ":" =? ch ":")%N with true. cbn iota.
    destruct (stringify_head x Hvx) as (c & t & E & Hws & _).
    assert (Hh : skip_ws (JSON_stringify x ++ ch "}" :: rest)
                 = JSON_stringify x ++ ch "}" :: rest).
    { rewrite E. cbn [app]. now apply skip_ws_head. }
    rewrite Hh. rewrite Hx; [|assumption|apply ends_number_brace|].
    + cbn [skip_ws]. reflexivity.
    + solve_length.
  - cbn [forallb] in Hv. apply andb_true_iff in Hv. destruct Hv as (Hvy & Hv).
    cbn [snd] in Hy.
    change (join (lit ",") (map member_text ((k, x) :: (k', y) :: members)))
      with (member_text (k, x) ++ lit ","
            ++ join (lit ",") (map member_text ((k', y) :: members))) in *.
    cbn [member_text] in *. unfold JSON_quote in *.
    rewrite <- !app_assoc in *. cbn [app] in *. rewrite <- !app_assoc in *.
    change (lit ":" ++ ?t) with (ch ":" :: t) in *.
    change (lit "," ++ ?t) with (ch "," :: t) in *. cbn [app] in *.
    destruct fuel as [|fuel]; [lia|]. cbn [parse_members].
    rewrite N.eqb_refl. rewrite (lex_string_quote (length k)) by lia.
    cbn [skip_ws]. change (is_ws (ch ":")) with false. cbn iota.
    change (ch ":" =? ch ":")%N with true. cbn iota.
    destruct (stringify_head x Hvx) as (c & t & E & Hws & _).
    match goal with
    | |- context [skip_ws (JSON_stringify x ++ ?tail)] =>
      assert (Hh : skip_ws (JSON_stringify x ++ tail) = JSON_stringify x ++ tail)
        by (rewrite E; cbn [app]; now apply skip_ws_head);
      rewrite Hh; rewrite Hx; [|assumption|apply ends_number_comma|]
    end.
    + cbn [skip_ws]. change (is_ws (ch ",")) with false. cbn iota.
      change (ch "," =? ch ",")%N with true. cbn iota.
      assert (Hq : forall tail, skip_ws (join (lit ",") (map member_text ((k', y) :: members)) ++ tail)
                   = join (lit ",") (map member_text ((k', y) :: members)) ++ tail).
      { intros tail. destruct members as [|m members]; cbn [map join member_text];
          unfold JSON_quote; cbn [app]; now apply skip_ws_head. }
      rewrite Hq. rewrite IH; try assumption.
      * now rewrite <- app_assoc.
      * solve_length.
    + solve_length.
Qed.

Lemma stringify_reads_back (v : JsonValue) : reads_back v.
Proof.
  induction v as [| b | lexeme | s | items IH | members IH] using JsonValue_induction;
    intros Hv rest fuel Hrest Hf; (destruct fuel as [|fuel]; [lia|]).
  - reflexivity.
  - destruct b; reflexivity.
  - cbn [numbers_valid JSON_stringify] in *.
    destruct (number_lexeme_head lexeme Hv) as (c & l' & -> & Hc).
    pose proof (number_head_class c Hc) as (_ & _ & H1 & H2 & H3).
    cbn [app parse_value]. rewrite H1, H2, H3, Hc.
    change (c :: l' ++ rest) with ((c :: l') ++ rest).
    now rewrite number_lexeme_app.
  - cbn [JSON_stringify]. unfold JSON_quote. cbn [app parse_value].
    change (dquote =? ch "{")%N with false. change (dquote =? ch "[")%N with false.
    rewrite N.eqb_refl. cbn iota. rewrite <- app_assoc. cbn [app].
    now rewrite (lex_string_quote (length s)).
  - cbn [numbers_valid JSON_stringify] in *.
    rewrite <- !app_assoc in *.
    change (lit "[" ++ ?t) with (ch "[" :: t) in *.
    change (lit "]" ++ ?t) with (ch "]" :: t) in *. cbn [parse_value].
    change (ch "[" =? ch "{")%N with false. change (ch "[" =? ch "[")%N with true.
    cbn iota. destruct items as [|x items].
    + reflexivity.
    + cbn [forallb] in Hv. apply andb_true_iff in Hv. destruct Hv as (Hvx & Hv).
      inversion IH as [|? ? Hx Hitems]; subst.
      destruct (stringify_head x Hvx) as (c & t & E & Hws & Hc).
      assert (Hj : exists t', join (lit ",") (map JSON_stringify (x :: items)) ++ ch "]" :: rest
                              = c :: t').
      { destruct items as [|y items]; cbn [map join]; rewrite E; cbn [app];
          eexists; reflexivity. }
      destruct Hj as (t' & Hj). rewrite Hj. rewrite skip_ws_head by assumption.
      rewrite Hc. rewrite <- Hj.
      rewrite (parse_elements_join items Hitems Hv x [] rest fuel Hx Hvx); [reflexivity|].
      cbn [length] in Hf. lia.
  - cbn [numbers_valid JSON_stringify] in *.
    change (map _ members) with (map member_text members) in *.
    rewrite <- !app_assoc in *.
    change (lit "{" ++ ?t) with (ch "{" :: t) in *.
    change (lit "}" ++ ?t) with (ch "}" :: t) in *. cbn [parse_value].
    change (ch "{" =? ch "{")%N with true. cbn iota.
    destruct members as [|[k x] members].
    + reflexivity.
    + cbn [forallb] in Hv. apply andb_true_iff in Hv. destruct Hv as (Hvx & Hv).
      inversion IH as [|? ? Hx Hmembers]; subst. cbn [snd] in Hx.
      assert (Hj : exists t', join (lit ",") (map member_text ((k, x) :: members)) ++ ch "}" :: rest
                              = dquote :: t').
      { destruct members as [|m members]; cbn [map join member_text];
          unfold JSON_quote; cbn [app]; eexists; reflexivity. }
      destruct Hj as (t' & Hj). rewrite Hj. rewrite skip_ws_head by reflexivity.
      change (dquote =? ch "}")%N with false. cbn iota. rewrite <- Hj.
      rewrite (parse_members_join members Hmembers Hv k x [] rest fuel Hx Hvx);
        [reflexivity|].
      cbn [length] in Hf. lia.
Qed.

End RoundTrip.

(** [JSON.parse] undoes [JSON.stringify]. *)
Theorem JSON_parse_stringify (v : JsonValue) :
  numbers_valid v = true -> JSON_parse (JSON_stringify v) = Some v.
Proof.
  intros Hv. unfold JSON_parse.
  destruct (stringify_head v Hv) as (c & t & E & Hws & _).
  assert (Hs : skip_ws (JSON_stringify v) = JSON_stringify v)
    by (rewrite E; now apply skip_ws_head).
  rewrite Hs.
  pose proof (stringify_reads_back v Hv [] (fuel_for (JSON_stringify v)) I) as H.
  rewrite app_nil_r in H. rewrite H; [reflexivity|]. unfold fuel_for. lia.
Qed.

(** ** The output serializer *)

Lemma hex_digit_not_newline (n : N) : hex_digit n <> newline.
Proof.
  unfold hex_digit, newline. destruct (n <? 10)%N; lia.
Qed.

Lemma unicode_escape_no_newline (c : code_unit) : ~ In newline (unicode_escape c).
Proof.
  unfold unicode_escape. cbn [In].
  intros [H|[H|[H|[H|[H|[H|[]]]]]]];
    try discriminate H; revert H; apply hex_digit_not_newline.
Qed.

Lemma short_escape_not_newline (c e : code_unit) :
  short_escape c = Some e -> e <> newline.
Proof.
  unfold short_escape.
  repeat match goal with
         | |- context [if ?b then _ else _] => destruct b
         end; intros E; try discriminate E; injection E as <-; discriminate.
Qed.

Lemma short_escape_newline (c : code_unit) :
  short_escape c = None -> c <> newline.
Proof.
  intros E ->. discriminate E.
Qed.

Lemma quote_body_no_newline (n : nat) : forall s,
  (length s <= n)%nat -> ~ In newline (quote_body s).
Proof.
  induction n as [|n IH]; intros s Hn.
  - destruct s; [intros [] | simpl in Hn; lia].
  - destruct s as [|c rest]; [intros []|]. cbn [length] in Hn.
    assert (Hrest : ~ In newline (quote_body rest)) by (apply IH; lia).
    cbn [quote_body].
    destruct (short_escape c) as [e|] eqn:Ee.
    { apply short_escape_not_newline in Ee. cbn [In].
      intros [H|[H|H]]; [discriminate H | congruence | contradiction]. }
    apply short_escape_newline in Ee.
    assert (Hesc : ~ In newline (unicode_escape c ++ quote_body rest)).
    { rewrite in_app_iff. intros [H|H]; [|contradiction].
      revert H. apply unicode_escape_no_newline. }
    assert (Hplain : ~ In newline (c :: quote_body rest)).
    { cbn [In]. intros [H|H]; [congruence | contradiction]. }
    destruct (c <? 32)%N; [exact Hesc|].
    destruct (is_high_surrogate c) eqn:Eh.
    + destruct rest as [|d rest1]; [apply unicode_escape_no_newline|].
      destruct (is_low_surrogate d) eqn:El; [|exact Hesc].
      cbn [In]. intros [H|[H|H]].
      * congruence.
      * subst d. discriminate El.
      * revert H. apply IH. simpl in Hn. lia.
    + destruct (is_low_surrogate c); [exact Hesc | exact Hplain].
Qed.

Lemma JSON_quote_no_newline (s : jsstring) : ~ In newline (JSON_quote s).
Proof.
  unfold JSON_quote. cbn [In]. rewrite in_app_iff. cbn [In].
  intros [H|[H|[H|[]]]]; try discriminate H.
  revert H. now apply (quote_body_no_newline (length s)).
Qed.

Lemma join_no_newline (sep : jsstring) (xs : list jsstring) :
  ~ In newline sep -> Forall (fun x => ~ In newline x) xs ->
  ~ In newline (join sep xs).
Proof.
  intros Hsep Hxs. induction Hxs as [|x xs Hx Hxs IH]; [intros []|].
  destruct xs as [|y ys]; [exact Hx|].
  change (join sep (x :: y :: ys)) with (x ++ sep ++ join sep (y :: ys)).
  rewrite !in_app_iff. tauto.
Qed.

(** [JSON.stringify] never puts a line feed in its output. *)
Lemma JSON_stringify_no_newline (v : JsonValue) :
  numbers_valid v = true -> ~ In newline (JSON_stringify v).
Proof.
  induction v as [| b | lexeme | s | items IH | members IH] using JsonValue_induction;
    cbn [numbers_valid JSON_stringify]; intros Hc.
  - intros H. simpl in H. repeat (destruct H as [H|H]; [discriminate H|]). exact H.
  - destruct b; intros H; simpl in H;
      repeat (destruct H as [H|H]; [discriminate H|]); exact H.
  - now apply number_lexeme_no_newline.
  - apply JSON_quote_no_newline.
  - rewrite !in_app_iff. intros [H|[H|H]].
    + simpl in H. destruct H as [H|[]]. discriminate H.
    + revert H. apply join_no_newline.
      * intros H. simpl in H. destruct H as [H|[]]. discriminate H.
      * apply Forall_map. rewrite forallb_forall in Hc.
        rewrite Forall_forall in *. intros x Hx. apply IH; auto.
    + simpl in H. destruct H as [H|[]]. discriminate H.
  - rewrite !in_app_iff. intros [H|[H|H]].
    + simpl in H. destruct H as [H|[]]. discriminate H.
    + revert H. apply join_no_newline.
      * intros H. simpl in H. destruct H as [H|[]]. discriminate H.
      * apply Forall_map. rewrite forallb_forall in Hc.
        rewrite Forall_forall in *. intros [k x] Hx.
        rewrite !in_app_iff. intros [H|[H|H]].
        -- revert H. apply JSON_quote_no_newline.
        -- simpl in H. destruct H as [H|[]]. discriminate H.
        -- revert H. apply (IH (k, x) Hx). apply (Hc (k, x) Hx).
    + simpl in H. destruct H as [H|[]]. discriminate H.
Qed.

Lemma serialized_step (calls : list jsstring) (st : OutputState) (ev : OutEvent) :
  serialized calls st -> serialized (calls ++ calls_of [ev]) (out_step st ev).
Proof.
  destruct st as [pend wr out]. intros (done & H). cbn [writing pending stdout] in H.
  destruct ev as [d | | n | ]; cbn [calls_of out_step writing pending stdout];
    rewrite ?app_nil_r.
  - (* Call *)
    exists done. cbn [writing pending stdout]. destruct wr as [b|].
    + destruct H as (data & flushed & -> & Hl & Ho). exists data, flushed.
      repeat split; try assumption. now rewrite <- app_assoc.
    + destruct H as (-> & Ho). split; [now rewrite app_assoc | assumption].
  - (* Resume *)
    destruct wr as [b|]; [exists done; exact H|].
    destruct pend as [|data rest]; [exists done; exact H|].
    destruct H as (-> & Ho). exists done. cbn [writing pending stdout].
    exists data, []. repeat split. now rewrite app_nil_r.
  - (* Flush *)
    destruct wr as [b|]; [|exists done; exact H].
    destruct H as (data & flushed & -> & Hl & Ho). exists done.
    cbn [writing pending stdout]. exists data, (flushed ++ firstn n b).
    repeat split.
    + now rewrite <- app_assoc, firstn_skipn.
    + now rewrite Ho, app_assoc.
  - (* Written *)
    destruct wr as [[|c b]|]; [|exists done; exact H|exists done; exact H].
    destruct H as (data & flushed & -> & Hl & Ho). exists (done ++ [data]).
    cbn [writing pending stdout]. split.
    + now rewrite <- app_assoc.
    + rewrite map_app, concat_app. cbn [map concat].
      rewrite Hl, !app_nil_r. exact Ho.
Qed.

Lemma calls_of_app (evs evs' : list OutEvent) :
  calls_of (evs ++ evs') = calls_of evs ++ calls_of evs'.
Proof.
  induction evs as [|[d| |n|] evs IH]; cbn [app calls_of]; now rewrite ?IH.
Qed.

Lemma out_run_serialized (evs : list OutEvent) :
  serialized (calls_of evs) (out_run evs).
Proof.
  induction evs as [|ev evs IH] using rev_ind.
  - exists []. split; reflexivity.
  - unfold out_run. rewrite fold_left_app, calls_of_app.
    apply serialized_step. exact IH.
Qed.

Lemma drain_pending (pend : list jsstring) : forall out,
  fold_left out_step (flat_map drain_one pend) (mkOut pend None out) =
    mkOut [] None (out ++ concat (map line_of pend)).
Proof.
  induction pend as [|data rest IH]; intros out.
  - simpl. now rewrite app_nil_r.
  - cbn [flat_map drain_one app fold_left out_step writing pending stdout].
    rewrite firstn_all, skipn_all. rewrite IH.
    cbn [map concat]. unfold line_of. now rewrite <- !app_assoc.
Qed.

(** Once the stream has flushed and resolved every write, stdout holds the
    lines of all the calls, whole and in call order. *)
Lemma drain_writes_all (evs : list OutEvent) :
  out_run (evs ++ drain (out_run evs)) =
    mkOut [] None (concat (map line_of (calls_of evs))).
Proof.
  unfold out_run at 1. rewrite fold_left_app. fold (out_run evs).
  destruct (out_run_serialized evs) as (done & H).
  destruct (out_run evs) as [pend wr out]. unfold drain.
  cbn [writing pending stdout] in *. destruct wr as [b|].
  - destruct H as (data & flushed & -> & Hl & ->).
    cbn [app fold_left out_step writing pending stdout].
    rewrite firstn_all, skipn_all. cbn [out_step writing pending stdout].
    rewrite drain_pending. f_equal.
    rewrite map_app, concat_app. cbn [map concat].
    rewrite Hl. now rewrite <- !app_assoc.
  - destruct H as (-> & ->). cbn [app]. rewrite drain_pending.
    now rewrite map_app, concat_app.
Qed.

Lemma lines_from_partial (p : jsstring) : forall cur,
  ~ In newline p -> lines_from cur p = [].
Proof.
  induction p as [|c p IH]; intros cur H; [reflexivity|].
  cbn [lines_from]. destruct (N.eqb_spec c newline) as [->|Hne].
  - exfalso. apply H. now left.
  - apply IH. intros Hin. apply H. now right.
Qed.

Lemma lines_from_line (d : jsstring) : forall cur rest,
  ~ In newline d ->
  lines_from cur (d ++ newline :: rest) = (cur ++ d) :: lines_from [] rest.
Proof.
  induction d as [|c d IH]; intros cur rest H.
  - cbn [app lines_from]. rewrite N.eqb_refl. now rewrite app_nil_r.
  - cbn [app lines_from]. destruct (N.eqb_spec c newline) as [->|Hne].
    + exfalso. apply H. now left.
    + rewrite IH by (intros Hin; apply H; now right).
      now rewrite <- app_assoc.
Qed.

Lemma complete_lines_whole (done : list jsstring) (tail : jsstring) :
  Forall (fun d => ~ In newline d) done ->
  complete_lines (concat (map line_of done) ++ tail) = done ++ complete_lines tail.
Proof.
  unfold complete_lines. induction 1 as [|d done Hd Hdone IH]; [reflexivity|].
  cbn [map concat]. unfold line_of at 1. rewrite <- !app_assoc. cbn [app].
  rewrite lines_from_line by assumption. cbn [app]. now rewrite IH.
Qed.

Lemma proper_prefix_of_line (d flushed unflushed : jsstring) :
  line_of d = flushed ++ unflushed -> unflushed <> [] ->
  exists more, d = flushed ++ more.
Proof.
  intros E Hne. destruct (exists_last Hne) as (more & x & ->).
  unfold line_of in E. rewrite app_assoc in E. apply app_inj_tail in E.
  exists more. tauto.
Qed.

Lemma serialized_lines (calls : list jsstring) (st : OutputState) :
  serialized calls st ->
  Forall (fun d => ~ In newline d) calls ->
  exists k partial,
    (k <= length calls)%nat /\
    stdout st = concat (map line_of (firstn k calls)) ++ partial /\
    complete_lines (stdout st) = firstn k calls /\
    (partial = [] \/
     exists d unflushed,
       nth_error calls k = Some d /\ line_of d = partial ++ unflushed /\
       unflushed <> []).
Proof.
  intros (done & H) Hclean. destruct (writing st) as [unflushed|].
  - destruct H as (data & flushed & -> & Hl & Ho).
    apply Forall_app in Hclean. destruct Hclean as (Hdone & Hrest).
    destruct unflushed as [|u unflushed].
    + (* the line in flight is flushed whole *)
      rewrite app_nil_r in Hl. subst flushed.
      exists (S (length done)), [].
      assert (E : firstn (S (length done)) (done ++ data :: pending st)
                  = done ++ [data]).
      { replace (done ++ data :: pending st) with ((done ++ [data]) ++ pending st)
          by (now rewrite <- app_assoc).
        rewrite firstn_app.
        replace (S (length done)) with (length (done ++ [data]))
          by (rewrite length_app; simpl; lia).
        now rewrite firstn_all, Nat.sub_diag, app_nil_r. }
      rewrite E. split; [rewrite length_app; simpl; lia|].
      split; [|split; [|now left]].
      * rewrite Ho, map_app, concat_app. cbn [map concat]. now rewrite !app_nil_r.
      * rewrite Ho.
        replace (concat (map line_of done) ++ line_of data)
          with (concat (map line_of (done ++ [data])) ++ [])
          by (rewrite map_app, concat_app; cbn [map concat]; now rewrite !app_nil_r).
        rewrite complete_lines_whole; [apply app_nil_r|].
        apply Forall_app. split; [assumption|].
        constructor; [now inversion Hrest | constructor].
    + exists (length done), flushed.
      assert (E : firstn (length done) (done ++ data :: pending st) = done).
      { now rewrite firstn_app, firstn_all, Nat.sub_diag, app_nil_r. }
      rewrite E. split; [rewrite length_app; lia|].
      split; [exact Ho|]. split.
      * rewrite Ho, complete_lines_whole by assumption.
        destruct (proper_prefix_of_line data flushed (u :: unflushed) Hl)
          as (more & Hd); [discriminate|].
        unfold complete_lines. rewrite lines_from_partial; [apply app_nil_r|].
        intros Hin. inversion Hrest as [|? ? Hdata _]. apply Hdata.
        rewrite Hd. apply in_or_app. now left.
      * right. exists data, (u :: unflushed). split; [|split].
        -- rewrite nth_error_app2 by lia. now rewrite Nat.sub_diag.
        -- exact Hl.
        -- discriminate.
  - destruct H as (-> & Ho).
    apply Forall_app in Hclean. destruct Hclean as (Hdone & Hrest).
    exists (length done), [].
    assert (E : firstn (length done) (done ++ pending st) = done).
    { now rewrite firstn_app, firstn_all, Nat.sub_diag, app_nil_r. }
    rewrite E. split; [rewrite length_app; lia|].
    split; [now rewrite app_nil_r|]. split; [|now left].
    rewrite Ho.
    replace (concat (map line_of done)) with (concat (map line_of done) ++ [])
      by apply app_nil_r.
    rewrite complete_lines_whole by assumption. apply app_nil_r.
Qed.

Lemma id_value_valid (id : RpcId) : numbers_valid (id_value id) = true.
Proof.
  destruct id; simpl; auto. apply Number_toString_lexeme.
Qed.

(** The responses the dispatcher sends are valid when their payload is. *)
Lemma error_response_valid (id : RpcId) (code : Z) (message : jsstring)
    (data : option JsonValue) :
  match data with Some d => numbers_valid d = true | None => True end ->
  numbers_valid (error_response id code message data) = true.
Proof.
  intros Hd. unfold error_response. cbn [numbers_valid forallb].
  rewrite id_value_valid. unfold JInt. cbn [numbers_valid app forallb].
  rewrite Number_toString_lexeme. destruct data; simpl; [now rewrite Hd | reflexivity].
Qed.

Lemma result_response_valid (id : RpcId) (result : JsonValue) :
  numbers_valid result = true ->
  numbers_valid (result_response id result) = true.
Proof.
  intros Hr. unfold result_response. cbn [numbers_valid forallb].
  now rewrite id_value_valid, Hr.
Qed.

(** C3: whatever the interleaving of [sendResponse] calls with the
    progress of the stream, (1) the text of a response holds no line feed
    and parses back as JSON to the response, so its line is one JSON line;
    (2) stdout holds the lines of the first [k] responses sent, whole and
    in the order of the calls, followed by at most a proper beginning of
    the line of the next response, so that the complete lines of stdout
    are exactly the texts of those [k] responses and no byte of a response
    lies inside another; (3) once the stream has caught up, the lines of
    all the responses are on stdout. *)
Theorem responses_written_whole (responses : list JsonValue) (evs : list OutEvent) :
  Forall (fun r => numbers_valid r = true) responses ->
  calls_of evs = map JSON_stringify responses ->
  let line := fun r => JSON_stringify r ++ [newline] in
  Forall (fun r => ~ In newline (JSON_stringify r) /\
                   JSON_parse (JSON_stringify r) = Some r) responses /\
  (exists k partial,
     (k <= length responses)%nat /\
     stdout (out_run evs) = concat (map line (firstn k responses)) ++ partial /\
     complete_lines (stdout (out_run evs)) = map JSON_stringify (firstn k responses) /\
     (partial = [] \/
      exists r unflushed,
        nth_error responses k = Some r /\ line r = partial ++ unflushed /\
        unflushed <> [])) /\
  out_run (evs ++ drain (out_run evs)) =
    mkOut [] None (concat (map line responses)).
Proof.
  intros Hvalid Hcalls line.
  assert (Hone : Forall (fun r => ~ In newline (JSON_stringify r)) responses).
  { rewrite Forall_forall in *. intros r Hr. apply JSON_stringify_no_newline. auto. }
  split.
  { rewrite Forall_forall in *. intros r Hr. split; [now apply Hone|].
    apply JSON_parse_stringify. auto. }
  split.
  - destruct (serialized_lines (calls_of evs) (out_run evs)) as (k & partial & Hk & Ho & Hl & Hp).
    + apply out_run_serialized.
    + rewrite Hcalls. now apply Forall_map.
    + exists k, partial. rewrite Hcalls, length_map in Hk.
      rewrite Hcalls, firstn_map in Ho, Hl. rewrite map_map in Ho.
      split; [exact Hk|]. split; [exact Ho|]. split; [exact Hl|].
      destruct Hp as [Hp|(d & unflushed & Hn & Hd & Hu)]; [now left|right].
      rewrite Hcalls in Hn. rewrite nth_error_map in Hn.
      destruct (nth_error responses k) as [r|]; [|discriminate].
      injection Hn as <-. exists r, unflushed. repeat split; assumption.
  - rewrite drain_writes_all, Hcalls, map_map. reflexivity.
Qed.

Lemma responses_written_whole_witness :
  let r1 := error_response (IdNumber 1) (-32603) (lit "Claude CLI error")
              (Some (JString [108; 105; 110; 101; 10; 116; 119; 111]%N)) in
  let r2 := result_response (IdString (lit "b")) (text_content (lit "ok")) in
  let evs := [ Send r1; Resume; Flush 10; Send r2; Flush 7; Resume; Flush 200;
               Written; Resume; Flush 3 ] in
  let line := fun r => JSON_stringify r ++ [newline] in
  Forall (fun r => ~ In newline (JSON_stringify r) /\
                   JSON_parse (JSON_stringify r) = Some r) [r1; r2] /\
  (exists k partial,
     (k <= length [r1; r2])%nat /\
     stdout (out_run evs) = concat (map line (firstn k [r1; r2])) ++ partial /\
     complete_lines (stdout (out_run evs)) = map JSON_stringify (firstn k [r1; r2]) /\
     (partial = [] \/
      exists r unflushed,
        nth_error [r1; r2] k = Some r /\ line r = partial ++ unflushed /\
        unflushed <> [])) /\
  out_run (evs ++ drain (out_run evs)) =
    mkOut [] None (concat (map line [r1; r2])).
Proof.
  intros r1 r2 evs.
  apply (responses_written_whole [r1; r2] evs).
  - repeat constructor.
  - reflexivity.
Defined.

(** The same run, computed: the first response is on stdout whole, the
    second has its first three bytes there. *)
Example two_responses_run :
  let r1 := error_response (IdNumber 1) (-32603) (lit "Claude CLI error")
              (Some (JString [108; 105; 110; 101; 10; 116; 119; 111]%N)) in
  let r2 := result_response (IdString (lit "b")) (text_content (lit "ok")) in
  stdout (out_run [ Send r1; Resume; Flush 10; Send r2; Flush 7; Resume; Flush 200;
                    Written; Resume; Flush 3 ])
  = litq "{'jsonrpc':'2.0','id':1,'error':{'code':-32603,'message':'Claude CLI error','data':'line\ntwo'}}"
    ++ [newline] ++ litq "{'j".
Proof. reflexivity. Qed.

(** * Further properties *)

(** ** The effects of plain retry *)

Section RetryEffects.

Variables (prompt : jsstring) (args : list jsval) (timeoutMs maxR : Z).

Let outc (w : World) (i : nat) : ClaudeExecutionResult :=
  settle (claude w (spawned w + i)%nat prompt args timeoutMs).

Lemma attempts_made_shift (f g : nat -> ClaudeExecutionResult) (n : nat) :
  forall a b, (forall i, f (a + i)%nat = g (b + i)%nat) ->
  attempts_made f a n = attempts_made g b n.
Proof.
  induction n as [|n IH]; intros a b H; [reflexivity|]. cbn [attempts_made].
  pose proof (H 0%nat) as H0. rewrite !Nat.add_0_r in H0. rewrite H0.
  destruct (success (g b)); [reflexivity|]. f_equal. apply IH.
  intros i. specialize (H (S i)). now rewrite !Nat.add_succ_r in H.
Qed.

Lemma attempts_trace_shift (spawn : Effect) (f g : nat -> ClaudeExecutionResult)
    (k : nat) :
  forall a b, (forall i, f (a + i)%nat = g (b + i)%nat) ->
  attempts_trace spawn f a k = attempts_trace spawn g b k.
Proof.
  induction k as [|k IH]; intros a b H; [reflexivity|]. cbn [attempts_trace].
  f_equal. destruct k as [|k']; [reflexivity|].
  pose proof (H 0%nat) as H0. rewrite !Nat.add_0_r in H0. rewrite H0.
  f_equal. apply IH.
  intros i. specialize (H (S i)). now rewrite !Nat.add_succ_r in H.
Qed.

Lemma after_after (w : World) (a b : nat) (e f : list Effect) :
  after (after w a e) b f = after w (a + b) (e ++ f).
Proof.
  unfold after. cbn [claude spawned trace]. f_equal; [lia | now rewrite app_assoc].
Qed.

Lemma outc_after (w : World) (a : nat) (e : list Effect) (i : nat) :
  outc (after w a e) i = outc w (a + i).
Proof. unfold outc, after. cbn [claude spawned]. now rewrite Nat.add_assoc. Qed.

(** The world after the loop over the attempts [a .. maxR]. *)
Lemma retry_loop_world (n : nat) : forall (a : nat) (w : World),
  Z.of_nat (a + n) = maxR + 1 ->
  let k := attempts_made (outc w) 0 n in
  snd (retry_loop prompt args timeoutMs maxR (map Z.of_nat (seq a n)) w) =
    after w k (attempts_trace (Spawn prompt args timeoutMs) (outc w) 0 k).
Proof.
  induction n as [|n IH]; intros a w Hmax; cbn zeta.
  - cbn [seq map retry_loop attempts_made attempts_trace]. unfold ret, after.
    cbn [snd]. rewrite Nat.add_0_r, app_nil_r. now destruct w.
  - cbn [seq map]. rewrite retry_loop_step. cbn zeta. cbn [attempts_made].
    fold (outc w 0).
    cbn [trace].
    assert (W1 : mkWorld (claude w) (S (spawned w)) (trace w ++ [Spawn prompt args timeoutMs])
                 = after w 1 [Spawn prompt args timeoutMs]).
    { unfold after. f_equal. lia. }
    assert (W2 : forall d,
              mkWorld (claude w) (S (spawned w))
                ((trace w ++ [Spawn prompt args timeoutMs]) ++ [Sleep d])
              = after w 1 [Spawn prompt args timeoutMs; Sleep d]).
    { intros d. unfold after. f_equal; [lia | now rewrite <- app_assoc]. }
    rewrite W1, !W2.
    destruct (success (outc w 0)) eqn:Eok; [reflexivity|].
    assert (Hnext : forall e,
              snd (retry_loop prompt args timeoutMs maxR (map Z.of_nat (seq (S a) n))
                     (after w 1 e)) =
              after w (S (attempts_made (outc w) 1 n))
                (e ++ attempts_trace (Spawn prompt args timeoutMs) (outc w) 1
                        (attempts_made (outc w) 1 n))).
    { intros e. rewrite IH by lia. cbn zeta. rewrite after_after.
      rewrite (attempts_made_shift (outc (after w 1 e)) (outc w) n 0 1)
        by (intros i; now rewrite outc_after).
      rewrite (attempts_trace_shift _ (outc (after w 1 e)) (outc w) _ 0 1)
        by (intros i; now rewrite outc_after).
      reflexivity. }
    destruct n as [|m].
    + (* the last attempt *)
      assert (Hlt : (Z.of_nat a <? maxR) = false) by (apply Z.ltb_ge; lia).
      rewrite Hlt. cbn [seq map retry_loop attempts_made attempts_trace].
      unfold ret. destruct (is_timeout_code _); reflexivity.
    + assert (Hlt : (Z.of_nat a <? maxR) = true) by (apply Z.ltb_lt; lia).
      rewrite Hlt.
      assert (Hpos : exists j, attempts_made (outc w) 1 (S m) = S j).
      { cbn [attempts_made]. destruct (success (outc w 1)); eexists; reflexivity. }
      destruct Hpos as (j & Hj).
      unfold backoff.
      destruct (is_timeout_code (exitCode (outc w 0))) eqn:Et;
        rewrite Hnext; rewrite Hj; cbn [attempts_trace app];
        unfold backoff; rewrite Et; reflexivity.
Qed.

End RetryEffects.

Lemma attempts_made_le (outcome : nat -> ClaudeExecutionResult) (n : nat) :
  forall first, (attempts_made outcome first n <= n)%nat.
Proof.
  induction n as [|n IH]; intros first; cbn [attempts_made]; [lia|].
  destruct (success (outcome first)); [lia|]. specialize (IH (S first)). lia.
Qed.

Lemma runWithRetry_after (prompt : jsstring) (options : ClaudeCliOptions)
    (w : World) :
  let N := Z.to_nat (maxRetries options) in
  let outcome := attempt_outcome w prompt options in
  let k := attempts_made outcome 1 N in
  snd (runWithRetry prompt options w) =
    after w k
      (attempts_trace
         (Spawn prompt (buildClaudeArgs options) (timeout options * 1000))
         outcome 1 k).
Proof.
  intros N outcome k.
  unfold runWithRetry. rewrite attempts_of_seq. fold N.
  assert (Hout : forall i, settle (claude w (spawned w + i)%nat prompt
                                     (buildClaudeArgs options) (timeout options * 1000))
                           = outcome (1 + i)%nat).
  { intros i. unfold outcome, attempt_outcome. do 2 f_equal. lia. }
  destruct (Z.le_gt_cases 1 (maxRetries options)) as [H1|H0].
  - rewrite retry_loop_world by lia. cbn zeta. subst k.
    rewrite (attempts_made_shift _ outcome N 0 1) by (intros i; apply Hout).
    rewrite (attempts_trace_shift _ _ outcome _ 0 1) by (intros i; apply Hout).
    reflexivity.
  - assert (HN : N = 0%nat) by (unfold N; lia). subst k. rewrite HN.
    cbn [seq map retry_loop attempts_made attempts_trace]. unfold ret, after.
    cbn [snd]. rewrite Nat.add_0_r, app_nil_r. now destruct w.
Qed.

(** X1: the effects of [runWithRetry].  With [N] the number of attempts
    allowed and [k <= N] the number made (up to the first success, or all),
    the call spawns the CLI [k] times, always with the same prompt,
    arguments and timeout, and between two consecutive spawns waits once:
    5000 ms when the earlier attempt ended with exit code 124 or 137, and
    2000 ms otherwise.  Nothing precedes the first spawn and nothing
    follows the last. *)
Theorem runWithRetry_effects (prompt : jsstring) (options : ClaudeCliOptions)
    (w : World) :
  let N := Z.to_nat (maxRetries options) in
  let outcome := attempt_outcome w prompt options in
  let k := attempts_made outcome 1 N in
  (k <= N)%nat /\
  snd (runWithRetry prompt options w) =
    after w k
      (attempts_trace
         (Spawn prompt (buildClaudeArgs options) (timeout options * 1000))
         outcome 1 k).
Proof.
  intros N outcome k. split; [apply attempts_made_le | apply runWithRetry_after].
Qed.

Lemma runWithRetry_effects_witness :
  let options := parseToolArguments (arguments_of (lit "x") None) in
  let spawn := Spawn (lit "x") (buildClaudeArgs options) 660000 in
  trace (snd (runWithRetry (lit "x") options
                (fresh_world (scripted [run_timed_out; run_exit 2 [] (lit "boom")]
                                (run_exit 0 (lit "ok") [])))))
  = [spawn; Sleep 5000; spawn; Sleep 2000; spawn].
Proof.
  intros options spawn.
  rewrite (proj2 (runWithRetry_effects (lit "x") options
                    (fresh_world (scripted [run_timed_out; run_exit 2 [] (lit "boom")]
                                    (run_exit 0 (lit "ok") []))))).
  reflexivity.
Defined.

(** ** Outcomes are coherent *)

Lemma on_close_coherent (st : ProcState) (code : option Z) :
  coherent (on_close st code).
Proof.
  unfold on_close, coherent. destruct (killed st).
  { cbn. repeat split; discriminate. }
  assert (Hmsg : forall tail : jsstring,
            (if truthy (Buffer_concat (errorChunks st)) then Buffer_concat (errorChunks st)
             else if truthy (Buffer_concat (chunks st)) then Buffer_concat (chunks st)
             else lit "Exit code: " ++ tail) <> []).
  { intros tail.
    destruct (Buffer_concat (errorChunks st)); [|discriminate].
    destruct (Buffer_concat (chunks st)); discriminate. }
  destruct code as [[|p|p]|]; cbn [success exitCode output].
  - repeat split; discriminate.
  - split; [split; discriminate | intros _; apply Hmsg].
  - split; [split; discriminate | intros _; apply Hmsg].
  - split; [split; discriminate | intros _; apply Hmsg].
Qed.

Lemma settle_coherent (run : ProcRun) : coherent (settle run).
Proof.
  unfold settle. destruct (ending run) as [code|message].
  - apply on_close_coherent.
  - unfold coherent. cbn. repeat split; discriminate.
Qed.

Lemma max_retries_result_coherent (maxR : Z) : coherent (max_retries_result maxR).
Proof. unfold coherent. cbn. repeat split; discriminate. Qed.

Lemma retry_loop_coherent (prompt : jsstring) (args : list jsval)
    (timeoutMs maxR : Z) (attempts : list Z) :
  forall w, coherent (fst (retry_loop prompt args timeoutMs maxR attempts w)).
Proof.
  induction attempts as [|attempt rest IH]; intros w.
  - apply max_retries_result_coherent.
  - rewrite retry_loop_step. cbn zeta.
    pose proof (settle_coherent (claude w (spawned w + 0)%nat prompt args timeoutMs)) as Hc.
    destruct (success _) eqn:Eok; [exact Hc|].
    destruct (is_timeout_code _); [apply IH|].
    destruct (attempt <? maxR); [apply IH | exact Hc].
Qed.

Lemma json_retries_result_coherent (maxR : Z) (errors : list jsstring) :
  coherent (json_retries_result maxR errors).
Proof. unfold coherent. cbn. repeat split; discriminate. Qed.

(** What a result of [extractJsonContent] is. *)
Lemma extractJsonContent_Some (text candidate : jsstring) :
  extractJsonContent text = Some candidate ->
  exists pre mid post v,
    text = pre ++ candidate ++ post /\ candidate = ch "{" :: mid ++ [ch "}"] /\
    ~ In (ch "{") pre /\ ~ In (ch "}") post /\ JSON_parse candidate = Some v.
Proof.
  intros E.
  destruct (in_dec N.eq_dec (ch "{") text) as [Ho|Ho];
    [|rewrite extractJsonContent_no_open in E by assumption; discriminate].
  destruct (in_dec N.eq_dec (ch "}") text) as [Hc|Hc];
    [|rewrite extractJsonContent_no_close in E by assumption; discriminate].
  destruct (first_split _ _ Ho) as (p & r & Ep & Hp).
  destruct (last_split _ _ Hc) as (q & t & Eq & Ht).
  assert (Hne : ch "{" <> ch "}") by discriminate.
  assert (E2 : p ++ ch "{" :: r = q ++ ch "}" :: t) by congruence.
  destruct (two_splits _ _ p r q t Hne E2) as [(mid & -> & ->)|(mid & -> & ->)].
  - assert (Et : text = p ++ (ch "{" :: mid ++ [ch "}"]) ++ t).
    { rewrite Ep. cbn [app]. now rewrite <- app_assoc. }
    rewrite Et, extractJsonContent_candidate in E by assumption.
    destruct (JSON_parse (ch "{" :: mid ++ [ch "}"])) as [v|] eqn:Ev; [|discriminate].
    injection E as <-. exists p, mid, t, v. repeat split; assumption.
  - exfalso. rewrite Eq in E.
    rewrite extractJsonContent_close_before_open in E; try discriminate.
    + intros H. apply Hp. apply in_or_app. now left.
    + intros H. apply Hp. apply in_or_app. right. now right.
    + intros H. apply Ht. apply in_or_app. now left.
    + intros H. apply Ht. apply in_or_app. right. now right.
Qed.

(** ** The JSON-validating retry *)

Lemma parse_members_object (fuel : nat) : forall s acc v r,
  parse_members fuel s acc = Parsed v r -> exists members, v = JObject members.
Proof.
  induction fuel as [|fuel IH]; intros s acc v r; [discriminate|].
  cbn [parse_members].
  destruct s as [|q rest]; [discriminate|].
  destruct (q =? dquote)%N; [|discriminate].
  destruct (lex_string rest) as [[key rest1]|]; [|discriminate].
  destruct (skip_ws rest1) as [|d rest2]; [discriminate|].
  destruct (d =? ch ":")%N; [|discriminate].
  destruct (parse_value fuel (skip_ws rest2)) as [x rest3| |]; try discriminate.
  destruct (skip_ws rest3) as [|e rest4]; [discriminate|].
  destruct (e =? ch ",")%N; [apply IH|].
  destruct (e =? ch "}")%N; [|discriminate].
  intros E. injection E as <- _. eexists. reflexivity.
Qed.

(** A text that starts with a brace parses to an object, if at all. *)
Lemma JSON_parse_object (t : jsstring) (v : JsonValue) :
  JSON_parse (ch "{" :: t) = Some v -> exists members, v = JObject members.
Proof.
  unfold JSON_parse. cbn [skip_ws]. change (is_ws (ch "{")) with false. cbn iota.
  destruct (fuel_for (ch "{" :: t)) as [|fuel]; [discriminate|].
  cbn [parse_value]. change (ch "{" =? ch "{")%N with true. cbn iota.
  destruct (skip_ws t) as [|d rest1]; [discriminate|].
  destruct (d =? ch "}")%N.
  - destruct (skip_ws rest1); [|discriminate]. intros E. injection E as <-.
    eexists. reflexivity.
  - destruct (parse_members fuel (d :: rest1) []) as [x r| |] eqn:E; try discriminate.
    destruct (skip_ws r); [|discriminate]. intros E'. injection E' as <-.
    now apply parse_members_object in E.
Qed.

(** A result of [extractJsonContent] is the text of a JSON object, and
    extracting from it gives it back. *)
Lemma extractJsonContent_object (text c : jsstring) :
  extractJsonContent text = Some c ->
  (exists members, JSON_parse c = Some (JObject members)) /\
  extractJsonContent c = Some c.
Proof.
  intros E. destruct (extractJsonContent_Some _ _ E)
    as (pre & mid & post & v & _ & Ec & _ & _ & Ev).
  split.
  - rewrite Ec in Ev. destruct (JSON_parse_object _ _ Ev) as (m & ->).
    exists m. now rewrite Ec.
  - pose proof (extractJsonContent_candidate [] mid []) as H.
    cbn zeta in H. rewrite app_nil_r in H. cbn [app] in H.
    rewrite Ec. rewrite H by (intros []). rewrite <- Ec. now rewrite Ev.
Qed.

Lemma json_content_Some (out c : jsstring) :
  json_content out = Some c -> exists text, extractJsonContent text = Some c.
Proof.
  unfold json_content.
  destruct (extractJsonContent (extractResultText out)) as [c1|] eqn:E1.
  - cbn [content_truthy]. destruct (truthy c1) eqn:Et; cbn [negb].
    + cbn [content_truthy]. rewrite Et. intros E. injection E as <-. eauto.
    + destruct (extractJsonContent out) as [c2|] eqn:E2; cbn [content_truthy].
      * destruct (truthy c2); [|discriminate]. intros E. injection E as <-. eauto.
      * discriminate.
  - cbn [content_truthy negb].
    destruct (extractJsonContent out) as [c2|] eqn:E2; cbn [content_truthy].
    + destruct (truthy c2); [|discriminate]. intros E. injection E as <-. eauto.
    + discriminate.
Qed.

Lemma json_retry_loop_step (prompt : jsstring) (options : ClaudeCliOptions)
    (attempt : Z) (rest : list Z) (errors : list jsstring) (w : World) :
  let r := fst (runWithRetry prompt (with_json_single options) w) in
  let spawn := json_spawn prompt options in
  json_retry_loop prompt options (attempt :: rest) errors w =
    if negb (success r) then
      json_retry_loop prompt options rest
        (errors ++ [attempt_tag attempt (lit "AI execution failed: " ++ output r)])
        (after w 1 [spawn])
    else
      match json_content (output r) with
      | Some content => (mkResult true content 0, after w 1 [spawn])
      | None =>
        json_retry_loop prompt options rest
          (errors ++ [attempt_tag attempt (lit "JSON parsing failed")])
          (if attempt <? maxRetries options then after w 1 [spawn; Sleep 2000]
           else after w 1 [spawn])
      end.
Proof.
  cbn zeta. cbn [json_retry_loop]. unfold bind at 1.
  pose proof (runWithRetry_single prompt options w) as Hs. cbn zeta in Hs.
  destruct (runWithRetry prompt (with_json_single options) w) as [r w1] eqn:E.
  injection Hs as Hr Hw. cbn [fst].
  assert (Hw1 : w1 = after w 1 [json_spawn prompt options]).
  { rewrite Hw. unfold after, json_spawn. f_equal. lia. }
  destruct (success r); cbn [negb].
  - unfold json_content.
    destruct (if content_truthy
                   (if negb (content_truthy (extractJsonContent (extractResultText (output r))))
                    then extractJsonContent (output r)
                    else extractJsonContent (extractResultText (output r)))
              then _ else None) as [content|].
    + unfold ret. now rewrite Hw1.
    + unfold bind. rewrite Hw1.
      destruct (attempt <? maxRetries options).
      * unfold sleep, emit, after. cbn [claude spawned trace].
        now rewrite <- app_assoc.
      * reflexivity.
  - now rewrite Hw1.
Qed.

Lemma json_retry_loop_inv (prompt : jsstring) (options : ClaudeCliOptions)
    (attempts : list Z) : forall errors w,
  let res := json_retry_loop prompt options attempts errors w in
  exists k effs,
    (k <= length attempts)%nat /\
    snd res = after w k effs /\
    Forall (fun e => e = json_spawn prompt options \/ e = Sleep 2000) effs /\
    (success (fst res) = true ->
     exitCode (fst res) = 0 /\
     exists text, extractJsonContent text = Some (output (fst res))) /\
    (success (fst res) = false ->
     k = length attempts /\
     exists more,
       fst res = json_retries_result (maxRetries options) (errors ++ more) /\
       Forall2 tagged attempts more).
Proof.
  induction attempts as [|attempt rest IH]; intros errors w; cbn zeta.
  - exists 0%nat, []. cbn [json_retry_loop]. unfold ret. cbn [fst snd length].
    split; [lia|]. split.
    { unfold after. rewrite Nat.add_0_r, app_nil_r. now destruct w. }
    split; [constructor|]. split; [discriminate|]. intros _.
    split; [reflexivity|]. exists []. rewrite app_nil_r.
    split; [reflexivity | constructor].
  - rewrite json_retry_loop_step. cbn zeta.
    assert (Hnext : forall e1 errors1 msg,
              Forall (fun e => e = json_spawn prompt options \/ e = Sleep 2000) e1 ->
              errors1 = errors ++ [attempt_tag attempt msg] ->
              let res := json_retry_loop prompt options rest errors1 (after w 1 e1) in
              exists k effs,
                (k <= length (attempt :: rest))%nat /\
                snd res = after w k effs /\
                Forall (fun e => e = json_spawn prompt options \/ e = Sleep 2000) effs /\
                (success (fst res) = true ->
                 exitCode (fst res) = 0 /\
                 exists text, extractJsonContent text = Some (output (fst res))) /\
                (success (fst res) = false ->
                 k = length (attempt :: rest) /\
                 exists more,
                   fst res = json_retries_result (maxRetries options) (errors ++ more) /\
                   Forall2 tagged (attempt :: rest) more)).
    { intros e1 errors1 msg He1 ->. cbn zeta.
      destruct (IH (errors ++ [attempt_tag attempt msg]) (after w 1 e1))
        as (k & effs & Hk & Hw & Heffs & Hok & Hfail).
      exists (1 + k)%nat, (e1 ++ effs). split; [cbn [length]; lia|].
      split; [now rewrite Hw, after_after|].
      split; [now apply Forall_app|]. split; [exact Hok|].
      intros Hf. destruct (Hfail Hf) as (-> & more & Hres & Htags).
      split; [reflexivity|]. exists (attempt_tag attempt msg :: more).
      split; [now rewrite Hres, <- app_assoc|].
      constructor; [now exists msg | assumption]. }
    assert (Hs1 : Forall (fun e => e = json_spawn prompt options \/ e = Sleep 2000)
                    [json_spawn prompt options]) by (repeat constructor).
    assert (Hs2 : Forall (fun e => e = json_spawn prompt options \/ e = Sleep 2000)
                    [json_spawn prompt options; Sleep 2000])
      by (constructor; [now left | constructor; [now right | constructor]]).
    destruct (success (fst (runWithRetry prompt (with_json_single options) w)));
      cbn [negb].
    + destruct (json_content _) as [content|] eqn:Ec.
      * exists 1%nat, [json_spawn prompt options]. cbn [fst snd length].
        split; [lia|]. split; [reflexivity|]. split; [exact Hs1|].
        split; [|discriminate]. intros _. split; [reflexivity|].
        cbn [output]. now apply json_content_Some in Ec.
      * destruct (attempt <? maxRetries options);
          [apply (Hnext _ _ (lit "JSON parsing failed") Hs2 eq_refl)
          |apply (Hnext _ _ (lit "JSON parsing failed") Hs1 eq_refl)].
    + apply (Hnext _ _ _ Hs1 eq_refl).
Qed.

Lemma attempts_of_length (maxR : Z) : length (attempts_of maxR) = Z.to_nat maxR.
Proof. unfold attempts_of. now rewrite length_map, length_seq. Qed.

(** X2: every outcome the runner and the two retry controllers return is
    coherent: it is a success exactly when its exit code is 0, and a failure
    always carries a non-empty message. *)
Theorem outcomes_coherent (prompt : jsstring) (options : ClaudeCliOptions)
    (args : list jsval) (timeoutMs : Z) (w : World) :
  coherent (fst (executeClaudeCli prompt args timeoutMs w)) /\
  coherent (fst (runWithRetry prompt options w)) /\
  coherent (fst (runJsonWithRetry prompt options w)).
Proof.
  split; [apply settle_coherent|]. split; [apply retry_loop_coherent|].
  unfold runJsonWithRetry.
  destruct (json_retry_loop_inv prompt options (attempts_of (maxRetries options)) [] w)
    as (k & effs & _ & _ & _ & Hok & Hfail).
  destruct (success (fst (json_retry_loop prompt options _ [] w))) eqn:Es.
  - destruct (Hok eq_refl) as (Hcode & text & Ht). unfold coherent.
    rewrite Es, Hcode. repeat split; discriminate.
  - destruct (Hfail eq_refl) as (_ & more & Hres & _). rewrite Hres.
    apply json_retries_result_coherent.
Qed.

(** X3: a successful outcome of [runJsonWithRetry] has exit code 0 and
    its output is the text of a JSON object, from which [extractJsonContent]
    extracts that same text. *)
Theorem runJsonWithRetry_success (prompt : jsstring) (options : ClaudeCliOptions)
    (w : World) :
  let r := fst (runJsonWithRetry prompt options w) in
  success r = true ->
  exitCode r = 0 /\
  (exists members, JSON_parse (output r) = Some (JObject members)) /\
  extractJsonContent (output r) = Some (output r).
Proof.
  intros r Hs. unfold r, runJsonWithRetry in *.
  destruct (json_retry_loop_inv prompt options (attempts_of (maxRetries options)) [] w)
    as (k & effs & _ & _ & _ & Hok & _).
  destruct (Hok Hs) as (Hcode & text & Ht). split; [exact Hcode|].
  now apply extractJsonContent_object in Ht.
Qed.

Lemma runJsonWithRetry_success_witness :
  let w := fresh_world (scripted [run_exit 0 (lit "no json here") []]
             (run_exit 0 (litq "{'result':'Sure: {\'a\':[1,2]} Done.'}") [])) in
  let r := fst (runJsonWithRetry (lit "x")
                  (parseToolArguments (arguments_of (lit "x") None)) w) in
  output r = litq "{'a':[1,2]}" /\
  exitCode r = 0 /\
  (exists members, JSON_parse (output r) = Some (JObject members)) /\
  extractJsonContent (output r) = Some (output r).
Proof.
  intros w r. split; [reflexivity|].
  apply (runJsonWithRetry_success (lit "x")
           (parseToolArguments (arguments_of (lit "x") None)) w).
  reflexivity.
Defined.

Lemma json_report_valid (maxR : Z) (errors : list jsstring) :
  numbers_valid (json_report maxR errors) = true.
Proof.
  unfold json_report, JInt. cbn [numbers_valid forallb].
  now rewrite Number_toString_lexeme.
Qed.



(** The report of that run, computed. *)
Example runJsonWithRetry_failure_report :
  output (fst (runJsonWithRetry (lit "x")
                 (parseToolArguments (arguments_of (lit "x") None))
                 (fresh_world (scripted [run_exit 0 (lit "no json") []; run_timed_out]
                                 (run_exit 2 [] (lit "boom"))))))
  = litq "{'error':'Max retries reached','attempts':3,'errors':'[1] JSON parsing failed\n[2] AI execution failed: Max retries reached after 1 attempts\n[3] AI execution failed: boom'}".
Proof. reflexivity. Qed.

(** X5: the effects of [runJsonWithRetry] are spawns of the CLI and waits
    of 2000 ms, nothing else: at most [maxRetries] spawns, all with the same
    prompt, timeout and arguments, and these arguments ask for the [json]
    output format whatever format the caller's options name. *)
Theorem runJsonWithRetry_effects (prompt : jsstring) (options : ClaudeCliOptions)
    (w : World) :
  let args := buildClaudeArgs (with_json_single options) in
  (exists k effs,
     (k <= Z.to_nat (maxRetries options))%nat /\
     snd (runJsonWithRetry prompt options w) = after w k effs /\
     Forall (fun e => e = Spawn prompt args (timeout options * 1000) \/ e = Sleep 2000)
       effs) /\
  nth_error args 4 = Some (JsStr (lit "--output-format")) /\
  nth_error args 5 = Some (JsStr (lit "json")).
Proof.
  intros args. split; [|split; reflexivity].
  unfold runJsonWithRetry.
  destruct (json_retry_loop_inv prompt options (attempts_of (maxRetries options)) [] w)
    as (k & effs & Hk & Hw & Heffs & _).
  exists k, effs. rewrite attempts_of_length in Hk. repeat split; assumption.
Qed.

(** ** The answers of the dispatcher *)

Lemma attempts_trace_silent (spawn : Effect) (outcome : nat -> ClaudeExecutionResult)
    (k : nat) : forall first,
  silent spawn -> Forall silent (attempts_trace spawn outcome first k).
Proof.
  induction k as [|k IH]; intros first Hs; cbn [attempts_trace]; [constructor|].
  constructor; [exact Hs|]. destruct k as [|k']; [constructor|].
  constructor; [exact I | now apply IH].
Qed.

Lemma sendResponse_after (response : JsonValue) (w : World) :
  sendResponse response w = (tt, after w 0 [Output (JSON_stringify response)]).
Proof.
  unfold sendResponse, atomicOutput, emit, after. now rewrite Nat.add_0_r.
Qed.

Lemma text_content_valid (text : jsstring) : numbers_valid (text_content text) = true.
Proof. reflexivity. Qed.

(** What [handleToolCall] does, by the tool: the retry controller runs to
    its outcome, then one response is queued. *)
Lemma handleToolCall_plain (id : RpcId) (params : McpToolCallParams) (w : World) :
  In (name params) [lit "claude_generate"; lit "claude_edit"; lit "claude_refactor"] ->
  let options := parseToolArguments (arguments params) in
  let res := runWithRetry (arg_prompt (arguments params)) options w in
  handleToolCall id params w =
    sendResponse
      (if success (fst res)
       then result_response id (text_content (extractResultText (output (fst res))))
       else error_response id (-32603) (lit "Claude CLI error")
              (Some (JString (output (fst res)))))
      (snd res).
Proof.
  intros Hn options res. unfold handleToolCall.
  assert (Hv : mem (name params) VALID_TOOL_NAMES = true).
  { rewrite VALID_TOOL_NAMES_eq. apply mem_In. simpl in *. tauto. }
  apply mem_In in Hn. rewrite Hv, Hn. cbn [negb]. fold options.
  unfold bind. fold res. destruct res as [r w1]. cbn [fst snd].
  destruct (success r); reflexivity.
Qed.

Lemma handleToolCall_json (id : RpcId) (params : McpToolCallParams) (w : World) :
  In (name params) [lit "claude_generate_json"; lit "claude_edit_json"] ->
  let options := parseToolArguments (arguments params) in
  let res := runJsonWithRetry (arg_prompt (arguments params)) options w in
  handleToolCall id params w =
    sendResponse
      (if success (fst res)
       then result_response id (text_content (output (fst res)))
       else error_response id (-32603) (lit "JSON validation error")
              (Some (JString (output (fst res)))))
      (snd res).
Proof.
  intros Hn options res. unfold handleToolCall.
  assert (Hv : mem (name params) VALID_TOOL_NAMES = true).
  { rewrite VALID_TOOL_NAMES_eq. apply mem_In. simpl in *. tauto. }
  assert (Hp : mem (name params)
                 [lit "claude_generate"; lit "claude_edit"; lit "claude_refactor"] = false).
  { apply mem_not_In. simpl in *. intros [H|[H|[H|[]]]];
      destruct Hn as [H'|[H'|[]]]; rewrite <- H in H'; discriminate H'. }
  apply mem_In in Hn. rewrite Hv, Hp, Hn. cbn [negb]. fold options.
  unfold bind. fold res. destruct res as [r w1]. cbn [fst snd].
  destruct (success r); reflexivity.
Qed.

Lemma handleToolCall_unknown (id : RpcId) (params : McpToolCallParams) (w : World) :
  ~ In (name params) VALID_TOOL_NAMES ->
  handleToolCall id params w =
    sendResponse
      (error_response id (-32601) (lit "Unknown tool: " ++ name params) None) w.
Proof.
  intros Hn. unfold handleToolCall. apply mem_not_In in Hn. now rewrite Hn.
Qed.

Lemma tool_name_cases (n : jsstring) :
  ~ In n VALID_TOOL_NAMES \/
  In n [lit "claude_generate"; lit "claude_edit"; lit "claude_refactor"] \/
  In n [lit "claude_generate_json"; lit "claude_edit_json"].
Proof.
  destruct (mem n VALID_TOOL_NAMES) eqn:E.
  - right. apply mem_In in E. rewrite VALID_TOOL_NAMES_eq in E. simpl in *. tauto.
  - left. now apply mem_not_In.
Qed.


Lemma attempts_of_nonpositive (maxR : Z) : maxR <= 0 -> attempts_of maxR = [].
Proof. intros H. unfold attempts_of. now replace (Z.to_nat maxR) with 0%nat by lia. Qed.

Lemma attempts_of_positive (maxR : Z) :
  1 <= maxR -> exists rest, attempts_of maxR = 1 :: rest.
Proof.
  intros H. unfold attempts_of.
  destruct (Z.to_nat maxR) as [|n] eqn:E; [lia|]. cbn [seq map]. eauto.
Qed.

(** The envelope the CLI prints is read back: the text [JSON.stringify]
    gives for an object whose [result] is a non-empty string yields that
    string. *)
Lemma extractResultText_stringify (members : list (jsstring * JsonValue))
    (result : jsstring) :
  numbers_valid (JObject members) = true ->
  last_member (lit "result") members = Some (JString result) ->
  result <> [] ->
  extractResultText (JSON_stringify (JObject members)) = result.
Proof.
  intros Hv Hm Hr. unfold extractResultText.
  rewrite JSON_parse_stringify by assumption. cbn [read_result]. rewrite Hm.
  cbn [truthy_string]. destruct result; [congruence | reflexivity].
Qed.

(** X7: the way of a result through the system.  When a generate, edit or
    refactor call allows at least one attempt and the first run of the CLI
    exits with code 0, before the timeout, having printed the JSON text of
    an object whose [result] member is a non-empty string, the call is
    answered after that one spawn, without any wait, by a result whose
    single text item is that string. *)
Theorem handleToolCall_result_text (id : RpcId) (params : McpToolCallParams)
    (w : World) (members : list (jsstring * JsonValue)) (result : jsstring) :
  let args := arguments params in
  let options := parseToolArguments args in
  let cli_args := buildClaudeArgs options in
  let run := claude w (spawned w) (arg_prompt args) cli_args (timeout options * 1000) in
  In (name params) [lit "claude_generate"; lit "claude_edit"; lit "claude_refactor"] ->
  1 <= maxRetries options ->
  ending run = OnClose (Some 0) ->
  ~ In TimerFired (events run) ->
  stdout_text run = JSON_stringify (JObject members) ->
  numbers_valid (JObject members) = true ->
  last_member (lit "result") members = Some (JString result) ->
  result <> [] ->
  handleToolCall id params w =
    (tt,
     after w 1
       [ Spawn (arg_prompt args) cli_args (timeout options * 1000);
         Output (JSON_stringify (result_response id (text_content result))) ]).
Proof.
  intros args options cli_args run Hn Hmax Hend Htimer Hout Hvalid Hres Hne.
  rewrite handleToolCall_plain by assumption. cbn zeta.
  fold args. fold options.
  assert (Hsettle : settle run = mkResult true (JSON_stringify (JObject members)) 0).
  { rewrite (settle_close _ _ Hend). unfold on_close. cbn [killed chunks].
    destruct (existsb _ (events run)) eqn:Et.
    - apply timer_fired_iff in Et. contradiction.
    - unfold Buffer_concat. fold (stdout_text run). now rewrite Hout. }
  assert (Hrun : runWithRetry (arg_prompt args) options w =
                 (settle run, after w 1 [Spawn (arg_prompt args) cli_args
                                           (timeout options * 1000)])).
  { unfold runWithRetry. destruct (attempts_of_positive _ Hmax) as (rest & ->).
    rewrite retry_loop_step. cbn zeta. rewrite Nat.add_0_r.
    fold cli_args. fold run. rewrite Hsettle. cbn [success].
    unfold after. rewrite Nat.add_1_r. reflexivity. }
  rewrite Hrun. cbn [fst snd]. rewrite Hsettle. cbn [success output].
  rewrite (extractResultText_stringify members result) by assumption.
  rewrite sendResponse_after, after_after. reflexivity.
Qed.

Lemma handleToolCall_result_text_witness :
  let envelope := JObject [ (lit "type", JString (lit "result"));
                            (lit "result", JString (lit "4"));
                            (lit "num_turns", JInt 1) ] in
  let w := fresh_world (scripted [] (run_exit 0 (JSON_stringify envelope) [])) in
  let params := mkParams (lit "claude_refactor") (arguments_of (lit "2+2?") None) in
  handleToolCall (IdString (lit "r-1")) params w =
    (tt,
     after w 1
       [ Spawn (lit "2+2?")
           (buildClaudeArgs (parseToolArguments (arguments_of (lit "2+2?") None)))
           660000;
         Output (litq "{'jsonrpc':'2.0','id':'r-1','result':{'content':[{'type':'text','text':'4'}]}}") ]).
Proof.
  intros envelope w params.
  apply (handleToolCall_result_text (IdString (lit "r-1")) params w
           [ (lit "type", JString (lit "result"));
             (lit "result", JString (lit "4"));
             (lit "num_turns", JInt 1) ] (lit "4")).
  - simpl. tauto.
  - simpl. lia.
  - reflexivity.
  - simpl. intros [H|[H|[]]]; discriminate H.
  - reflexivity.
  - reflexivity.
  - reflexivity.
  - discriminate.
Defined.





(** ** Extraction and [JSON.stringify] *)

Lemma mem_not_In_unit (c : code_unit) (s : jsstring) :
  existsb (N.eqb c) s = false -> ~ In c s.
Proof.
  intros E Hin. assert (existsb (N.eqb c) s = true); [|congruence].
  apply existsb_exists. exists c. split; [assumption | apply N.eqb_refl].
Qed.

(** X10: [extractResultText] on the text [JSON.stringify] gives for any
    value: the [result] member when the value is an object whose [result]
    is a non-empty string, the text itself in every other case. *)
Theorem extractResultText_of_stringify (v : JsonValue) :
  numbers_valid v = true ->
  extractResultText (JSON_stringify v) =
    match v with
    | JObject members =>
      match last_member (lit "result") members with
      | Some (JString (c :: rest)) => c :: rest
      | _ => JSON_stringify v
      end
    | _ => JSON_stringify v
    end.
Proof.
  intros Hv. unfold extractResultText. rewrite JSON_parse_stringify by assumption.
  destruct v as [| b | lexeme | s | items | members]; try reflexivity.
  cbn [read_result]. destruct (last_member (lit "result") members) as [[]|];
    try reflexivity.
  cbn [truthy_string]. destruct s; reflexivity.
Qed.

Lemma extractResultText_of_stringify_witness :
  extractResultText
    (JSON_stringify (JObject [ (lit "result", JString (lit "old"));
                               (lit "cost", JInt 12);
                               (lit "result", JString (litq "say 'hi'")) ]))
  = litq "say 'hi'" /\
  extractResultText (JSON_stringify (JArray [JObject [(lit "result", JString (lit "x"))]]))
  = litq "[{'result':'x'}]".
Proof.
  split.
  - apply (extractResultText_of_stringify
             (JObject [ (lit "result", JString (lit "old"));
                        (lit "cost", JInt 12);
                        (lit "result", JString (litq "say 'hi'")) ])).
    reflexivity.
  - apply (extractResultText_of_stringify
             (JArray [JObject [(lit "result", JString (lit "x"))]])).
    reflexivity.
Defined.

Lemma stringify_object_form (members : list (jsstring * JsonValue)) :
  JSON_stringify (JObject members) =
    ch "{" :: join (lit ",") (map member_text members) ++ [ch "}"].
Proof. reflexivity. Qed.

(** X11: an object found in surrounding prose.  The text [JSON.stringify]
    gives for an object is extracted whole from any text that wraps it,
    provided no [{] comes before it and no [}] after it. *)
Theorem extractJsonContent_embedded (pre post : jsstring)
    (members : list (jsstring * JsonValue)) :
  ~ In (ch "{") pre -> ~ In (ch "}") post ->
  numbers_valid (JObject members) = true ->
  extractJsonContent (pre ++ JSON_stringify (JObject members) ++ post)
  = Some (JSON_stringify (JObject members)).
Proof.
  intros Hpre Hpost Hv. rewrite stringify_object_form.
  rewrite extractJsonContent_candidate by assumption.
  rewrite <- stringify_object_form. now rewrite JSON_parse_stringify.
Qed.

Lemma extractJsonContent_embedded_witness :
  extractJsonContent
    (lit "Here is the plan: "
     ++ JSON_stringify (JObject [ (lit "steps", JArray [JInt 1; JInt 2]);
                                  (lit "note", JString (lit "a } in a string")) ])
     ++ lit " - done.")
  = Some (litq "{'steps':[1,2],'note':'a } in a string'}").
Proof.
  apply (extractJsonContent_embedded (lit "Here is the plan: ") (lit " - done.")
           [ (lit "steps", JArray [JInt 1; JInt 2]);
             (lit "note", JString (lit "a } in a string")) ]).
  - apply mem_not_In_unit. reflexivity.
  - apply mem_not_In_unit. reflexivity.
  - reflexivity.
Defined.

(** X12: what [extractJsonContent] returns, when it returns something: a
    contiguous part of the text, which is the text of a JSON object and from
    which a second extraction gives the same text. *)
Theorem extractJsonContent_result (text content : jsstring) :
  extractJsonContent text = Some content ->
  (exists pre post, text = pre ++ content ++ post) /\
  (exists members, JSON_parse content = Some (JObject members)) /\
  extractJsonContent content = Some content.
Proof.
  intros E. split.
  - destruct (extractJsonContent_Some _ _ E) as (pre & mid & post & v & Et & _).
    now exists pre, post.
  - now apply extractJsonContent_object in E.
Qed.

Lemma extractJsonContent_result_witness :
  let text := litq "note {'a': {'b': []}} end" in
  (exists pre post, text = pre ++ litq "{'a': {'b': []}}" ++ post) /\
  (exists members, JSON_parse (litq "{'a': {'b': []}}") = Some (JObject members)) /\
  extractJsonContent (litq "{'a': {'b': []}}") = Some (litq "{'a': {'b': []}}").
Proof.
  intros text.
  apply (extractJsonContent_result text (litq "{'a': {'b': []}}")). reflexivity.
Defined.

(** An object is read back whatever follows it. *)
Lemma stringify_object_reads_back (members : list (jsstring * JsonValue))
    (rest : jsstring) (fuel : nat) :
  numbers_valid (JObject members) = true ->
  (2 * length (JSON_stringify (JObject members) ++ rest) + 1 <= fuel)%nat ->
  parse_value fuel (JSON_stringify (JObject members) ++ rest)
  = Parsed (JObject members) rest.
Proof.
  intros Hv Hf. destruct fuel as [|fuel]; [lia|].
  rewrite stringify_object_form in *. cbn [numbers_valid] in Hv.
  cbn [app] in *. rewrite <- app_assoc in *. cbn [app] in *. cbn [parse_value].
  change (ch "{" =? ch "{")%N with true. cbn iota.
  destruct members as [|[k x] members]; [reflexivity|].
  cbn [forallb] in Hv. apply andb_true_iff in Hv. destruct Hv as (Hvx & Hv).
  assert (Hj : exists t', join (lit ",") (map member_text ((k, x) :: members))
                          ++ ch "}" :: rest = dquote :: t').
  { destruct members as [|m members]; cbn [map join member_text];
      unfold JSON_quote; cbn [app]; eexists; reflexivity. }
  destruct Hj as (t' & Hj). rewrite Hj. rewrite skip_ws_head by reflexivity.
  change (dquote =? ch "}")%N with false. cbn iota. rewrite <- Hj.
  rewrite (parse_members_join members); try assumption; try reflexivity.
  - apply Forall_forall. intros kv _. apply stringify_reads_back.
  - apply stringify_reads_back.
  - cbn [length] in Hf. lia.
Qed.

(** Text after a complete object makes the whole text unparsable. *)
Lemma JSON_parse_trailing (members : list (jsstring * JsonValue)) (rest : jsstring) :
  numbers_valid (JObject members) = true -> skip_ws rest <> [] ->
  JSON_parse (JSON_stringify (JObject members) ++ rest) = None.
Proof.
  intros Hv Hws. unfold JSON_parse.
  assert (Hs : skip_ws (JSON_stringify (JObject members) ++ rest)
               = JSON_stringify (JObject members) ++ rest) by reflexivity.
  rewrite Hs, stringify_object_reads_back by (assumption || (unfold fuel_for; lia)).
  destruct (skip_ws rest); [congruence | reflexivity].
Qed.

Lemma skip_ws_closing (tail rest : jsstring) : skip_ws (tail ++ ch "}" :: rest) <> [].
Proof.
  induction tail as [|c tail IH]; cbn [app skip_ws].
  - discriminate.
  - destruct (is_ws c); [exact IH | discriminate].
Qed.

(** X13: a complete object followed by a later closing brace is not
    extracted.  When the text [JSON.stringify] gives for an object is
    followed, after anything, by another [}], the candidate runs up to that
    last brace, does not parse, and the extraction gives [null]; so it is
    for two objects one after the other. *)
Theorem extractJsonContent_trailing_brace (pre tail post : jsstring)
    (members : list (jsstring * JsonValue)) :
  ~ In (ch "{") pre -> ~ In (ch "}") post ->
  numbers_valid (JObject members) = true ->
  extractJsonContent
    (pre ++ JSON_stringify (JObject members) ++ tail ++ [ch "}"] ++ post)
  = None.
Proof.
  intros Hpre Hpost Hv.
  set (mid := join (lit ",") (map member_text members) ++ [ch "}"] ++ tail).
  assert (E : pre ++ JSON_stringify (JObject members) ++ tail ++ [ch "}"] ++ post
              = pre ++ (ch "{" :: mid ++ [ch "}"]) ++ post).
  { rewrite stringify_object_form. unfold mid. f_equal. cbn [app].
    rewrite <- !app_assoc. reflexivity. }
  rewrite E, extractJsonContent_candidate by assumption.
  assert (Ec : ch "{" :: mid ++ [ch "}"]
               = JSON_stringify (JObject members) ++ (tail ++ [ch "}"])).
  { rewrite stringify_object_form. unfold mid. cbn [app].
    rewrite <- !app_assoc. reflexivity. }
  rewrite Ec, JSON_parse_trailing; [reflexivity | assumption |].
  apply skip_ws_closing.
Qed.

Lemma extractJsonContent_trailing_brace_witness :
  extractJsonContent
    (lit "first "
     ++ JSON_stringify (JObject [(lit "a", JInt 1)])
     ++ lit " then " ++ litq "{'b':2" ++ [ch "}"] ++ lit " end")
  = None.
Proof.
  pose proof (extractJsonContent_trailing_brace (lit "first ")
                (lit " then " ++ litq "{'b':2") (lit " end") [(lit "a", JInt 1)]) as H.
  rewrite <- !app_assoc in H. apply H.
  - apply mem_not_In_unit. reflexivity.
  - apply mem_not_In_unit. reflexivity.
  - reflexivity.
Defined.

(** ** The order of the merged deny-list *)

Lemma mem_app (x : jsstring) (a b : list jsstring) :
  mem x (a ++ b) = mem x a || mem x b.
Proof. unfold mem. apply existsb_app. Qed.

Lemma filter_twice (a b xs : list jsstring) :
  filter (fun x => negb (mem x b)) (filter (fun x => negb (mem x a)) xs)
  = filter (fun x => negb (mem x (a ++ b))) xs.
Proof.
  induction xs as [|x xs IH]; [reflexivity|]. cbn [filter].
  rewrite mem_app. destruct (mem x a); cbn [negb orb]; [exact IH|].
  cbn [filter]. destruct (mem x b); cbn [negb]; now rewrite IH.
Qed.

(** Adding to a set: what was there stays in front, in its order, and the
    new elements follow in the order of their first occurrence. *)
Lemma Set_add_all_front (n : nat) : forall acc xs,
  (length xs <= n)%nat ->
  Set_add_all acc xs = acc ++ new_Set (filter (fun x => negb (mem x acc)) xs).
Proof.
  induction n as [|n IH]; intros acc xs Hn.
  - destruct xs; [|simpl in Hn; lia]. cbn. now rewrite app_nil_r.
  - destruct xs as [|x xs]; [cbn; now rewrite app_nil_r|].
    cbn [length] in Hn. cbn [Set_add_all filter].
    destruct (mem x acc) eqn:E; cbn [negb].
    + apply IH. lia.
    + rewrite IH by lia. unfold new_Set at 2. cbn [Set_add_all mem existsb app].
      rewrite (IH [x]).
      * rewrite filter_twice. now rewrite <- app_assoc.
      * pose proof (filter_length_le (fun x0 => negb (mem x0 acc)) xs). lia.
Qed.

Lemma Set_add_all_app (xs ys : list jsstring) : forall acc,
  Set_add_all acc (xs ++ ys) = Set_add_all (Set_add_all acc xs) ys.
Proof.
  induction xs as [|x xs IH]; intros acc; [reflexivity|].
  cbn [app Set_add_all]. apply IH.
Qed.

Lemma allDisallowedTools_front (options : ClaudeCliOptions) :
  allDisallowedTools options
  = DEFAULT_DISALLOWED_TOOLS
    ++ new_Set (filter (fun t => negb (mem t DEFAULT_DISALLOWED_TOOLS))
                  (or_empty (disallowedTools options))).
Proof.
  unfold allDisallowedTools, new_Set at 1. rewrite Set_add_all_app.
  change (Set_add_all [] DEFAULT_DISALLOWED_TOOLS)
    with (new_Set DEFAULT_DISALLOWED_TOOLS).
  replace (new_Set DEFAULT_DISALLOWED_TOOLS) with DEFAULT_DISALLOWED_TOOLS
    by (vm_compute; reflexivity).
  apply (Set_add_all_front (length (or_empty (disallowedTools options)))).
  apply le_n.
Qed.

(** X14: the order of the [--disallowedTools] flags.  The seven default
    entries come first, in their fixed order, followed by the caller's own
    entries that are not defaults, in the order of their first occurrence;
    a caller who lists nothing but default entries gets the same arguments
    as one who lists nothing. *)
Theorem allDisallowedTools_order (options : ClaudeCliOptions) :
  allDisallowedTools options
  = DEFAULT_DISALLOWED_TOOLS
    ++ new_Set (filter (fun t => negb (mem t DEFAULT_DISALLOWED_TOOLS))
                  (or_empty (disallowedTools options))) /\
  (forallb (fun t => mem t DEFAULT_DISALLOWED_TOOLS)
     (or_empty (disallowedTools options)) = true ->
   buildClaudeArgs options = buildClaudeArgs (with_disallowedTools options None)).
Proof.
  split; [apply allDisallowedTools_front|].
  intros Hall. unfold buildClaudeArgs.
  rewrite !allDisallowedTools_front.
  assert (E : filter (fun t => negb (mem t DEFAULT_DISALLOWED_TOOLS))
                (or_empty (disallowedTools options)) = []).
  { induction (or_empty (disallowedTools options)) as [|t l IH]; [reflexivity|].
    cbn [forallb] in Hall. apply andb_true_iff in Hall as [Ht Hl].
    cbn [filter]. rewrite Ht. cbn [negb]. now apply IH. }
  rewrite E. destruct options; reflexivity.
Qed.

(** ** The request loop *)

Lemma trimStart_nil (s : jsstring) :
  trimStart s = [] <-> forallb is_js_whitespace s = true.
Proof.
  induction s as [|c s IH]; cbn [trimStart forallb]; [tauto|].
  destruct (is_js_whitespace c); cbn [andb]; [exact IH|].
  split; discriminate.
Qed.

Lemma trimStart_suffix (s : jsstring) : exists pre,
  s = pre ++ trimStart s /\ forallb is_js_whitespace pre = true.
Proof.
  induction s as [|c s (pre & E & H)]; [now exists []|].
  cbn [trimStart]. destruct (is_js_whitespace c) eqn:Hc.
  - exists (c :: pre). cbn [app forallb]. rewrite Hc, H. now rewrite <- E.
  - now exists [].
Qed.

Lemma forallb_reverse {A} (f : A -> bool) (l : list A) :
  forallb f (rev l) = forallb f l.
Proof.
  induction l as [|x l IH]; [reflexivity|].
  cbn [rev forallb]. rewrite forallb_app, IH. cbn [forallb].
  rewrite andb_true_r. apply andb_comm.
Qed.

(** [!line.trim()] holds of the lines made of white space only. *)
Lemma trim_blank (s : jsstring) :
  truthy (trim s) = negb (forallb is_js_whitespace s).
Proof.
  unfold trim, trimEnd.
  destruct (forallb is_js_whitespace s) eqn:Hb; cbn [negb].
  - apply trimStart_nil in Hb. now rewrite Hb.
  - destruct (trimStart_suffix s) as (pre & E & Hpre).
    destruct (trimStart (rev (trimStart s))) as [|c t] eqn:Ht.
    + apply trimStart_nil in Ht. rewrite forallb_reverse in Ht.
      rewrite E, forallb_app, Hpre, Ht in Hb. discriminate.
    + cbn [rev]. now destruct (rev t).
Qed.

Lemma skip_ws_suffix (s : jsstring) : exists pre,
  s = pre ++ skip_ws s /\ forallb is_ws pre = true.
Proof.
  induction s as [|c s (pre & E & H)]; [now exists []|].
  cbn [skip_ws]. destruct (is_ws c) eqn:Hc.
  - exists (c :: pre). cbn [app forallb]. rewrite Hc, H. now rewrite <- E.
  - now exists [].
Qed.

(** No JSON value starts with a code unit that [trim] strips. *)
Lemma parse_value_whitespace (fuel : nat) (c : code_unit) (rest : jsstring) :
  is_js_whitespace c = true ->
  forall v r, parse_value fuel (c :: rest) <> Parsed v r.
Proof.
  intros Hc v r. destruct fuel as [|fuel]; [discriminate|].
  assert (Hne : forall a : ascii,
            In a ["{"; "["; "-"; "t"; "f"; "n"; "0"; "1"; "2"; "3"; "4"; "5"; "6";
                  "7"; "8"; "9"]%char -> (c =? ch a)%N = false
                                          /\ (ch a =? c)%N = false).
  { intros a Ha. unfold is_js_whitespace in Hc.
    assert (c <> ch a) as Hn.
    { intros ->. cbn [In] in Ha.
      repeat (destruct Ha as [<-|Ha]; [vm_compute in Hc; discriminate|]).
      destruct Ha. }
    split; apply N.eqb_neq; congruence. }
  assert (Hq : (c =? dquote)%N = false).
  { apply N.eqb_neq. intros ->. vm_compute in Hc. discriminate. }
  assert (Hd : is_digit c = false).
  { unfold is_digit. unfold is_js_whitespace in Hc.
    destruct ((48 <=? c)%N && (c <=? 57)%N) eqn:E; [|reflexivity].
    apply andb_true_iff in E as [E1 E2].
    apply N.leb_le in E1, E2.
    repeat (apply orb_true_iff in Hc as [Hc|Hc]);
      repeat match goal with
             | H : (_ && _) = true |- _ => apply andb_true_iff in H as [? ?]
             | H : (_ <=? _)%N = true |- _ => apply N.leb_le in H
             | H : (_ =? _)%N = true |- _ => apply N.eqb_eq in H
             end; lia. }
  cbn [parse_value].
  rewrite (proj1 (Hne "{"%char ltac:(cbn; tauto))).
  rewrite (proj1 (Hne "["%char ltac:(cbn; tauto))).
  rewrite Hq.
  rewrite (proj1 (Hne "-"%char ltac:(cbn; tauto))), Hd. cbn [orb].
  cbn [lit strip_prefix].
  change (N_of_ascii "t") with (ch "t").
  change (N_of_ascii "f") with (ch "f").
  change (N_of_ascii "n") with (ch "n").
  rewrite (proj2 (Hne "t"%char ltac:(cbn; tauto))).
  rewrite (proj2 (Hne "f"%char ltac:(cbn; tauto))).
  rewrite (proj2 (Hne "n"%char ltac:(cbn; tauto))).
  discriminate.
Qed.

Lemma is_ws_js_whitespace (c : code_unit) :
  is_ws c = true -> is_js_whitespace c = true.
Proof.
  unfold is_ws. intros H.
  repeat (apply orb_true_iff in H as [H|H]);
    apply N.eqb_eq in H; subst c; reflexivity.
Qed.

(** A line that [JSON.parse] accepts is not blank. *)
Lemma JSON_parse_not_blank (line : jsstring) (v : JsonValue) :
  JSON_parse line = Some v -> truthy (trim line) = true.
Proof.
  intros H. rewrite trim_blank.
  destruct (forallb is_js_whitespace line) eqn:Hb; [|reflexivity].
  exfalso. unfold JSON_parse in H.
  destruct (skip_ws_suffix line) as (pre & E & _).
  destruct (skip_ws line) as [|c rest] eqn:Hs.
  - unfold fuel_for in H.
    replace (2 * length line + 2)%nat with (S (2 * length line + 1)) in H by lia.
    cbn [parse_value] in H. discriminate.
  - rewrite E, forallb_app in Hb. apply andb_true_iff in Hb as [_ Hb].
    cbn [forallb] in Hb. apply andb_true_iff in Hb as [Hc _].
    destruct (parse_value (fuel_for line) (c :: rest)) as [v' r| |] eqn:P;
      try discriminate.
    now apply parse_value_whitespace in P.
Qed.

(** *** Reading back what a client wrote *)

Lemma last_member_app (key : jsstring) (a b : list (jsstring * JsonValue)) :
  last_member key (a ++ b) =
    match last_member key b with
    | Some v => Some v
    | None => last_member key a
    end.
Proof.
  induction a as [|[k v] a IH]; cbn [app last_member].
  - now destruct (last_member key b).
  - rewrite IH. now destruct (last_member key b).
Qed.

Lemma last_member_present (key : jsstring)
    (members : list (jsstring * option JsonValue)) :
  last_member key (present members) = last_present key members.
Proof.
  induction members as [|[k v] members IH]; [reflexivity|].
  unfold present in *. cbn [flat_map fst snd last_present].
  rewrite last_member_app, IH.
  destruct (last_present key members); [reflexivity|].
  destruct v as [v|]; cbn [optional_member last_member]; [reflexivity|].
  now destruct (eqb key k).
Qed.

Lemma numbers_valid_present (members : list (jsstring * option JsonValue)) :
  Forall (fun kv => match snd kv with
                    | Some v => numbers_valid v = true
                    | None => True
                    end) members ->
  numbers_valid (JObject (present members)) = true.
Proof.
  intros H. cbn [numbers_valid]. unfold present.
  induction H as [|[k v] members Hv _ IH]; [reflexivity|].
  cbn [flat_map fst snd]. rewrite forallb_app, IH, andb_true_r.
  destruct v as [v|]; cbn [optional_member forallb]; [|reflexivity].
  cbn [snd] in Hv. now rewrite Hv.
Qed.

Lemma unlit_lit (s : string) : unlit (lit s) = s.
Proof.
  induction s as [|a s IH]; [reflexivity|].
  cbn [lit unlit fold_right]. fold (unlit (lit s)).
  now rewrite IH, ascii_N_embedding.
Qed.

(** A safe integer is read back from its decimal notation. *)
Lemma safe_integer_toString (n : Z) :
  safe n -> safe_integer (Number_toString n) = Some n.
Proof.
  intros Hn. unfold safe_integer, Number_toString. rewrite unlit_lit.
  rewrite NilZero.isi.
  - cbn zeta. rewrite DecimalZ.of_to, jsstring_eqb_refl. cbn [andb].
    unfold safe in Hn. apply Z.leb_le in Hn. now rewrite Hn.
  - destruct n as [|p|p]; cbn; try discriminate.
    intros E. injection E as E. now apply Unsigned.to_uint_nonnil in E.
  - destruct n as [|p|p]; cbn; try discriminate.
    intros E. injection E as E. now apply Unsigned.to_uint_nonnil in E.
Qed.

(** Conversely a lexeme read as a safe integer is its decimal notation. *)
Lemma safe_integer_Some (lexeme : jsstring) (n : Z) :
  safe_integer lexeme = Some n -> lexeme = Number_toString n /\ safe n.
Proof.
  unfold safe_integer. destruct (NilZero.int_of_string (unlit lexeme)); [|discriminate].
  cbn zeta. destruct (eqb _ lexeme && _) eqn:E; [|discriminate].
  intros [= <-]. apply andb_true_iff in E as [E1 E2].
  apply jsstring_eqb_eq in E1. apply Z.leb_le in E2. now split.
Qed.

Lemma decode_id_value (id : option RpcId) :
  safe_id id -> decode_id (option_map id_value id) = Typed id.
Proof.
  destruct id as [[n|s|]|]; cbn [option_map id_value decode_id safe_id];
    try reflexivity.
  intros Hn. unfold JInt. now rewrite safe_integer_toString.
Qed.

Lemma field_string_value (v : option jsstring) :
  field_string (option_map JString v) = Typed v.
Proof. now destruct v. Qed.

Lemma field_boolean_value (v : option bool) :
  field_boolean (option_map JBool v) = Typed v.
Proof. now destruct v. Qed.

Lemma field_number_value (v : option Z) :
  safe_option v -> field_number (option_map JInt v) = Typed v.
Proof.
  destruct v as [n|]; cbn [option_map field_number safe_option]; [|reflexivity].
  intros Hn. unfold JInt. now rewrite safe_integer_toString.
Qed.

Lemma strings_of_strings (xs : list jsstring) : strings_of (map JString xs) = Typed xs.
Proof.
  induction xs as [|x xs IH]; [reflexivity|]. cbn [map strings_of]. now rewrite IH.
Qed.

Lemma field_strings_value (v : option (list jsstring)) :
  field_strings (option_map strings v) = Typed v.
Proof.
  destruct v as [xs|]; cbn [option_map field_strings strings]; [|reflexivity].
  now rewrite strings_of_strings.
Qed.

Lemma option_eta {A} (o : option A) :
  match o with Some x => Some x | None => None end = o.
Proof. now destruct o. Qed.

(** The arguments a typed client wrote are the arguments the server reads. *)
Lemma decode_arguments_value (args : ClaudeToolArguments) :
  safe_arguments args ->
  match arguments_value args with
  | JObject fields => decode_arguments fields = Typed args
  | _ => False
  end.
Proof.
  intros (Ht & Hr & Hm). unfold arguments_value, decode_arguments.
  repeat (rewrite last_member_present;
          match goal with
          | |- context [last_present (lit ?k) ?l] =>
            let v := eval cbv [last_present eqb lit N_of_ascii N_of_digits N.eqb
                               Pos.eqb andb N.add N.mul Pos.add Pos.mul Pos.succ]
                     in (last_present (lit k) l) in
            change (last_present (lit k) l) with v
          end).
  rewrite !option_eta.
  rewrite !field_string_value, !field_boolean_value, !field_strings_value.
  rewrite !field_number_value by assumption.
  cbn [typed_bind]. now destruct args.
Qed.

Lemma strings_valid (xs : list jsstring) : numbers_valid (strings xs) = true.
Proof.
  unfold strings. cbn [numbers_valid]. induction xs; [reflexivity|assumption].
Qed.

Lemma arguments_value_valid (args : ClaudeToolArguments) :
  numbers_valid (arguments_value args) = true.
Proof.
  unfold arguments_value. apply numbers_valid_present.
  repeat constructor; cbn [snd];
    match goal with
    | |- match option_map _ ?v with _ => _ end => destruct v; cbn [option_map]; auto
    end;
    first [apply strings_valid | apply Number_toString_lexeme].
Qed.

Lemma rpc_request_valid (id : option RpcId) (method : jsstring)
    (params : option JsonValue) :
  match params with Some p => numbers_valid p = true | None => True end ->
  numbers_valid (rpc_request id method params) = true.
Proof.
  intros Hp. unfold rpc_request. apply numbers_valid_present.
  repeat constructor; cbn [snd]; try assumption.
  destruct id as [id|]; cbn [option_map]; [apply id_value_valid | exact I].
Qed.

(** A request written by [JSON.stringify] reaches the [switch] with the
    identifier, the method and the parameters it was written with. *)
Lemma processRequest_written (id : option RpcId) (method : jsstring)
    (params : option JsonValue) (w : World) :
  safe_id id ->
  match params with Some p => numbers_valid p = true | None => True end ->
  processRequest (JSON_stringify (rpc_request id method params)) w
  = switch_method (Typed id) (Some (JString method)) params w.
Proof.
  intros Hid Hp. unfold processRequest.
  pose proof (JSON_parse_stringify _ (rpc_request_valid id method params Hp)) as P.
  rewrite (JSON_parse_not_blank _ _ P), P. cbn [negb].
  unfold rpc_request at 1. cbn [destructure_request].
  rewrite !last_member_present.
  cbn [last_present]. 
  replace (eqb (lit "id") (lit "params")) with false by reflexivity.
  replace (eqb (lit "id") (lit "method")) with false by reflexivity.
  replace (eqb (lit "id") (lit "id")) with true by reflexivity.
  replace (eqb (lit "method") (lit "params")) with false by reflexivity.
  replace (eqb (lit "method") (lit "method")) with true by reflexivity.
  replace (eqb (lit "params") (lit "params")) with true by reflexivity.
  replace (eqb (lit "id") (lit "jsonrpc")) with false by reflexivity.
  destruct params as [p|].
  - destruct (option_map id_value id) eqn:E; rewrite <- E, decode_id_value;
      auto.
  - replace (eqb (lit "params") (lit "method")) with false by reflexivity.
    replace (eqb (lit "params") (lit "id")) with false by reflexivity.
    replace (eqb (lit "params") (lit "jsonrpc")) with false by reflexivity.
    destruct (option_map id_value id) eqn:E; rewrite <- E, decode_id_value;
      auto.
Qed.

(** *** What the dispatcher sends *)

Lemma id_member_valid (id : option RpcId) :
  forallb (fun kv : jsstring * JsonValue => match kv with (_, x) => numbers_valid x end)
    (id_member id) = true.
Proof.
  destruct id as [id|]; cbn [id_member option_map optional_member forallb];
    [now rewrite id_value_valid | reflexivity].
Qed.

Lemma error_response_raw_valid (id : option RpcId) (code : Z) (message : jsstring) :
  numbers_valid (error_response_raw id code message None) = true.
Proof.
  unfold error_response_raw. cbn [numbers_valid app forallb].
  rewrite forallb_app, id_member_valid. unfold JInt.
  cbn [numbers_valid optional_member app forallb].
  now rewrite Number_toString_lexeme.
Qed.

Lemma result_response_raw_valid (id : option RpcId) (result : JsonValue) :
  numbers_valid result = true ->
  numbers_valid (result_response_raw id result) = true.
Proof.
  intros Hr. unfold result_response_raw. cbn [numbers_valid app forallb].
  rewrite forallb_app, id_member_valid. cbn [forallb]. now rewrite Hr.
Qed.

Lemma raw_responses (id : RpcId) :
  (forall code message data,
     error_response_raw (Some id) code message data
     = error_response id code message data) /\
  (forall result, result_response_raw (Some id) result = result_response id result).
Proof. split; reflexivity. Qed.

Lemma after_nothing (w : World) : after w 0 [] = w.
Proof. unfold after. rewrite Nat.add_0_r, app_nil_r. now destruct w. Qed.

(** The outcome of the [switch]: one valid response queued and nothing
    else, or nothing at all. *)
Lemma switch_method_sends (id : typed (option RpcId)) (method params : option JsonValue)
    (w : World) :
  (exists response,
     switch_method id method params w
     = (Returned, after w 0 [Output (JSON_stringify response)])
     /\ numbers_valid response = true) \/
  (exists d, switch_method id method params w = (d, w) /\
             (d = Returned \/ d = Rejected \/ d = Untyped \/
              exists i p, d = Spawned i p)).
Proof.
  assert (Hwith : forall k : option RpcId -> M unit,
            (forall i, exists response,
                k i = sendResponse response /\ numbers_valid response = true) ->
            (exists response,
               with_id id k w = (Returned, after w 0 [Output (JSON_stringify response)])
               /\ numbers_valid response = true) \/
            (exists d, with_id id k w = (d, w) /\
                       (d = Returned \/ d = Rejected \/ d = Untyped \/
                        exists i p, d = Spawned i p))).
  { intros k Hk. destruct id as [i|]; cbn [with_id].
    - left. destruct (Hk i) as (response & E & Hv). exists response.
      split; [|exact Hv]. unfold bind. rewrite E, sendResponse_after. reflexivity.
    - right. exists Untyped. split; [reflexivity|tauto]. }
  assert (Hnot : forall text,
            (exists response,
               method_not_found id text w
               = (Returned, after w 0 [Output (JSON_stringify response)])
               /\ numbers_valid response = true) \/
            (exists d, method_not_found id text w = (d, w) /\
                       (d = Returned \/ d = Rejected \/ d = Untyped \/
                        exists i p, d = Spawned i p))).
  { intros [text|]; cbn [method_not_found].
    - apply Hwith. intros i. eexists. split; [reflexivity|].
      apply error_response_raw_valid.
    - right. exists Untyped. split; [reflexivity|tauto]. }
  unfold switch_method.
  destruct method as [[| b | l | m | items | members]|]; try apply Hnot.
  destruct (eqb m (lit "initialize")).
  { apply Hwith. intros i. eexists. split; [reflexivity|].
    now apply result_response_raw_valid. }
  destruct (eqb m (lit "initialized")).
  { right. exists Returned. split; [reflexivity|tauto]. }
  destruct (eqb m (lit "tools/list")).
  { apply Hwith. intros i. eexists. split; [reflexivity|].
    now apply result_response_raw_valid. }
  destruct (eqb m (lit "tools/call")); [|apply Hnot].
  right. exists (start_tool_call id params). split; [reflexivity|].
  unfold start_tool_call.
  destruct params as [[| b | l | s | items | members]|]; try tauto.
  destruct (last_member (lit "arguments") members)
    as [[| b | l | s | items | fields]|]; try tauto.
  destruct (last_member (lit "name") members)
    as [[| b | l | s | items | fields']|]; try tauto.
  destruct id as [[i|]|]; try tauto.
  destruct (decode_arguments fields); try tauto.
  right. right. right. eauto.
Qed.

(** The same for [processRequest]. *)
Lemma processRequest_sends (line : jsstring) (w : World) :
  (exists response,
     processRequest line w = (Returned, after w 0 [Output (JSON_stringify response)])
     /\ numbers_valid response = true) \/
  (exists d, processRequest line w = (d, w) /\
             (d = Returned \/ d = Rejected \/ d = Untyped \/ d = Threw \/
              exists i p, d = Spawned i p)).
Proof.
  unfold processRequest. destruct (truthy (trim line)); cbn [negb].
  2: { right. exists Returned. split; [reflexivity|tauto]. }
  destruct (JSON_parse line) as [request|].
  2: { left. eexists. split.
       - unfold bind, sendError. rewrite sendResponse_after. reflexivity.
       - now apply error_response_valid. }
  destruct (destructure_request request) as [[[id method] params]|].
  2: { right. exists Threw. split; [reflexivity|tauto]. }
  destruct (switch_method_sends (decode_id id) method params w)
    as [H|(d & E & Hd)]; [now left|].
  right. exists d. split; [exact E|]. tauto.
Qed.

(** The tool call, once started, ends with one valid response. *)
Lemma handleToolCall_sends (id : RpcId) (params : McpToolCallParams) (w : World) :
  exists k effs response,
    snd (handleToolCall id params w) =
      after w k (effs ++ [Output (JSON_stringify response)]) /\
    Forall silent effs /\
    numbers_valid response = true /\
    ((exists code message data,
        response = error_response id code message data) \/
     (exists text, response = result_response id (text_content text))).
Proof.
  assert (Hsend : forall response w1 k effs,
            w1 = after w k effs -> Forall silent effs ->
            numbers_valid response = true ->
            ((exists code message data,
                response = error_response id code message data) \/
             (exists text, response = result_response id (text_content text))) ->
            exists k effs response0,
              snd (sendResponse response w1) =
                after w k (effs ++ [Output (JSON_stringify response0)]) /\
              Forall silent effs /\
              numbers_valid response0 = true /\
              ((exists code message data,
                  response0 = error_response id code message data) \/
               (exists text, response0 = result_response id (text_content text)))).
  { intros response w1 k effs -> Heffs Hvalid Hform.
    exists k, effs, response. rewrite sendResponse_after. cbn [snd].
    rewrite after_after, Nat.add_0_r. repeat split; assumption. }
  destruct (tool_name_cases (name params)) as [Hn|[Hn|Hn]].
  - rewrite handleToolCall_unknown by assumption.
    apply (Hsend _ w 0%nat []).
    + now rewrite after_nothing.
    + constructor.
    + now apply error_response_valid.
    + left. eauto.
  - rewrite handleToolCall_plain by assumption. cbn zeta.
    eapply Hsend.
    + apply runWithRetry_after.
    + now apply attempts_trace_silent.
    + destruct (success _);
        [apply result_response_valid, text_content_valid
        | now apply error_response_valid].
    + destruct (success _); [right | left]; eauto.
  - rewrite handleToolCall_json by assumption. cbn zeta.
    destruct (json_retry_loop_inv (arg_prompt (arguments params))
                (parseToolArguments (arguments params))
                (attempts_of (maxRetries (parseToolArguments (arguments params)))) [] w)
      as (k & effs & _ & Hw & Heffs & _).
    eapply Hsend.
    + exact Hw.
    + eapply Forall_impl; [|exact Heffs]. intros e [->| ->]; exact I.
    + destruct (success _);
        [apply result_response_valid, text_content_valid
        | now apply error_response_valid].
    + destruct (success _); [right | left]; eauto.
Qed.

Lemma react_spawned (line : jsstring) (w : World) (id : RpcId)
    (params : McpToolCallParams) :
  processRequest line w = (Spawned id params, w) ->
  react line w = (Spawned id params, snd (handleToolCall id params w)).
Proof.
  intros E. unfold react, bind. rewrite E.
  now destruct (handleToolCall id params w).
Qed.

Lemma react_other (line : jsstring) (w w' : World) (d : Outcome) :
  processRequest line w = (d, w') ->
  (forall i p, d <> Spawned i p) ->
  react line w = (d, w').
Proof.
  intros E Hd. unfold react, bind. rewrite E.
  destruct d; try reflexivity. now destruct (Hd id params).
Qed.

(** *** Lines that are not requests *)

(** X15: a blank line is ignored.  A line made only of the white space
    that [trim] strips, the empty line included, is dropped without an
    answer and without any other effect; this covers the no-break space and
    the other Unicode spaces, which JSON does not count as white space. *)
Theorem processRequest_blank_line (line : jsstring) (w : World) :
  forallb is_js_whitespace line = true ->
  processRequest line w = (Returned, w).
Proof.
  intros Hb. unfold processRequest. now rewrite trim_blank, Hb.
Qed.

Lemma processRequest_blank_line_witness :
  processRequest [32; 160; 9; 65279]%N (fresh_world (scripted [] run_not_started))
  = (Returned, fresh_world (scripted [] run_not_started)).
Proof. apply processRequest_blank_line. reflexivity. Defined.

(** X16: a line that is not blank and is not a JSON text is answered by
    the parse error, with the identifier [null]: one line is queued, the
    text below, and nothing else happens. *)
Theorem processRequest_parse_error (line : jsstring) (w : World) :
  forallb is_js_whitespace line = false ->
  JSON_parse line = None ->
  processRequest line w =
    (Returned,
     after w 0
       [ Output (litq "{'jsonrpc':'2.0','id':null,'error':{'code':-32700,'message':'Parse error'}}") ]).
Proof.
  intros Hb Hp. unfold processRequest. rewrite trim_blank, Hb, Hp. cbn [negb].
  unfold bind, sendError. rewrite sendResponse_after. reflexivity.
Qed.

Lemma processRequest_parse_error_witness :
  processRequest (litq "{'jsonrpc':'2.0','id':1,")
    (fresh_world (scripted [] run_not_started)) =
    (Returned,
     after (fresh_world (scripted [] run_not_started)) 0
       [ Output (litq "{'jsonrpc':'2.0','id':null,'error':{'code':-32700,'message':'Parse error'}}") ]).
Proof. apply processRequest_parse_error; reflexivity. Defined.

(** X17: a JSON text that is not an object.  The line [null] makes the
    destructuring throw: the TypeError leaves [processRequest], nothing is
    sent.  A string, a number, a boolean or an array has no method: it is
    answered by the error -32601 for the method [undefined], in a response
    that has no [id] member. *)
Theorem processRequest_not_an_object (line : jsstring) (v : JsonValue) (w : World) :
  JSON_parse line = Some v ->
  match v with
  | JObject _ => True
  | JNull => processRequest line w = (Threw, w)
  | _ =>
    processRequest line w =
      (Returned,
       after w 0
         [ Output (litq "{'jsonrpc':'2.0','error':{'code':-32601,'message':'Method not found: undefined'}}") ])
  end.
Proof.
  intros Hp. unfold processRequest.
  rewrite (JSON_parse_not_blank _ _ Hp), Hp. cbn [negb].
  destruct v; cbn [destructure_request]; try exact I; try reflexivity;
    cbn [decode_id switch_method ToString method_not_found with_id];
    unfold bind, sendError_raw; rewrite sendResponse_after; reflexivity.
Qed.

Lemma processRequest_not_an_object_witness :
  processRequest (lit " null ") (fresh_world (scripted [] run_not_started))
  = (Threw, fresh_world (scripted [] run_not_started)).
Proof.
  apply (processRequest_not_an_object (lit " null ") JNull). reflexivity.
Defined.

(** *** Requests *)

(** X18: the answers to a request a client wrote.  Whatever its
    parameters, [initialize] is answered by the server description and
    [tools/list] by the catalogue, both under the identifier of the
    request; [initialized] is not answered, with an identifier or without;
    any method other than these and [tools/call] is answered by the error
    -32601 naming the method.  A request without identifier is answered
    all the same, by a response without [id] member. *)
Theorem processRequest_answers (id : option RpcId) (method : jsstring)
    (params : option JsonValue) (w : World) :
  safe_id id ->
  match params with Some p => numbers_valid p = true | None => True end ->
  method <> lit "tools/call" ->
  processRequest (JSON_stringify (rpc_request id method params)) w =
    (Returned,
     if eqb method (lit "initialized") then w
     else
       after w 0
         [ Output
             (JSON_stringify
                (JObject
                   ((lit "jsonrpc", JString (lit "2.0")) :: id_member id
                    ++ [ if eqb method (lit "initialize") then
                           (lit "result",
                            JObject
                              [ (lit "protocolVersion", JString (lit "2024-11-05"));
                                (lit "capabilities",
                                 JObject [ (lit "tools", JObject []) ]);
                                (lit "serverInfo",
                                 JObject [ (lit "name", JString (lit "claude-shell"));
                                           (lit "version", JString (lit "2.0.0")) ]) ])
                         else if eqb method (lit "tools/list") then
                           (lit "result", JObject [ (lit "tools", TOOLS_value) ])
                         else
                           (lit "error",
                            JObject [ (lit "code", JInt (-32601));
                                      (lit "message",
                                       JString (lit "Method not found: " ++ method)) ])
                       ]))) ]).
Proof.
  intros Hid Hp Hm. rewrite processRequest_written by assumption.
  unfold switch_method.
  destruct (eqb method (lit "initialize")) eqn:E1.
  { apply jsstring_eqb_eq in E1. subst method. cbn [with_id].
    unfold bind, handleInitialize, sendResult_raw. rewrite sendResponse_after.
    reflexivity. }
  destruct (eqb method (lit "initialized")) eqn:E2; [reflexivity|].
  destruct (eqb method (lit "tools/list")) eqn:E3.
  { cbn [with_id]. unfold bind, handleToolsList, sendResult_raw.
    rewrite sendResponse_after. reflexivity. }
  apply jsstring_eqb_neq in Hm. rewrite Hm.
  cbn [method_not_found with_id]. unfold bind, sendError_raw.
  rewrite sendResponse_after. reflexivity.
Qed.

Lemma processRequest_answers_witness :
  processRequest
    (litq "{'jsonrpc':'2.0','method':'notifications/initialized'}")
    (fresh_world (scripted [] run_not_started)) =
    (Returned,
     after (fresh_world (scripted [] run_not_started)) 0
       [ Output (litq "{'jsonrpc':'2.0','error':{'code':-32601,'message':'Method not found: notifications/initialized'}}") ]).
Proof.
  apply (processRequest_answers None (lit "notifications/initialized") None);
    [exact I | exact I | discriminate].
Defined.

(** X19: a tool call without arguments is never answered.  When the
    request has no [params], or [params] that are not an object, or an
    object without [arguments] (or with [null] there), [handleToolCall]
    throws before it sends anything; the rejection is logged and the
    client is left without a response, whatever the tool name. *)
Theorem tool_call_without_arguments (id : option RpcId) (params : option JsonValue)
    (w : World) :
  safe_id id ->
  match params with Some p => numbers_valid p = true | None => True end ->
  match params with
  | Some (JObject members) =>
    last_member (lit "arguments") members = None \/
    last_member (lit "arguments") members = Some JNull
  | _ => True
  end ->
  react (JSON_stringify (rpc_request id (lit "tools/call") params)) w = (Rejected, w).
Proof.
  intros Hid Hp Hargs. apply react_other; [|discriminate].
  rewrite processRequest_written by assumption.
  cbn [switch_method]. 
  replace (eqb (lit "tools/call") (lit "initialize")) with false by reflexivity.
  replace (eqb (lit "tools/call") (lit "initialized")) with false by reflexivity.
  replace (eqb (lit "tools/call") (lit "tools/list")) with false by reflexivity.
  replace (eqb (lit "tools/call") (lit "tools/call")) with true by reflexivity.
  unfold ret, start_tool_call.
  destruct params as [[| b | l | s | items | members]|]; try reflexivity.
  now destruct Hargs as [-> | ->].
Qed.

Lemma tool_call_without_arguments_witness :
  react
    (litq "{'jsonrpc':'2.0','id':7,'method':'tools/call','params':{'name':'claude_generate','prompt':'hi'}}")
    (fresh_world (scripted [] run_not_started))
  = (Rejected, fresh_world (scripted [] run_not_started)).
Proof.
  apply (tool_call_without_arguments (Some (IdNumber 7))
           (Some (JObject [ (lit "name", JString (lit "claude_generate"));
                            (lit "prompt", JString (lit "hi")) ]))).
  - vm_compute. discriminate.
  - reflexivity.
  - left. reflexivity.
Defined.





(** *** The catalogue and the alias table *)

(** X22: the models the schemas advertise are the aliases of [MODEL_MAP],
    no more and no less.  A call that names one of them, or none, or the
    empty string, runs the CLI with [--model] followed by one of the three
    concrete identifiers: the default never stands in for an advertised
    model, and no inherited member is passed. *)
Theorem advertised_models_are_mapped (args : ClaudeToolArguments) :
  (forall m, In m modelEnum <-> In m (map fst MODEL_MAP)) /\
  (match arg_model args with
   | Some (c :: m) => In (c :: m) modelEnum
   | _ => True
   end ->
   exists id,
     In id [haiku_id; sonnet_id; opus_id] /\
     own_property MODEL_MAP (or_default (arg_model args) (lit "haiku")) = Some id /\
     firstn 2 (buildClaudeArgs (parseToolArguments args))
     = [JsStr (lit "--model"); JsStr id]).
Proof.
  split; [intros m; cbn; tauto|].
  intros Hm.
  assert (In (or_default (arg_model args) (lit "haiku")) modelEnum) as Hin.
  { destruct (arg_model args) as [[|c m]|]; cbn [or_default truthy];
      [left; reflexivity | exact Hm | left; reflexivity]. }
  unfold buildClaudeArgs, args_head, parseToolArguments. cbn [model app firstn].
  revert Hin. generalize (or_default (arg_model args) (lit "haiku")). intros m Hin.
  cbn [modelEnum In] in Hin.
  repeat (destruct Hin as [<-|Hin];
          [eexists; split; [|split; reflexivity]; cbn; tauto|]).
  destruct Hin.
Qed.

Lemma advertised_models_are_mapped_witness :
  exists id,
    In id [haiku_id; sonnet_id; opus_id] /\
    own_property MODEL_MAP (lit "Opus 4.5") = Some id /\
    firstn 2 (buildClaudeArgs
                (parseToolArguments
                   (mkArguments (lit "hi") (Some (lit "Opus 4.5")) None None None None
                      None None None None None None None None None)))
    = [JsStr (lit "--model"); JsStr id].
Proof.
  apply (advertised_models_are_mapped
           (mkArguments (lit "hi") (Some (lit "Opus 4.5")) None None None None
              None None None None None None None None None)).
  cbn. tauto.
Defined.

(** ** The options that are read and not used *)

Lemma runWithRetry_same_run (prompt : jsstring) (a b : ClaudeCliOptions) :
  same_run a b -> runWithRetry prompt a = runWithRetry prompt b.
Proof.
  intros (Ha & Ht & Hr). unfold runWithRetry. now rewrite Ha, Ht, Hr.
Qed.

Lemma json_retry_loop_same_run (prompt : jsstring) (a b : ClaudeCliOptions)
    (attempts : list Z) :
  same_run (with_json_single a) (with_json_single b) ->
  maxRetries a = maxRetries b ->
  forall errors w,
    json_retry_loop prompt a attempts errors w
    = json_retry_loop prompt b attempts errors w.
Proof.
  intros Hs Hr. induction attempts as [|attempt rest IH]; intros errors w;
    cbn [json_retry_loop].
  - now rewrite Hr.
  - unfold bind. rewrite (runWithRetry_same_run prompt _ _ Hs).
    destruct (runWithRetry prompt (with_json_single b) w) as [r w1].
    destruct (negb (success r)); [apply IH|].
    destruct (if content_truthy _ then _ else None); [reflexivity|].
    rewrite Hr. destruct (attempt <? maxRetries b); cbn; apply IH.
Qed.

(** X23: [enableMcp] and [mcpConfigPath] are read and never used.
    Whatever values a call gives them, its effects and its answer are the
    same: no CLI argument, no timeout and no retry depends on them. *)
Theorem mcp_options_have_no_effect (id : RpcId) (toolName : jsstring)
    (args : ClaudeToolArguments) (enableMcp : option bool)
    (mcpConfigPath : option jsstring) (w : World) :
  buildClaudeArgs (parseToolArguments (with_mcp args enableMcp mcpConfigPath))
  = buildClaudeArgs (parseToolArguments args) /\
  handleToolCall id (mkParams toolName (with_mcp args enableMcp mcpConfigPath)) w
  = handleToolCall id (mkParams toolName args) w.
Proof.
  assert (Hs : same_run (parseToolArguments (with_mcp args enableMcp mcpConfigPath))
                 (parseToolArguments args)) by (repeat split).
  assert (Hj : same_run
                 (with_json_single
                    (parseToolArguments (with_mcp args enableMcp mcpConfigPath)))
                 (with_json_single (parseToolArguments args))) by (repeat split).
  split; [apply Hs|].
  unfold handleToolCall. cbn [name arguments].
  destruct (negb (mem toolName VALID_TOOL_NAMES)); [reflexivity|].
  change (arg_prompt (with_mcp args enableMcp mcpConfigPath)) with (arg_prompt args).
  destruct (mem toolName _).
  - unfold bind. now rewrite (runWithRetry_same_run _ _ _ Hs).
  - destruct (mem toolName _); [|reflexivity].
    unfold bind, runJsonWithRetry.
    rewrite (json_retry_loop_same_run _ _ _ _ Hj eq_refl).
    reflexivity.
Qed.
